(** * Moodify track aggregation: a shallow embedding of the Spotify services

    The repository holds several copies of one pipeline, [fetchSongsByMood]:
    authenticate, search playlists for a mood, fetch the tracks of every
    playlist concurrently, drop tracks whose title hits a block list, remove
    duplicates with a JavaScript [Map], memoise the list per (mood, market).

    Three copies are embedded here, each from its own file:
    - [Prod]   : the Netlify production service (authenticates through a
                 Netlify function, falls back to an empty list on errors);
    - [ProdV2] : the later production service (same pipeline, rethrows);
    - [Proxy]  : the service that talks to the [/api/spotify] proxy (no
                 authentication of its own, collects tracks per playlist).
    The server-side token cache of [functions/spotify.js] is [getAccessToken];
    the handler of that function is [ServerProxy.handler], and the handler
    of [functions/spotify-auth.js], which the production services ask for
    their token, is [SpotifyAuth.handler].

    JavaScript values coming from the network are kept as parsed JSON trees,
    so that optional chaining, truthiness tests and the TypeErrors of property
    reads on [null]/[undefined] are those of the source.

    Effects are explicit: a computation takes the state of the module (token,
    result cache, the arrays handed out, console, request history, clock
    reads) and returns a completion and the new state. Calls of
    [fetchSongsByMood] are taken one at a time; inside a call, the track
    requests of [Promise.all] are in flight together and settle in an order
    the host chooses. *)

From Stdlib Require Import ZArith String Ascii List Lia Bool DecimalString
  Sorted.
From stdpp Require Import base option list gmap strings.

Local Set Warnings "-register-all".
Local Open Scope string_scope.
Local Open Scope Z_scope.

(** ** JavaScript values *)

(** Parsed JSON. Numbers are integers: the pipeline only tests them for
    truthiness, prints them, or uses them as map keys. *)
Inductive JsVal : Type :=
| JUndefined
| JNull
| JBool (b : bool)
| JNum (n : Z)
| JStr (s : string)
| JArr (items : list JsVal)
| JObj (fields : list (string * JsVal)).

(** An axios rejection: [err.message] and, for a reply with a status outside
    2xx, [err.response] with its [status] and [data]. *)
Record AxiosError : Type := mkAxiosError {
  ae_message : string;
  ae_response : option (Z * JsVal)
}.

Inductive Exn : Type :=
| TypeError                    (* thrown by the runtime *)
| AxiosErr (e : AxiosError)    (* a rejected axios promise *)
| Error (msg : string).        (* [new Error(msg)] *)

Inductive Completion (A : Type) : Type :=
| Ok (a : A)
| Throw (e : Exn).
Arguments Ok {A} a.
Arguments Throw {A} e.

(** [!!v] *)
Definition truthy (v : JsVal) : bool :=
  match v with
  | JUndefined | JNull => false
  | JBool b => b
  | JNum n => negb (n =? 0)
  | JStr s => negb (String.eqb s "")
  | JArr _ | JObj _ => true
  end.

Definition nullish (v : JsVal) : bool :=
  match v with
  | JUndefined | JNull => true
  | _ => false
  end.

Fixpoint lookupField (k : string) (fields : list (string * JsVal)) : JsVal :=
  match fields with
  | [] => JUndefined
  | (k', v) :: rest => if String.eqb k' k then v else lookupField k rest
  end.

(** [v.k] for the property names the services read ([playlists], [items],
    [id], [track], [name], ...): none of them is a built-in property of
    strings, numbers, booleans or arrays, so only objects carry them. *)
Definition getProp (v : JsVal) (k : string) : Completion JsVal :=
  match v with
  | JUndefined | JNull => Throw TypeError
  | JObj fields => Ok (lookupField k fields)
  | _ => Ok JUndefined
  end.

(** [v?.k] *)
Definition optProp (v : JsVal) (k : string) : JsVal :=
  match v with
  | JObj fields => lookupField k fields
  | _ => JUndefined
  end.

(** [v[0]] *)
Definition getIndex0 (v : JsVal) : Completion JsVal :=
  match v with
  | JUndefined | JNull => Throw TypeError
  | JArr items => Ok (hd JUndefined items)
  | JStr (String c _) => Ok (JStr (String c ""))
  | JObj fields => Ok (lookupField "0" fields)
  | _ => Ok JUndefined
  end.

(** [a || b] *)
Definition jsOr (a b : JsVal) : JsVal := if truthy a then a else b.

(** [s.includes(kw)] *)
Fixpoint includes (s kw : string) : bool :=
  String.prefix kw s ||
  match s with
  | EmptyString => false
  | String _ s' => includes s' kw
  end.

Fixpoint joinStrings (sep : string) (l : list string) : string :=
  match l with
  | [] => ""
  | [s] => s
  | s :: rest => s ++ sep ++ joinStrings sep rest
  end.

(** ** Tracks and the block list *)

(** The object literal pushed for every accepted track. [title] is [t.name],
    which is a string whenever [t.name.toLowerCase()] did not throw. *)
Record Track : Type := mkTrack {
  id : JsVal;
  title : string;
  artist : string;
  url : JsVal;
  preview_url : JsVal;
  albumImageUrl : JsVal
}.

Definition BLOCKED_KEYWORDS : list string := [
  "happy birthday"; "acoustic"; "afrobeat"; "alt-rock"; "alternative";
  "ambient"; "anime"; "black-metal"; "bluegrass"; "blues"; "bossanova";
  "brazil"; "breakbeat"; "british"; "cantopop"; "chicago-house";
  "children"; "chill"; "classical"; "club"; "comedy"; "country"; "dance";
  "dancehall"; "death-metal"; "deep-house"; "detroit-techno"; "disco";
  "disney"; "drum-and-bass"; "dub"; "dubstep"; "edm"; "electro";
  "electronic"; "emo"; "folk"; "forro"; "french"; "funk"; "garage";
  "german"; "gospel"; "goth"; "grindcore"; "groove"; "grunge"; "guitar";
  "happy"; "hard-rock"; "hardcore"; "hardstyle"; "heavy-metal"; "hip-hop";
  "holidays"; "honky-tonk"; "house"; "idm"; "indian"; "indie"; "indie-pop";
  "industrial"; "iranian"; "j-dance"; "j-idol"; "j-pop"; "j-rock"; "jazz";
  "k-pop"; "kids"; "latin"; "latino"; "malay"; "mandopop"; "metal";
  "metal-misc"; "metalcore"; "minimal-techno"; "movies"; "mpb"; "new-age";
  "new-release"; "opera"; "pagode"; "party"; "philippines-opm"; "piano";
  "pop"; "pop-film"; "post-dubstep"; "power-pop"; "progressive-house";
  "psych-rock"; "punk"; "punk-rock"; "r-n-b"; "rainy-day"; "reggae";
  "reggaeton"; "road-trip"; "rock"; "rock-n-roll"; "rockabilly"; "romance";
  "sad"; "salsa"; "samba"; "sertanejo"; "show-tunes"; "singer-songwriter";
  "ska"; "sleep"; "songwriter"; "soul"; "soundtracks"; "spanish"; "study";
  "summer"; "swedish"; "synth-pop"; "tango"; "techno"; "trance";
  "trip-hop"; "turkish"; "work-out"; "world-music"
].

Definition isBlocked (name : string) : bool :=
  existsb (fun kw => includes name kw) BLOCKED_KEYWORDS.

(** ** The host: network, clock, scheduler, built-ins *)

(** An HTTP request as axios sends it: the URL, the [Authorization] header
    when one is set, and the query parameters. *)
Inductive Request : Type :=
| Post (target : string) (authorization : option string)
| Get (target : string) (authorization : option string)
      (params : list (string * JsVal)).

Inductive Reply (A : Type) : Type :=
| Resolve (data : A)
| Reject (err : AxiosError).
Arguments Resolve {A} data.
Arguments Reject {A} err.

(** The body of a successful token reply, [{ access_token, expires_in }],
    taken well typed as the token endpoint documents it. *)
Record TokenData : Type := mkTokenData {
  access_token : string;
  expires_in : Z
}.

(** Everything the services do not decide themselves. Replies, latencies
    and clock readings may depend on the whole history of requests, so a
    host covers any upstream behaviour, failures included.
    - [toLowerCase], [numberToString]: [String.prototype.toLowerCase] and
      the printing of numbers, whose Unicode and floating point tables are
      not reproduced;
    - [typeErrorMessage]: the engine's text for a TypeError;
    - [clock n]: the value of the [n]-th [Date.now()] of the process;
    - [tokenEndpoint], [httpGet]: the outcome of a request, given the
      requests sent before it;
    - [latency]: when a request sent by [Promise.all] settles; requests
      settle by increasing latency, ties in sending order;
    - [basicAuth]: the base64 client credentials of the server function. *)
Record Env : Type := mkEnv {
  toLowerCase : string -> string;
  numberToString : Z -> string;
  typeErrorMessage : string;
  clock : nat -> Z;
  tokenEndpoint : list Request -> Request -> Reply TokenData;
  httpGet : list Request -> Request -> Reply JsVal;
  latency : list Request -> Request -> nat;
  basicAuth : string
}.

Inductive Level : Type := LLog | LWarn | LError.

(** The module-level variables of a service ([accessToken],
    [tokenExpiresAt], [cache]), the arrays it has handed out (a list is
    returned by reference, [heap] holds the array behind each reference),
    the console, the requests sent so far and the number of clock reads. *)
Record State : Type := mkState {
  accessToken : option string;        (* [null] is [None] *)
  tokenExpiresAt : Z;
  cache : gmap string nat;
  heap : list (list Track);
  console : list (Level * string);
  requests : list Request;
  ticks : nat
}.

Definition initialState : State :=
  {| accessToken := None; tokenExpiresAt := 0; cache := ∅; heap := [];
     console := []; requests := []; ticks := 0%nat |}.

(** ** A state and exception monad *)

Definition M (A : Type) : Type := State -> Completion A * State.

Definition ret {A} (a : A) : M A := fun s => (Ok a, s).
Definition throw {A} (e : Exn) : M A := fun s => (Throw e, s).
Definition bind {A B} (m : M A) (k : A -> M B) : M B :=
  fun s => match m s with
           | (Ok a, s') => k a s'
           | (Throw e, s') => (Throw e, s')
           end.
(** [try { m } catch (err) { handler err }]: the effects of [m] up to the
    throw are kept. *)
Definition tryCatch {A} (m : M A) (handler : Exn -> M A) : M A :=
  fun s => match m s with
           | (Ok a, s') => (Ok a, s')
           | (Throw e, s') => handler e s'
           end.
Definition lift {A} (c : Completion A) : M A := fun s => (c, s).

Notation "x <- m ;; k" := (bind m (fun x => k))
  (at level 100, m at next level, right associativity).
Notation "m ;;; k" := (bind m (fun _ => k))
  (at level 100, right associativity).

(** The same sequencing for pure computations that may throw. *)
Definition bindC {A B} (c : Completion A) (k : A -> Completion B)
  : Completion B :=
  match c with
  | Ok a => k a
  | Throw e => Throw e
  end.
Notation "x <~ c ;; k" := (bindC c (fun x => k))
  (at level 100, c at next level, right associativity).

Fixpoint mapC {A B} (f : A -> Completion B) (l : list A)
  : Completion (list B) :=
  match l with
  | [] => Ok []
  | a :: rest => b <~ f a ;; bs <~ mapC f rest ;; Ok (b :: bs)
  end.

(** Assignments to the module-level variables. *)
Definition withAccessToken (v : option string) (s : State) : State :=
  {| accessToken := v; tokenExpiresAt := tokenExpiresAt s; cache := cache s;
     heap := heap s; console := console s; requests := requests s;
     ticks := ticks s |}.
Definition withTokenExpiresAt (v : Z) (s : State) : State :=
  {| accessToken := accessToken s; tokenExpiresAt := v; cache := cache s;
     heap := heap s; console := console s; requests := requests s;
     ticks := ticks s |}.
Definition withCache (v : gmap string nat) (s : State) : State :=
  {| accessToken := accessToken s; tokenExpiresAt := tokenExpiresAt s;
     cache := v; heap := heap s; console := console s;
     requests := requests s; ticks := ticks s |}.
Definition withHeap (v : list (list Track)) (s : State) : State :=
  {| accessToken := accessToken s; tokenExpiresAt := tokenExpiresAt s;
     cache := cache s; heap := v; console := console s;
     requests := requests s; ticks := ticks s |}.
Definition withConsole (v : list (Level * string)) (s : State) : State :=
  {| accessToken := accessToken s; tokenExpiresAt := tokenExpiresAt s;
     cache := cache s; heap := heap s; console := v;
     requests := requests s; ticks := ticks s |}.
Definition withRequests (v : list Request) (s : State) : State :=
  {| accessToken := accessToken s; tokenExpiresAt := tokenExpiresAt s;
     cache := cache s; heap := heap s; console := console s;
     requests := v; ticks := ticks s |}.
Definition withTicks (v : nat) (s : State) : State :=
  {| accessToken := accessToken s; tokenExpiresAt := tokenExpiresAt s;
     cache := cache s; heap := heap s; console := console s;
     requests := requests s; ticks := v |}.

Definition readAccessToken : M (option string) :=
  fun s => (Ok (accessToken s), s).
Definition writeAccessToken (v : string) : M unit :=
  fun s => (Ok tt, withAccessToken (Some v) s).
Definition readTokenExpiresAt : M Z := fun s => (Ok (tokenExpiresAt s), s).
Definition writeTokenExpiresAt (v : Z) : M unit :=
  fun s => (Ok tt, withTokenExpiresAt v s).

(** [cache.has(key) ? cache.get(key) : undefined] *)
Definition cacheGet (key : string) : M (option nat) :=
  fun s => (Ok (cache s !! key), s).
(** [cache.set(key, r)] *)
Definition cacheSet (key : string) (r : nat) : M unit :=
  fun s => (Ok tt, withCache (<[key := r]> (cache s)) s).

(** A new array object holding [l]; the result is its reference. *)
Definition alloc (l : list Track) : M nat :=
  fun s => (Ok (length (heap s)), withHeap (heap s ++ [l]) s).

Definition consoleWrite (lvl : Level) (msg : string) : M unit :=
  fun s => (Ok tt, withConsole (console s ++ [(lvl, msg)]) s).

(** The key under which a result is memoised: [`${mood}_${market}`]. *)
Definition cacheKey (mood market : string) : string :=
  mood ++ "_" ++ market.

(** Template literal of the [accessToken] variable. *)
Definition tokenText (tok : option string) : string :=
  match tok with
  | Some t => t
  | None => "null"
  end.

Definition tokenTruthy (tok : option string) : bool :=
  match tok with
  | Some t => negb (String.eqb t "")
  | None => false
  end.

(** ** Removing duplicates with a [Map] *)

(** Key equality of [Map] (SameValueZero) between the ids of two different
    track records. Primitives compare by value. An id that is an array or an
    object was parsed afresh for its record, so it is never the same
    reference as the id of another record. *)
Definition sameValueZero (a b : JsVal) : bool :=
  match a, b with
  | JUndefined, JUndefined => true
  | JNull, JNull => true
  | JBool x, JBool y => Bool.eqb x y
  | JNum x, JNum y => x =? y
  | JStr x, JStr y => String.eqb x y
  | _, _ => false
  end.

(** [m.set(k, v)] on the entries of a [Map], in insertion order: an existing
    key keeps its place and takes the new value, a new key goes last. *)
Fixpoint mapSet (k : JsVal) (v : Track) (m : list (JsVal * Track))
  : list (JsVal * Track) :=
  match m with
  | [] => [(k, v)]
  | (k', v') :: rest =>
      if sameValueZero k' k then (k', v) :: rest
      else (k', v') :: mapSet k v rest
  end.

(** [new Map(entries)] *)
Definition newMap (entries : list (JsVal * Track)) : list (JsVal * Track) :=
  fold_left (fun m e => mapSet (fst e) (snd e) m) entries [].

(** [Array.from(new Map(tracks.map((t) => [t.id, t])).values())] *)
Definition uniqueTracks (tracks : list Track) : list Track :=
  map snd (newMap (map (fun t => (id t, t)) tracks)).

Section Services.

Variable env : Env.

(** ** Shared pieces of the services *)

(** [String(v)], as a template literal prints [v]. Inside [join] and in the
    printing of arrays, [null] and [undefined] print as the empty string. *)
Fixpoint toStr (v : JsVal) : string :=
  match v with
  | JUndefined => "undefined"
  | JNull => "null"
  | JBool true => "true"
  | JBool false => "false"
  | JNum n => numberToString env n
  | JStr s => s
  | JArr items =>
      joinStrings ","
        (map (fun x => if nullish x then "" else toStr x) items)
  | JObj _ => "[object Object]"
  end.

(** [items.join(sep)] *)
Definition join (sep : string) (items : list JsVal) : string :=
  joinStrings sep (map (fun x => if nullish x then "" else toStr x) items).

(** [Date.now()] *)
Definition dateNow : M Z :=
  fun s => (Ok (clock env (ticks s)), withTicks (S (ticks s)) s).

(** Sending a request: it joins the history, and the host fixes its
    outcome. *)
Definition axiosPost (req : Request) : M TokenData :=
  fun s =>
    let s' := withRequests (requests s ++ [req]) s in
    match tokenEndpoint env (requests s) req with
    | Resolve data => (Ok data, s')
    | Reject err => (Throw (AxiosErr err), s')
    end.

Definition axiosGet (req : Request) : M JsVal :=
  fun s =>
    let s' := withRequests (requests s ++ [req]) s in
    match httpGet env (requests s) req with
    | Resolve data => (Ok data, s')
    | Reject err => (Throw (AxiosErr err), s')
    end.

(** [err.message] *)
Definition exnMessage (err : Exn) : string :=
  match err with
  | TypeError => typeErrorMessage env
  | AxiosErr e => ae_message e
  | Error msg => msg
  end.

(** The body run for each item of a playlist page: [item.track] is skipped
    when it has no truthy [id] or when its lower-cased name contains a
    blocked keyword, and is turned into a track record otherwise. The
    [forEach] callback of [Prod] and [ProdV2] and the [map] callback of
    [Proxy] read the same properties in the same order. *)
Definition trackOfItem (item : JsVal) : Completion (option Track) :=
  t <~ getProp item "track" ;;
  if negb (truthy (optProp t "id")) then Ok None else
  rawName <~ getProp t "name" ;;
  match rawName with
  | JStr tname =>
      let name := toLowerCase env tname in
      if isBlocked name then Ok None else
      tid <~ getProp t "id" ;;
      artists <~ getProp t "artists" ;;
      names <~ match artists with
               | JArr l => mapC (fun a => getProp a "name") l
               | _ => Throw TypeError
               end ;;
      external_urls <~ getProp t "external_urls" ;;
      spotify <~ getProp external_urls "spotify" ;;
      preview <~ getProp t "preview_url" ;;
      album <~ getProp t "album" ;;
      images <~ getProp album "images" ;;
      image0 <~ getIndex0 images ;;
      Ok (Some {| id := tid;
                  title := tname;
                  artist := join ", " names;
                  url := spotify;
                  preview_url := preview;
                  albumImageUrl := jsOr (optProp image0 "url") (JStr "") |})
  | _ => Throw TypeError
  end.

(** A track request sent by [Promise.all] and not yet settled. *)
Record Pending : Type := mkPending {
  playlistId : JsVal;
  reply : Reply JsVal;
  settleAt : nat
}.

Definition sendGet (pid : JsVal) (req : Request) : M Pending :=
  fun s =>
    (Ok {| playlistId := pid;
           reply := httpGet env (requests s) req;
           settleAt := latency env (requests s) req |},
     withRequests (requests s ++ [req]) s).

(** The order in which pending requests settle: by latency, requests with
    the same latency in the order they were sent. *)
Fixpoint insertSettled (p : Pending) (l : list Pending) : list Pending :=
  match l with
  | [] => [p]
  | q :: rest =>
      if (settleAt p <=? settleAt q)%nat then p :: q :: rest
      else q :: insertSettled p rest
  end.

Definition settleOrder (l : list Pending) : list Pending :=
  fold_right insertSettled [] l.

(** [Array.isArray(searchData.playlists?.items) ? searchData.playlists.items
    : []] *)
Definition playlistItems (searchData : JsVal) : Completion (list JsVal) :=
  playlists <~ getProp searchData "playlists" ;;
  match optProp playlists "items" with
  | JArr items => Ok items
  | _ => Ok []
  end.

Definition trackWarning (pid : JsVal) : string :=
  "Failed to fetch tracks from playlist " ++ toStr pid ++ ":".

(** The [forEach] over a playlist page that pushes onto the shared [tracks]
    array: a throw stops the loop and keeps what was pushed before it. The
    result is the array after the loop and the exception, if any. *)
Fixpoint forEachPush (items : list JsVal) (tracks : list Track)
  : list Track * option Exn :=
  match items with
  | [] => (tracks, None)
  | item :: rest =>
      match trackOfItem item with
      | Throw e => (tracks, Some e)
      | Ok None => forEachPush rest tracks
      | Ok (Some t) => forEachPush rest (tracks ++ [t])
      end
  end.

(** [(trackData.items || []).forEach(...)] *)
Definition pushTracks (trackData : JsVal) (tracks : list Track)
  : list Track * option Exn :=
  match getProp trackData "items" with
  | Throw e => (tracks, Some e)
  | Ok items =>
      match jsOr items (JArr []) with
      | JArr l => forEachPush l tracks
      | _ => (tracks, Some TypeError)
      end
  end.

(** The continuation of one [Promise.all] callback once its request has
    settled, with its own [try]/[catch]: push the page's tracks, or warn. *)
Definition onSettled (warning : JsVal -> string) (p : Pending)
    (tracks : list Track) : M (list Track) :=
  match reply p with
  | Reject _ => consoleWrite LWarn (warning (playlistId p)) ;;; ret tracks
  | Resolve trackData =>
      match pushTracks trackData tracks with
      | (tracks', Some _) =>
          consoleWrite LWarn (warning (playlistId p)) ;;; ret tracks'
      | (tracks', None) => ret tracks'
      end
  end.

Fixpoint settleAll (warning : JsVal -> string) (settled : list Pending)
    (tracks : list Track) : M (list Track) :=
  match settled with
  | [] => ret tracks
  | p :: rest =>
      tracks' <- onSettled warning p tracks ;;
      settleAll warning rest tracks'
  end.

(** [playlists.map(async (pl) => { if (!pl?.id) return; ... axios.get(...)
    ...})] up to the first [await] of every callback: the requests go out in
    playlist order, one per playlist with a truthy id. *)
Fixpoint sendAll (request : JsVal -> Request) (playlists : list JsVal)
  : M (list Pending) :=
  match playlists with
  | [] => ret []
  | pl :: rest =>
      if negb (truthy (optProp pl "id")) then sendAll request rest
      else
        p <- sendGet (optProp pl "id") (request (optProp pl "id")) ;;
        ps <- sendAll request rest ;;
        ret (p :: ps)
  end.

(** [await Promise.all(playlists.map(...))] with the shared [tracks] array:
    the callbacks run to their request, then finish in settle order. *)
Definition fetchAllTracks (request : JsVal -> Request)
    (warning : JsVal -> string) (playlists : list JsVal) : M (list Track) :=
  pending <- sendAll request playlists ;;
  settleAll warning (settleOrder pending) [].

End Services.

(** ** The Netlify production service *)

Module Prod.
Section Service.

Variable env : Env.

(** [accessToken && Date.now() < tokenExpiresAt - 60 * 1000]; the clock is
    read only when a token is held. *)
Definition tokenStillValid : M bool :=
  tok <- readAccessToken ;;
  if tokenTruthy tok then
    now <- dateNow env ;;
    expiresAt <- readTokenExpiresAt ;;
    ret (now <? expiresAt - 60 * 1000)
  else ret false.

Definition authenticateSpotify : M (option string) :=
  valid <- tokenStillValid ;;
  if valid then readAccessToken
  else
    tryCatch
      (data <- axiosPost env (Post "/.netlify/functions/spotify-auth" None) ;;
       writeAccessToken (access_token data) ;;;
       now <- dateNow env ;;
       writeTokenExpiresAt (now + expires_in data * 1000) ;;;
       readAccessToken)
      (fun err =>
         consoleWrite LError "Spotify authentication failed:" ;;;
         throw (Error "Spotify authentication failed")).

Definition searchRequest (headers : option string) (mood market : string)
    (playlistLimit : Z) : Request :=
  Get "https://api.spotify.com/v1/search" headers
    [("q", JStr mood); ("type", JStr "playlist");
     ("limit", JNum playlistLimit); ("market", JStr market)].

Definition tracksRequest (headers : option string) (market : string)
    (trackLimit : Z) (pid : JsVal) : Request :=
  Get ("https://api.spotify.com/v1/playlists/" ++ toStr env pid ++ "/tracks")
    headers [("limit", JNum trackLimit); ("market", JStr market)].

Definition fetchSongsByMood (mood market : string)
    (playlistLimit trackLimit : Z) : M nat :=
  let key := cacheKey mood market in
  hit <- cacheGet key ;;
  match hit with
  | Some r => ret r
  | None =>
      authenticateSpotify ;;;
      tok <- readAccessToken ;;
      let headers := Some ("Bearer " ++ tokenText tok) in
      tryCatch
        (searchData <-
           axiosGet env (searchRequest headers mood market playlistLimit) ;;
         playlists <- lift (playlistItems searchData) ;;
         tracks <-
           fetchAllTracks env (tracksRequest headers market trackLimit)
             (trackWarning env) playlists ;;
         r <- alloc (uniqueTracks tracks) ;;
         cacheSet key r ;;;
         ret r)
        (fun err =>
           consoleWrite LError "Error fetching songs:" ;;;
           alloc [])
  end.

(** The first steps of a call that misses the cache, named to state
    properties of the steps that follow: the call up to the reply of the
    search request, and up to the sending of the track requests. *)
Definition searched (mood market : string) (playlistLimit : Z) : M JsVal :=
  authenticateSpotify ;;;
  tok <- readAccessToken ;;
  axiosGet env
    (searchRequest (Some ("Bearer " ++ tokenText tok)) mood market
       playlistLimit).

Definition sent (mood market : string) (playlistLimit trackLimit : Z)
  : M (list Pending) :=
  authenticateSpotify ;;;
  tok <- readAccessToken ;;
  let headers := Some ("Bearer " ++ tokenText tok) in
  searchData <-
    axiosGet env (searchRequest headers mood market playlistLimit) ;;
  playlists <- lift (playlistItems searchData) ;;
  sendAll env (tracksRequest headers market trackLimit) playlists.

End Service.
End Prod.

(** ** The later production service *)

Module ProdV2.
Section Service.

Variable env : Env.

(** The [catch] of [authenticateSpotify]: a reply with status 500 and a
    truthy [message] in its body becomes a configuration error. *)
Definition authFailure (err : Exn) : M (option string) :=
  consoleWrite LError "🎵 MusicAI: Spotify authentication failed:" ;;;
  let generic :=
    throw (Error "Spotify authentication failed. Please check if Spotify API credentials are configured correctly.") in
  match err with
  | AxiosErr {| ae_response := Some (status, data) |} =>
      consoleWrite LError "Response status:" ;;;
      consoleWrite LError "Response data:" ;;;
      if (status =? 500) && truthy (optProp data "message") then
        throw (Error ("Spotify configuration error: "
                      ++ toStr env (optProp data "message")))
      else generic
  | _ => generic
  end.

Definition authenticateSpotify : M (option string) :=
  valid <- Prod.tokenStillValid env ;;
  if valid then readAccessToken
  else
    tryCatch
      (consoleWrite LLog "🎵 MusicAI: Requesting Spotify authentication..." ;;;
       data <- axiosPost env (Post "/.netlify/functions/spotify-auth" None) ;;
       writeAccessToken (access_token data) ;;;
       now <- dateNow env ;;
       writeTokenExpiresAt (now + expires_in data * 1000) ;;;
       consoleWrite LLog "🎵 MusicAI: Authentication successful" ;;;
       readAccessToken)
      authFailure.

Definition trackWarning (pid : JsVal) : string :=
  "🎵 MusicAI: Failed to fetch tracks from playlist " ++ toStr env pid ++ ":".

(** The [catch] of [fetchSongsByMood]: configuration and authentication
    errors are rethrown as they are, anything else as a generic error. *)
Definition fetchFailure (err : Exn) : M nat :=
  consoleWrite LError "🎵 MusicAI: Error fetching songs:" ;;;
  if includes (exnMessage env err) "configuration error"
     || includes (exnMessage env err) "authentication failed"
  then throw err
  else throw (Error "Failed to fetch music recommendations. Please try again later.").

Definition fetchSongsByMood (mood market : string)
    (playlistLimit trackLimit : Z) : M nat :=
  let key := cacheKey mood market in
  hit <- cacheGet key ;;
  match hit with
  | Some r =>
      consoleWrite LLog "🎵 MusicAI: Using cached results for" ;;;
      ret r
  | None =>
      tryCatch
        (consoleWrite LLog "🎵 MusicAI: Fetching songs for mood:" ;;;
         authenticateSpotify ;;;
         tok <- readAccessToken ;;
         let headers := Some ("Bearer " ++ tokenText tok) in
         searchData <-
           axiosGet env
             (Prod.searchRequest headers mood market playlistLimit) ;;
         playlists <- lift (playlistItems searchData) ;;
         consoleWrite LLog
           ("🎵 MusicAI: Found "
            ++ numberToString env (Z.of_nat (length playlists))
            ++ " playlists for mood: " ++ mood) ;;;
         tracks <-
           fetchAllTracks env (Prod.tracksRequest env headers market trackLimit)
             trackWarning playlists ;;
         let unique := uniqueTracks tracks in
         r <- alloc unique ;;
         consoleWrite LLog
           ("🎵 MusicAI: Found "
            ++ numberToString env (Z.of_nat (length unique))
            ++ " unique tracks for mood: " ++ mood) ;;;
         cacheSet key r ;;;
         ret r)
        fetchFailure
  end.

(** The call up to the reply of the search request, on a cache miss. *)
Definition searched (mood market : string) (playlistLimit : Z) : M JsVal :=
  consoleWrite LLog "🎵 MusicAI: Fetching songs for mood:" ;;;
  authenticateSpotify ;;;
  tok <- readAccessToken ;;
  axiosGet env
    (Prod.searchRequest (Some ("Bearer " ++ tokenText tok)) mood market
       playlistLimit).

End Service.
End ProdV2.

(** ** The service behind the [/api/spotify] proxy *)

Module Proxy.
Section Service.

Variable env : Env.

Definition API_BASE_URL : string := "/api/spotify".

Definition searchRequest (mood market : string) (playlistLimit : Z)
  : Request :=
  Get (API_BASE_URL ++ "/search") None
    [("q", JStr mood); ("type", JStr "playlist");
     ("limit", JNum playlistLimit); ("market", JStr market)].

Definition tracksRequest (market : string) (trackLimit : Z) (pid : JsVal)
  : Request :=
  Get (API_BASE_URL ++ "/playlists/" ++ toStr env pid ++ "/tracks") None
    [("limit", JNum trackLimit); ("market", JStr market)].

(** [(trackData.items || []).map(({ track }) => ...).filter(Boolean)] *)
Definition pageTracks (trackData : JsVal) : Completion (list Track) :=
  items <~ getProp trackData "items" ;;
  match jsOr items (JArr []) with
  | JArr l => mapped <~ mapC (trackOfItem env) l ;; Ok (omap (fun o => o) mapped)
  | _ => Throw TypeError
  end.

(** What the callback of one playlist resolves to once its request has
    settled: the page's tracks, or the empty array after a warning. *)
Definition tracksOf (p : Pending) : Completion (list Track) :=
  match reply p with
  | Reject err => Throw (AxiosErr err)
  | Resolve trackData => pageTracks trackData
  end.

Definition contribution (p : Pending) : list Track :=
  match tracksOf p with
  | Ok l => l
  | Throw _ => []
  end.

Definition warnIfFailed (p : Pending) : M unit :=
  match tracksOf p with
  | Ok _ => ret tt
  | Throw _ => consoleWrite LWarn (trackWarning env (playlistId p))
  end.

Fixpoint warnAll (settled : list Pending) : M unit :=
  match settled with
  | [] => ret tt
  | p :: rest => warnIfFailed p ;;; warnAll rest
  end.

(** [(await Promise.all(trackPromises)).flat()]: the requests go out in
    playlist order, the warnings come in settle order, and the pages are
    concatenated in playlist order. *)
Definition fetchAllTracks (market : string) (trackLimit : Z)
    (playlists : list JsVal) : M (list Track) :=
  pending <- sendAll env (tracksRequest market trackLimit) playlists ;;
  warnAll (settleOrder pending) ;;;
  ret (concat (map contribution pending)).

(** [searchData.playlists?.items || []], on which [map] is then called. *)
Definition playlistItems (searchData : JsVal) : Completion (list JsVal) :=
  playlists <~ getProp searchData "playlists" ;;
  match jsOr (optProp playlists "items") (JArr []) with
  | JArr items => Ok items
  | _ => Throw TypeError
  end.

Definition fetchSongsByMood (mood market : string)
    (playlistLimit trackLimit : Z) : M nat :=
  let cacheKey := cacheKey mood market in
  hit <- cacheGet cacheKey ;;
  match hit with
  | Some r => ret r
  | None =>
      tryCatch
        (searchData <-
           axiosGet env (searchRequest mood market playlistLimit) ;;
         playlists <- lift (playlistItems searchData) ;;
         tracks <- fetchAllTracks market trackLimit playlists ;;
         r <- alloc (uniqueTracks tracks) ;;
         cacheSet cacheKey r ;;;
         ret r)
        (fun error =>
           consoleWrite LError "Error fetching songs via Netlify Function:" ;;;
           alloc [])
  end.

(** The call up to the reply of the search request, and up to the sending
    of the track requests, on a cache miss. *)
Definition searched (mood market : string) (playlistLimit : Z) : M JsVal :=
  axiosGet env (searchRequest mood market playlistLimit).

Definition sent (mood market : string) (playlistLimit trackLimit : Z)
  : M (list Pending) :=
  searchData <- axiosGet env (searchRequest mood market playlistLimit) ;;
  playlists <- lift (playlistItems searchData) ;;
  sendAll env (tracksRequest market trackLimit) playlists.

End Service.
End Proxy.

(** ** The token cache of the server function ([functions/spotify.js]) *)

Module Server.
Section Service.

Variable env : Env.

(** [tokenCache.accessToken] and [tokenCache.expiresAt] are the
    [accessToken] and [tokenExpiresAt] components of the state. *)
Definition getAccessToken : M (option string) :=
  tok <- readAccessToken ;;
  valid <- (if tokenTruthy tok then
              now <- dateNow env ;;
              expiresAt <- readTokenExpiresAt ;;
              ret (now <? expiresAt)
            else ret false) ;;
  if valid then readAccessToken
  else
    tryCatch
      (data <-
         axiosPost env
           (Post "https://accounts.spotify.com/api/token"
              (Some ("Basic " ++ basicAuth env))) ;;
       writeAccessToken (access_token data) ;;;
       now <- dateNow env ;;
       writeTokenExpiresAt (now + (expires_in data - 60) * 1000) ;;;
       readAccessToken)
      (fun error =>
         consoleWrite LError "Error fetching Spotify token:" ;;;
         throw (Error "Failed to retrieve Spotify access token.")).

End Service.
End Server.

(** ** Notions used to state the properties *)

(** Keeping the first record of every id, as the specification words the
    removal of duplicates; to be compared with [uniqueTracks]. *)
Fixpoint keepFirst (tracks : list Track) : list Track :=
  match tracks with
  | [] => []
  | t :: rest =>
      t :: filter (fun u => sameValueZero (id t) (id u) = false)
             (keepFirst rest)
  end.

(** The record that a [Map] keyed by id holds in the end for the id of [t],
    once [t] and then the records of [rest] have been set: the last of them
    with that id. *)
Fixpoint lastOfId (t : Track) (rest : list Track) : Track :=
  match rest with
  | [] => t
  | u :: rest' =>
      lastOfId (if sameValueZero (id t) (id u) then u else t) rest'
  end.

(** The removal of duplicates described on lists: every id once, at the
    place of its first record and with the fields of its last; to be
    compared with [uniqueTracks]. *)
Fixpoint deduplicated (tracks : list Track) : list Track :=
  match tracks with
  | [] => []
  | t :: rest =>
      lastOfId t rest
      :: filter (fun u => sameValueZero (id t) (id u) = false)
           (deduplicated rest)
  end.

(** No two records of the list share an id. *)
Definition distinctIds (l : list Track) : Prop :=
  forall i j a b, i <> j -> l !! i = Some a -> l !! j = Some b ->
    sameValueZero (id a) (id b) = false.

(** [t] is the last record of [l] with its id. *)
Definition lastOfItsId (t : Track) (l : list Track) : Prop :=
  exists before after, l = (before ++ t :: after)%list /\
    Forall (fun u => sameValueZero (id t) (id u) = false) after.

Definition isError (entry : Level * string) : bool :=
  match fst entry with
  | LError => true
  | _ => false
  end.

(** How many times [console.error] has been called. *)
Definition errorsLogged (s : State) : nat :=
  length (List.filter isError (console s)).

(** [s'] comes after [s] without any change to the result cache or to the
    arrays handed out: only the console, the request history and the clock
    have moved on (and possibly the token). *)
Record quiet (s s' : State) : Prop := mkQuiet {
  quiet_cache : cache s' = cache s;
  quiet_heap : heap s' = heap s;
  quiet_console : console s `prefix_of` console s';
  quiet_requests : requests s `prefix_of` requests s';
  quiet_ticks : (ticks s <= ticks s')%nat
}.

Section Notions.

Variable env : Env.

(** The lower-cased title contains no blocked keyword. *)
Definition unblocked (t : Track) : Prop :=
  forall kw, In kw BLOCKED_KEYWORDS ->
    includes (toLowerCase env (title t)) kw = false.

(** The states a service can be in: the initial one, and any state left by
    a call of its [fetchSongsByMood], whatever its arguments and outcome. *)
Inductive reachable (fetch : string -> string -> Z -> Z -> M nat)
  : State -> Prop :=
| reachable_initial : reachable fetch initialState
| reachable_call s mood market playlistLimit trackLimit c s' :
    reachable fetch s ->
    fetch mood market playlistLimit trackLimit s = (c, s') ->
    reachable fetch s'.

(** [laterOn fetch s s']: the service is in state [s'] at [s] or at any
    time after it, that is, after any number of further calls, whatever
    their arguments and outcomes. *)
Inductive laterOn (fetch : string -> string -> Z -> Z -> M nat) (s : State)
  : State -> Prop :=
| laterOn_now : laterOn fetch s s
| laterOn_call s' mood market playlistLimit trackLimit c s'' :
    laterOn fetch s s' ->
    fetch mood market playlistLimit trackLimit s' = (c, s'') ->
    laterOn fetch s s''.

(** The tracks a settled request adds to the shared array of [Prod]. *)
Definition pushed (p : Pending) : list Track :=
  match reply p with
  | Resolve trackData => fst (pushTracks env trackData [])
  | Reject _ => []
  end.


End Notions.

(** ** Playlist pages as the upstream interface documents them *)

(** A track of the playlist-tracks endpoint,
    [{ id, name, artists: [{name}], external_urls: {spotify}, preview_url,
       album: { images: [{url}] } }], where [id] and [preview_url] may be
    [null]. *)
Record UpstreamTrack : Type := mkUpstreamTrack {
  up_id : option string;
  up_name : string;
  up_artists : list string;
  up_spotify : string;
  up_preview_url : option string;
  up_images : list string
}.

Definition nullable (v : option string) : JsVal :=
  match v with
  | Some s => JStr s
  | None => JNull
  end.

(** The JSON of a track, of an item [{ track }] of a page ([track] is
    [null] for a track that is no longer available) and of a page
    [{ items }]. *)
Definition trackJson (t : UpstreamTrack) : JsVal :=
  JObj [("id", nullable (up_id t));
        ("name", JStr (up_name t));
        ("artists",
         JArr (map (fun a => JObj [("name", JStr a)]) (up_artists t)));
        ("external_urls", JObj [("spotify", JStr (up_spotify t))]);
        ("preview_url", nullable (up_preview_url t));
        ("album",
         JObj [("images",
                JArr (map (fun u => JObj [("url", JStr u)]) (up_images t)))])].

Definition itemJson (item : option UpstreamTrack) : JsVal :=
  JObj [("track", match item with
                  | Some t => trackJson t
                  | None => JNull
                  end)].

Definition pageJson (items : list (option UpstreamTrack)) : JsVal :=
  JObj [("items", JArr (map itemJson items))].

Section Expected.

Variable env : Env.

(** What the specification asks of a page, in its own terms. A track
    without an identifier is skipped; a track whose lower-cased title
    contains an entry of the block list is dropped; any other track gives
    the record with its id, its name as title, the names of its artists
    joined by a comma, its Spotify link, its preview and the first image of
    its album (the empty string when it has none). *)
Definition hasIdentifier (t : UpstreamTrack) : bool :=
  match up_id t with
  | Some i => negb (String.eqb i "")
  | None => false
  end.

Definition titleAllowed (t : UpstreamTrack) : bool :=
  forallb (fun kw => negb (includes (toLowerCase env (up_name t)) kw))
    BLOCKED_KEYWORDS.

Definition recordOf (t : UpstreamTrack) : Track :=
  {| id := nullable (up_id t);
     title := up_name t;
     artist := joinStrings ", " (up_artists t);
     url := JStr (up_spotify t);
     preview_url := nullable (up_preview_url t);
     albumImageUrl := JStr (hd "" (up_images t)) |}.

Definition expectedTracks (items : list (option UpstreamTrack))
  : list Track :=
  map recordOf
    (List.filter (fun t => hasIdentifier t && titleAllowed t)
       (omap (fun item => item) items)).

End Expected.

(** ** The contract of a token cache *)

(** The number of clock reads once the validity test has run: the test
    reads the clock only when a token is held. *)
Definition ticksAfterTest (s : State) : nat :=
  if tokenTruthy (accessToken s) then S (ticks s) else ticks s.

(** The token-cache contract of the specification, for a token operation
    [getToken] that exchanges credentials with the request [exchange] and
    fails with [failure]; [valid now expiresAt] is the test under which the
    held token is served and [expiry now expiresIn] the expiry stored with a
    new token.
    (a) A held token that passes the test is returned and nothing is sent.
    (b) Otherwise one exchange is sent; if it resolves, its token is stored
        with the expiry computed from the clock read after the reply, and
        returned.
    (c) If the exchange is rejected the operation throws [failure], having
        sent that one request only, and the stored token is left as it was. *)
Definition tokenCacheSpec (env : Env) (getToken : M (option string))
    (exchange : Request) (failure : Exn)
    (valid : Z -> Z -> bool) (expiry : Z -> Z -> Z) : Prop :=
  forall s,
    if tokenTruthy (accessToken s)
       && valid (clock env (ticks s)) (tokenExpiresAt s)
    then
      exists s1, getToken s = (Ok (accessToken s), s1) /\
        requests s1 = requests s
    else
      match tokenEndpoint env (requests s) exchange with
      | Resolve data =>
          exists s1, getToken s = (Ok (Some (access_token data)), s1) /\
            accessToken s1 = Some (access_token data) /\
            tokenExpiresAt s1
            = expiry (clock env (ticksAfterTest s)) (expires_in data) /\
            requests s1 = (requests s ++ [exchange])%list
      | Reject _ =>
          exists s1, getToken s = (Throw failure, s1) /\
            accessToken s1 = accessToken s /\
            tokenExpiresAt s1 = tokenExpiresAt s /\
            requests s1 = (requests s ++ [exchange])%list
      end.

(** The test and the expiry as the specification gives them. *)
Definition validWithBuffer (now expiresAt : Z) : bool :=
  now <? expiresAt - 60 * 1000.

Definition fullLifetime (now expiresIn : Z) : Z := now + expiresIn * 1000.

(** The test and the expiry of the server function, which takes the buffer
    off when it stores the expiry. *)
Definition validUntilExpiry (now expiresAt : Z) : bool := now <? expiresAt.

Definition shortenedLifetime (now expiresIn : Z) : Z :=
  now + (expiresIn - 60) * 1000.

(** ** Notions used in the proofs *)

(** The entries of a [Map] under construction: every key is the id of its
    value, and no two keys are the same. *)
Definition keyed (m : list (JsVal * Track)) : Prop :=
  Forall (fun e => fst e = id (snd e)) m.

Definition distinctKeys (m : list (JsVal * Track)) : Prop :=
  forall i j e1 e2, i <> j -> m !! i = Some e1 -> m !! j = Some e2 ->
    sameValueZero (fst e1) (fst e2) = false.

(** [new Map(...)] continued from the entries [m]. *)
Definition buildMap (tracks : list Track) (m : list (JsVal * Track))
  : list (JsVal * Track) :=
  fold_left (fun m e => mapSet (fst e) (snd e) m)
    (map (fun t => (id t, t)) tracks) m.

(** [k] is not among the keys [ks]. *)
Definition fresh (ks : list JsVal) (k : JsVal) : Prop :=
  existsb (fun k' => sameValueZero k' k) ks = false.

(** Every run of [m] is quiet. *)
Definition Quiet {A} (m : M A) : Prop :=
  forall s c s', m s = (c, s') -> quiet s s'.

(** A run of [m] that returns has not called [console.error]. *)
Definition hushed {A} (m : M A) : Prop :=
  forall s a s', m s = (Ok a, s') -> errorsLogged s' = errorsLogged s.

(** [t] is the record built from some upstream item. *)
Definition accepted (env : Env) (t : Track) : Prop :=
  exists item, trackOfItem env item = Ok (Some t).

(** The three ways a call that misses the cache can end: with the list of
    unique tracks stored under the key and no error reported; with a new
    empty list, nothing stored and one more error on the console; or with
    an exception, nothing stored and an error on the console. *)
Inductive missOutcome (env : Env) (key : string) (s : State)
  : Completion nat -> State -> Prop :=
| miss_done tracks s1 :
    Forall (accepted env) tracks ->
    heap s1 = (heap s ++ [uniqueTracks tracks])%list ->
    cache s1 = <[key := length (heap s)]> (cache s) ->
    errorsLogged s1 = errorsLogged s ->
    missOutcome env key s (Ok (length (heap s))) s1
| miss_fallback s1 :
    heap s1 = (heap s ++ [[]])%list ->
    cache s1 = cache s ->
    (errorsLogged s < errorsLogged s1)%nat ->
    requests s `prefix_of` requests s1 ->
    missOutcome env key s (Ok (length (heap s))) s1
| miss_failed e s1 :
    quiet s s1 ->
    (errorsLogged s < errorsLogged s1)%nat ->
    missOutcome env key s (Throw e) s1.

(** A service whose calls return the cached reference on a hit, leaving the
    state as it is, and end in one of the outcomes of [missOutcome]
    otherwise. *)
Definition memoising (env : Env) (fetch : string -> string -> Z -> Z -> M nat)
  : Prop :=
  forall mood market playlistLimit trackLimit s,
    match cache s !! cacheKey mood market with
    | Some r => fetch mood market playlistLimit trackLimit s = (Ok r, s)
    | None => forall c s1,
        fetch mood market playlistLimit trackLimit s = (c, s1) ->
        missOutcome env (cacheKey mood market) s c s1
    end.

(** Every array handed out so far has distinct ids and unblocked titles, and
    every cached reference points to one of them. *)
Definition wellFormed (env : Env) (s : State) : Prop :=
  Forall (fun l => distinctIds l /\ Forall (unblocked env) l) (heap s) /\
  forall key r, cache s !! key = Some r -> (r < length (heap s))%nat.

(** The two services that answer errors with an empty list. *)
Definition lenient (env : Env) (fetch : string -> string -> Z -> Z -> M nat)
  : Prop :=
  fetch = Prod.fetchSongsByMood env \/ fetch = Proxy.fetchSongsByMood env.

Definition isResolved (p : Pending) : bool :=
  match reply p with
  | Resolve _ => true
  | Reject _ => false
  end.

Definition settleSorted (l : list Pending) : Prop :=
  StronglySorted (fun p q => (settleAt p <= settleAt q)%nat) l.

Definition growing {A} (m : M A) : Prop :=
  forall s c s', m s = (c, s') -> requests s `prefix_of` requests s'.

(** ** Example hosts *)

(** ASCII lower-casing and decimal printing, enough for the examples. *)
Definition lowerAscii (c : ascii) : ascii :=
  let n := nat_of_ascii c in
  if ((65 <=? n) && (n <=? 90))%nat then ascii_of_nat (n + 32) else c.

Fixpoint asciiLower (s : string) : string :=
  match s with
  | EmptyString => EmptyString
  | String c rest => String (lowerAscii c) (asciiLower rest)
  end.

Definition decimal (n : Z) : string := NilZero.string_of_int (Z.to_int n).

(** An item of a playlist page as the playlist-tracks endpoint returns it. *)
Definition rawTrack (tid name : string) : JsVal :=
  JObj [("track",
         JObj [("id", JStr tid); ("name", JStr name);
               ("artists", JArr [JObj [("name", JStr "Ann")];
                                 JObj [("name", JStr "Bob")]]);
               ("external_urls",
                JObj [("spotify",
                       JStr ("https://open.spotify.com/track/" ++ tid))]);
               ("preview_url", JNull);
               ("album",
                JObj [("images", JArr [JObj [("url", JStr "cover.jpg")]])])])].

Definition page (items : list JsVal) : JsVal := JObj [("items", JArr items)].

Definition searchResult (ids : list string) : JsVal :=
  JObj [("playlists",
         JObj [("items", JArr (map (fun i => JObj [("id", JStr i)]) ids))])].

Definition targetOf (req : Request) : string :=
  match req with
  | Post target _ => target
  | Get target _ _ => target
  end.

Definition notFound : AxiosError :=
  {| ae_message := "Request failed with status code 404";
     ae_response := Some (404, JNull) |}.

Definition networkError : AxiosError :=
  {| ae_message := "Network Error"; ae_response := None |}.

(** A host from a token reply and a table of GET replies; requests settle
    in the order they were sent and the clock advances one second a read. *)
Definition hostOf (token : Reply TokenData) (get : string -> Reply JsVal)
  : Env :=
  {| toLowerCase := asciiLower;
     numberToString := decimal;
     typeErrorMessage := "Cannot read properties of undefined";
     clock := fun n => 1000 * Z.of_nat n;
     tokenEndpoint := fun _ _ => token;
     httpGet := fun _ req => get (targetOf req);
     latency := fun history _ => length history;
     basicAuth := "Y2xpZW50OnNlY3JldA==" |}.

Definition goodToken : Reply TokenData :=
  Resolve {| access_token := "BQDtoken"; expires_in := 3600 |}.

(** The end-to-end example of the specification: two playlists, a birthday
    song, a duplicate and a title with a blocked keyword. *)
Definition exampleHost : Env :=
  hostOf goodToken (fun target =>
    if includes target "/search" then Resolve (searchResult ["p1"; "p2"])
    else if includes target "/playlists/p1/" then
      Resolve (page [rawTrack "t1" "Happy Birthday Song";
                     rawTrack "t2" "Sunshine"])
    else if includes target "/playlists/p2/" then
      Resolve (page [rawTrack "t2" "Sunshine";
                     rawTrack "t3" "Dance Tonight"])
    else Reject notFound).

(** The search endpoint is down. *)
Definition searchDownHost : Env :=
  hostOf goodToken (fun _ => Reject networkError).

(** The token endpoint answers 400. *)
Definition authDownHost : Env :=
  hostOf (Reject {| ae_message := "Request failed with status code 400";
                    ae_response := Some (400, JObj [("error", JStr "invalid_client")]) |})
         (fun _ => Reject networkError).

(** Three playlists, the second of which cannot be fetched. *)
Definition partialHost : Env :=
  hostOf goodToken (fun target =>
    if includes target "/search" then
      Resolve (searchResult ["p1"; "p2"; "p3"])
    else if includes target "/playlists/p1/" then
      Resolve (page [rawTrack "t1" "Happy Birthday Song";
                     rawTrack "t2" "Sunshine"])
    else if includes target "/playlists/p3/" then
      Resolve (page [rawTrack "t2" "Sunshine"; rawTrack "t4" "Moonlight"])
    else Reject notFound).

(** The search reply has no [playlists] member. *)
Definition shapelessHost : Env :=
  hostOf goodToken (fun _ => Resolve (JObj [("error", JStr "unexpected")])).

(** Two records of one id whose titles differ. *)
Definition firstRecord : Track :=
  {| id := JStr "t2"; title := "Sunshine"; artist := "Ann";
     url := JStr "https://open.spotify.com/track/t2";
     preview_url := JNull; albumImageUrl := JStr "" |}.

Definition secondRecord : Track :=
  {| id := JStr "t2"; title := "Sunshine - Remastered"; artist := "Ann";
     url := JStr "https://open.spotify.com/track/t2";
     preview_url := JNull; albumImageUrl := JStr "" |}.

(** A state of the server function holding a token that expires within the
    next minute: stored expiry 100000, while the clock reads 50000. *)
Definition expiringState : State :=
  {| accessToken := Some "BQDold"; tokenExpiresAt := 100000; cache := ∅;
     heap := []; console := []; requests := []; ticks := 50%nat |}.

(** The track requests [Prod] and [Proxy] send on [partialHost]. *)
Definition pendingOf (run : Completion (list Pending) * State)
  : list Pending :=
  match fst run with
  | Ok l => l
  | Throw _ => []
  end.


Definition proxyPending : list Pending :=
  pendingOf (Proxy.sent partialHost "happy" "US" 5 10 initialState).


(** Two playlists that hold the same track under two titles. *)
Definition renamedHost : Env :=
  hostOf goodToken (fun target =>
    if includes target "/search" then Resolve (searchResult ["p1"; "p2"])
    else if includes target "/playlists/p1/" then
      Resolve (page [rawTrack "t2" "Sunshine"])
    else if includes target "/playlists/p2/" then
      Resolve (page [rawTrack "t2" "Sunshine - Remastered"])
    else Reject notFound).

(** The search endpoint answers 200 with the body [null]. *)
Definition nullBodyHost : Env :=
  hostOf goodToken (fun _ => Resolve JNull).

(** The upstream track behind [rawTrack tid name]. *)
Definition upstreamTrack (tid name : string) : UpstreamTrack :=
  {| up_id := Some tid; up_name := name; up_artists := ["Ann"; "Bob"];
     up_spotify := "https://open.spotify.com/track/" ++ tid;
     up_preview_url := None; up_images := ["cover.jpg"] |}.

(** The pages of the playlists p1 and p3 of [partialHost], by request. *)
Definition partialPages (p : Pending) : list (option UpstreamTrack) :=
  match playlistId p with
  | JStr "p1" => [Some (upstreamTrack "t1" "Happy Birthday Song");
                  Some (upstreamTrack "t2" "Sunshine")]
  | _ => [Some (upstreamTrack "t2" "Sunshine");
          Some (upstreamTrack "t4" "Moonlight")]
  end.

(** The record expected for [rawTrack tid name]. *)
Definition exampleRecord (tid name : string) : Track :=
  {| id := JStr tid; title := name; artist := "Ann, Bob";
     url := JStr ("https://open.spotify.com/track/" ++ tid);
     preview_url := JNull; albumImageUrl := JStr "cover.jpg" |}.

(** * Further code of the repository *)

(** ** The moods offered by the input form ([MoodInput.js]) *)

(** The options of the drop-down of the mood form. *)
Definition moodOptions : list string := [
  "acoustic"; "afrobeat"; "alt-rock"; "alternative"; "ambient"; "anime";
  "black-metal"; "bluegrass"; "blues"; "bossanova"; "brazil"; "breakbeat";
  "british"; "cantopop"; "chicago-house"; "children"; "chill"; "classical";
  "club"; "comedy"; "country"; "dance"; "dancehall"; "death-metal";
  "deep-house"; "detroit-techno"; "disco"; "disney"; "drum-and-bass";
  "dub"; "dubstep"; "edm"; "electro"; "electronic"; "emo"; "folk"; "forro";
  "french"; "funk"; "garage"; "german"; "gospel"; "goth"; "grindcore";
  "groove"; "grunge"; "guitar"; "happy"; "hard-rock"; "hardcore";
  "hardstyle"; "heavy-metal"; "hip-hop"; "holidays"; "honky-tonk"; "house";
  "idm"; "indian"; "indie"; "indie-pop"; "industrial"; "iranian";
  "j-dance"; "j-idol"; "j-pop"; "j-rock"; "jazz"; "k-pop"; "kids"; "latin";
  "latino"; "malay"; "mandopop"; "metal"; "metal-misc"; "metalcore";
  "minimal-techno"; "movies"; "mpb"; "new-age"; "new-release"; "opera";
  "pagode"; "party"; "philippines-opm"; "piano"; "pop"; "pop-film";
  "post-dubstep"; "power-pop"; "progressive-house"; "psych-rock"; "punk";
  "punk-rock"; "r-n-b"; "rainy-day"; "reggae"; "reggaeton"; "road-trip";
  "rock"; "rock-n-roll"; "rockabilly"; "romance"; "sad"; "salsa"; "samba";
  "sertanejo"; "show-tunes"; "singer-songwriter"; "ska"; "sleep";
  "songwriter"; "soul"; "soundtracks"; "spanish"; "study"; "summer";
  "swedish"; "synth-pop"; "tango"; "techno"; "trance"; "trip-hop";
  "turkish"; "work-out"; "world-music"
].

(** ** Notions for the further properties *)


(** The same host with another scheduler. *)
Definition withLatency (lat : list Request -> Request -> nat) (env : Env)
  : Env :=
  {| toLowerCase := toLowerCase env;
     numberToString := numberToString env;
     typeErrorMessage := typeErrorMessage env;
     clock := clock env;
     tokenEndpoint := tokenEndpoint env;
     httpGet := httpGet env;
     latency := lat;
     basicAuth := basicAuth env |}.

(** Two states that differ at most in what the console shows. *)
Definition sameButConsole (s s' : State) : Prop :=
  accessToken s = accessToken s' /\ tokenExpiresAt s = tokenExpiresAt s' /\
  cache s = cache s' /\ heap s = heap s' /\ requests s = requests s' /\
  ticks s = ticks s'.

(** A record as the services build it: its id is truthy and its album
    image is a value to show, never [null] or [undefined]. *)
Definition presentable (t : Track) : Prop :=
  truthy (id t) = true /\ nullish (albumImageUrl t) = false.

(** Every array handed out so far holds records built from upstream
    items, and every cached reference points to one of them. *)
Definition builtFromItems (env : Env) (s : State) : Prop :=
  Forall (Forall (accepted env)) (heap s) /\
  forall key r, cache s !! key = Some r -> (r < length (heap s))%nat.

(** The search finds two playlists and none of them can be fetched. *)
Definition tracksDownHost : Env :=
  hostOf goodToken (fun target =>
    if includes target "/search" then Resolve (searchResult ["p1"; "p2"])
    else Reject notFound).

(** The pages of the playlists p1 and p2 of [exampleHost], by request. *)
Definition examplePages (p : Pending) : list (option UpstreamTrack) :=
  match playlistId p with
  | JStr "p1" => [Some (upstreamTrack "t1" "Happy Birthday Song");
                  Some (upstreamTrack "t2" "Sunshine")]
  | _ => [Some (upstreamTrack "t2" "Sunshine");
          Some (upstreamTrack "t3" "Dance Tonight")]
  end.

(** ** The later production service, in two steps *)

Module ProdV2Steps.
Section Service.

Variable env : Env.

(** The [try] block of [ProdV2.fetchSongsByMood] up to the end of
    [Promise.all], and what follows it. *)
Definition collected (mood market : string) (playlistLimit trackLimit : Z)
  : M (list Track) :=
  consoleWrite LLog "🎵 MusicAI: Fetching songs for mood:" ;;;
  ProdV2.authenticateSpotify env ;;;
  tok <- readAccessToken ;;
  let headers := Some ("Bearer " ++ tokenText tok) in
  searchData <-
    axiosGet env (Prod.searchRequest headers mood market playlistLimit) ;;
  playlists <- lift (playlistItems searchData) ;;
  consoleWrite LLog
    ("🎵 MusicAI: Found "
     ++ numberToString env (Z.of_nat (length playlists))
     ++ " playlists for mood: " ++ mood) ;;;
  fetchAllTracks env (Prod.tracksRequest env headers market trackLimit)
    (ProdV2.trackWarning env) playlists.

Definition stored (mood market : string) (tracks : list Track) : M nat :=
  let unique := uniqueTracks tracks in
  r <- alloc unique ;;
  consoleWrite LLog
    ("🎵 MusicAI: Found "
     ++ numberToString env (Z.of_nat (length unique))
     ++ " unique tracks for mood: " ++ mood) ;;;
  cacheSet (cacheKey mood market) r ;;;
  ret r.

End Service.
End ProdV2Steps.

(** The message of the generic error of [ProdV2.fetchFailure]. *)
Definition genericFailure : Exn :=
  Error "Failed to fetch music recommendations. Please try again later.".

(** An error that [ProdV2.fetchFailure] rethrows as it is. *)
Definition passesThrough (env : Env) (e : Exn) : bool :=
  includes (exnMessage env e) "configuration error"
  || includes (exnMessage env e) "authentication failed".

(** The error [ProdV2.authenticateSpotify] throws for a rejected token
    request: a configuration error with the server's message when the
    reply has status 500 and a truthy [message], an authentication error
    otherwise. *)
Definition authError (env : Env) (err : AxiosError) : Exn :=
  match ae_response err with
  | Some (status, data) =>
      if (status =? 500) && truthy (optProp data "message") then
        Error ("Spotify configuration error: "
               ++ toStr env (optProp data "message"))
      else
        Error "Spotify authentication failed. Please check if Spotify API credentials are configured correctly."
  | None =>
      Error "Spotify authentication failed. Please check if Spotify API credentials are configured correctly."
  end.

(** The token endpoint answers 500 with an explanation, as the function
    [spotify-auth] does when its credentials are not set. *)
Definition unconfiguredHost : Env :=
  hostOf
    (Reject {| ae_message := "Request failed with status code 500";
               ae_response :=
                 Some (500,
                       JObj [("error", JStr "Internal server error");
                             ("message",
                              JStr "Spotify credentials not configured.")]) |})
    (fun _ => Reject networkError).

(** ** The proxy function ([functions/spotify.js], [exports.handler]) *)

(** [s.replace(pat, "")] for a string pattern: the first occurrence of
    [pat] in [s] is removed, and [s] is returned as it is when there is
    none. *)
Fixpoint stripPrefix (pat s : string) : option string :=
  match pat, s with
  | EmptyString, _ => Some s
  | String c pat', String d s' =>
      if Ascii.eqb c d then stripPrefix pat' s' else None
  | String _ _, EmptyString => None
  end.

Fixpoint removeFirst (pat s : string) : string :=
  match stripPrefix pat s with
  | Some rest => rest
  | None =>
      match s with
      | EmptyString => EmptyString
      | String c s' => String c (removeFirst pat s')
      end
  end.

Module ServerProxy.

(** The event of an invocation, as far as the handler reads it. *)
Record Event : Type := mkEvent {
  path : string;
  httpMethod : string;
  queryStringParameters : list (string * JsVal)
}.

(** The body of a response: a text, or [JSON.stringify(v)], kept as the
    value [v] it is the text of. *)
Inductive Body : Type :=
| Text (s : string)
| Json (v : JsVal).

Record Response : Type := mkResponse {
  statusCode : Z;
  body : Body
}.

Section Service.

Variable env : Env.

(** The request that forwards the event to the Spotify API with the
    token [tok]. *)
Definition forwarded (event : Event) (tok : option string) : Request :=
  let apiPath := removeFirst "/.netlify/functions/spotify" (path event) in
  let spotifyApiUrl := "https://api.spotify.com/v1" ++ apiPath in
  Get spotifyApiUrl (Some ("Bearer " ++ tokenText tok))
    (queryStringParameters event).

(** The response of the [catch]: the status and the data of the upstream
    reply when the error carries one, 500 and [null] otherwise. *)
Definition failure (error : Exn) : Response :=
  match error with
  | AxiosErr {| ae_response := Some (status, data) |} =>
      {| statusCode := status;
         body := Json (JObj [("error",
                              JStr "Failed to fetch data from Spotify API.");
                             ("details", data)]) |}
  | _ =>
      {| statusCode := 500;
         body := Json (JObj [("error",
                              JStr "Failed to fetch data from Spotify API.");
                             ("details", JNull)]) |}
  end.

Definition handler (event : Event) : M Response :=
  if negb (String.eqb (httpMethod event) "GET") then
    ret {| statusCode := 405; body := Text "Method Not Allowed" |}
  else
    tryCatch
      (accessToken <- Server.getAccessToken env ;;
       data <- axiosGet env (forwarded event accessToken) ;;
       ret {| statusCode := 200; body := Json data |})
      (fun error =>
         consoleWrite LError "Spotify API proxy error:" ;;;
         ret (failure error)).

End Service.
End ServerProxy.

(** The request with which [getAccessToken] exchanges the credentials. *)
Definition tokenExchange (env : Env) : Request :=
  Post "https://accounts.spotify.com/api/token"
    (Some ("Basic " ++ basicAuth env)).

(** An invocation of the proxy function for a search. *)
Definition searchEvent : ServerProxy.Event :=
  {| ServerProxy.path := "/.netlify/functions/spotify/search";
     ServerProxy.httpMethod := "GET";
     ServerProxy.queryStringParameters :=
       [("q", JStr "happy"); ("type", JStr "playlist")] |}.

(** ** The authentication function ([functions/spotify-auth.js]) *)

Module SpotifyAuth.

(** What [fetch] gives back: a rejection, or a response with its status,
    its status text and the outcome of [response.json()]. *)
Inductive FetchResult : Type :=
| FetchRejected (e : Exn)
| FetchResponse (status : Z) (statusText : string) (json : Completion JsVal).

(** The environment variables the function reads ([undefined] is [None]),
    base64 encoding, and the token endpoint as [fetch] reaches it. *)
Record Setup : Type := mkSetup {
  REACT_APP_SPOTIFY_CLIENT_ID : option string;
  CLIENT_ID : option string;
  REACT_APP_SPOTIFY_CLIENT_SECRET : option string;
  CLIENT_SECRET : option string;
  base64 : string -> string;
  fetchPost : list Request -> Request -> FetchResult
}.

Record Response : Type := mkResponse {
  statusCode : Z;
  headers : list (string * string);
  body : ServerProxy.Body
}.

(** [a || b] on environment variables. *)
Definition envOr (a b : option string) : option string :=
  if tokenTruthy a then a else b.

Section Service.

Variable env : Env.
Variable setup : Setup.

Definition corsHeaders : list (string * string) :=
  [("Access-Control-Allow-Origin", "*");
   ("Access-Control-Allow-Headers", "Content-Type");
   ("Access-Control-Allow-Methods", "POST, OPTIONS");
   ("Content-Type", "application/json")].

(** [await fetch(url, { method: 'POST', headers, body })] *)
Definition fetch (req : Request) : M (Z * string * Completion JsVal) :=
  fun s =>
    let s' := withRequests (requests s ++ [req]) s in
    match fetchPost setup (requests s) req with
    | FetchResponse status statusText json =>
        (Ok (status, statusText, json), s')
    | FetchRejected e => (Throw e, s')
    end.

(** [response.ok] *)
Definition ok (status : Z) : bool := (200 <=? status) && (status <=? 299).

Definition handler (event : ServerProxy.Event) : M Response :=
  if String.eqb (ServerProxy.httpMethod event) "OPTIONS" then
    ret {| statusCode := 200; headers := corsHeaders;
           body := ServerProxy.Text "" |}
  else if negb (String.eqb (ServerProxy.httpMethod event) "POST") then
    ret {| statusCode := 405; headers := corsHeaders;
           body := ServerProxy.Json
                     (JObj [("error", JStr "Method not allowed")]) |}
  else
    tryCatch
      (let CLIENT_ID :=
         envOr (REACT_APP_SPOTIFY_CLIENT_ID setup) (CLIENT_ID setup) in
       let CLIENT_SECRET :=
         envOr (REACT_APP_SPOTIFY_CLIENT_SECRET setup) (CLIENT_SECRET setup) in
       if negb (tokenTruthy CLIENT_ID) || negb (tokenTruthy CLIENT_SECRET)
       then
         consoleWrite LError
           "Missing Spotify credentials. Required: REACT_APP_SPOTIFY_CLIENT_ID and REACT_APP_SPOTIFY_CLIENT_SECRET" ;;;
         throw (Error "Spotify credentials not configured. Please set REACT_APP_SPOTIFY_CLIENT_ID and REACT_APP_SPOTIFY_CLIENT_SECRET environment variables.")
       else
         let auth :=
           base64 setup
             (tokenText CLIENT_ID ++ ":" ++ tokenText CLIENT_SECRET) in
         response <-
           fetch (Post "https://accounts.spotify.com/api/token"
                    (Some ("Basic " ++ auth))) ;;
         let '(status, statusText, json) := response in
         if negb (ok status) then
           consoleWrite LError "Spotify API Error:" ;;;
           throw (Error ("Spotify authentication failed: "
                         ++ numberToString env status ++ " " ++ statusText))
         else
           data <- lift json ;;
           access_token <- lift (getProp data "access_token") ;;
           expires_in <- lift (getProp data "expires_in") ;;
           ret {| statusCode := 200; headers := corsHeaders;
                  body := ServerProxy.Json
                            (JObj [("access_token", access_token);
                                   ("expires_in", expires_in)]) |})
      (fun error =>
         consoleWrite LError "Spotify auth error:" ;;;
         ret {| statusCode := 500; headers := corsHeaders;
                body := ServerProxy.Json
                          (JObj [("error", JStr "Internal server error");
                                 ("message", JStr (exnMessage env error));
                                 ("details",
                                  JStr "Please check that REACT_APP_SPOTIFY_CLIENT_ID and REACT_APP_SPOTIFY_CLIENT_SECRET are configured correctly.")]) |}).

End Service.
End SpotifyAuth.

(** The credentials are both held by the function. *)
Definition configured (setup : SpotifyAuth.Setup) : bool :=
  tokenTruthy (SpotifyAuth.envOr (SpotifyAuth.REACT_APP_SPOTIFY_CLIENT_ID setup)
                 (SpotifyAuth.CLIENT_ID setup))
  && tokenTruthy (SpotifyAuth.envOr
                    (SpotifyAuth.REACT_APP_SPOTIFY_CLIENT_SECRET setup)
                    (SpotifyAuth.CLIENT_SECRET setup)).

(** A deployment without credentials, and one with them whose token
    endpoint grants a token. *)
Definition bareSetup : SpotifyAuth.Setup :=
  {| SpotifyAuth.REACT_APP_SPOTIFY_CLIENT_ID := None;
     SpotifyAuth.CLIENT_ID := None;
     SpotifyAuth.REACT_APP_SPOTIFY_CLIENT_SECRET := None;
     SpotifyAuth.CLIENT_SECRET := Some "secret";
     SpotifyAuth.base64 := fun _ => "Y2xpZW50OnNlY3JldA==";
     SpotifyAuth.fetchPost := fun _ _ =>
       SpotifyAuth.FetchRejected (Error "fetch failed") |}.


Definition postEvent : ServerProxy.Event :=
  {| ServerProxy.path := "/.netlify/functions/spotify-auth";
     ServerProxy.httpMethod := "POST";
     ServerProxy.queryStringParameters := [] |}.


(** The response of a run of the function, a placeholder if it threw. *)
Definition mkResponseOf (run : Completion SpotifyAuth.Response * State)
  : SpotifyAuth.Response :=
  match fst run with
  | Ok resp => resp
  | Throw _ =>
      {| SpotifyAuth.statusCode := 0; SpotifyAuth.headers := [];
         SpotifyAuth.body := ServerProxy.Text "" |}
  end.

(** * Properties *)

(** ** Key equality and the removal of duplicates *)

Lemma sameValueZero_eq a b : sameValueZero a b = true -> a = b.
Proof.
  destruct a, b; simpl; try discriminate; intros H; try reflexivity.
  - apply Bool.eqb_prop in H. congruence.
  - apply Z.eqb_eq in H. congruence.
  - apply String.eqb_eq in H. congruence.
Qed.

Lemma sameValueZero_sym a b : sameValueZero a b = sameValueZero b a.
Proof.
  destruct a, b; simpl; try reflexivity.
  - destruct b0, b; reflexivity.
  - apply Z.eqb_sym.
  - apply String.eqb_sym.
Qed.

Lemma mapSet_keyed t m : keyed m -> keyed (mapSet (id t) t m).
Proof.
  unfold keyed. induction m as [|[k v] m IH]; intros Hm; simpl.
  - repeat constructor.
  - inversion Hm as [|? ? Hk Hrest]; subst. simpl in Hk.
    destruct (sameValueZero k (id t)) eqn:E.
    + constructor; [|assumption]. simpl. now apply sameValueZero_eq.
    + constructor; [assumption|]. now apply IH.
Qed.

(** The keys after [set]: unchanged when the key is present, one more at
    the end when it is new. *)
Lemma mapSet_keys k v m :
  map fst (mapSet k v m) =
  if existsb (fun k' => sameValueZero k' k) (map fst m) then map fst m
  else (map fst m ++ [k])%list.
Proof.
  induction m as [|[k' v'] m IH]; simpl; [reflexivity|].
  destruct (sameValueZero k' k) eqn:E; simpl; [reflexivity|].
  rewrite IH. now destruct (existsb _ _).
Qed.

Lemma distinctKeys_alt m :
  distinctKeys m <->
  forall i j k1 k2, i <> j -> map fst m !! i = Some k1 ->
    map fst m !! j = Some k2 -> sameValueZero k1 k2 = false.
Proof.
  unfold distinctKeys. split; intros H i j.
  - intros k1 k2 Hij H1 H2. rewrite list_lookup_fmap in H1, H2.
    destruct (m !! i) as [e1|] eqn:E1; [|discriminate].
    destruct (m !! j) as [e2|] eqn:E2; [|discriminate].
    simpl in *. inversion H1; inversion H2; subst. eapply H; eauto.
  - intros e1 e2 Hij H1 H2. apply (H i j); [assumption| |];
      rewrite list_lookup_fmap; [rewrite H1|rewrite H2]; reflexivity.
Qed.

Lemma distinct_snoc (ks : list JsVal) k :
  (forall i j k1 k2, i <> j -> ks !! i = Some k1 -> ks !! j = Some k2 ->
     sameValueZero k1 k2 = false) ->
  existsb (fun k' => sameValueZero k' k) ks = false ->
  forall i j k1 k2, i <> j -> (ks ++ [k])%list !! i = Some k1 ->
    (ks ++ [k])%list !! j = Some k2 -> sameValueZero k1 k2 = false.
Proof.
  intros Hd Hnew i j k1 k2 Hij H1 H2.
  assert (Hall : forall k', k' ∈ ks -> sameValueZero k' k = false).
  { intros k' Hin. apply list_elem_of_In in Hin.
    destruct (sameValueZero k' k) eqn:E; [|reflexivity].
    assert (existsb (fun k' => sameValueZero k' k) ks = true)
      by (apply existsb_exists; eauto).
    congruence. }
  apply lookup_snoc_Some in H1, H2.
  destruct H1 as [[Hi H1]|[Hi ->]], H2 as [[Hj H2]|[Hj ->]].
  - eapply Hd; eauto.
  - apply Hall. eapply list_elem_of_lookup_2; eauto.
  - rewrite sameValueZero_sym. apply Hall.
    eapply list_elem_of_lookup_2; eauto.
  - lia.
Qed.

Lemma mapSet_distinctKeys k v m :
  distinctKeys m -> distinctKeys (mapSet k v m).
Proof.
  rewrite !distinctKeys_alt, mapSet_keys. intros Hd.
  destruct (existsb _ _) eqn:E; [assumption|]. now apply distinct_snoc.
Qed.

Lemma distinctKeys_tail e m : distinctKeys (e :: m) -> distinctKeys m.
Proof.
  intros H i j e1 e2 Hij H1 H2. apply (H (S i) (S j)); simpl; auto.
Qed.

(** An entry after [set]: it holds the new value, or it was there before
    under another key. *)
Lemma mapSet_elem k v m e :
  distinctKeys m -> e ∈ mapSet k v m ->
  snd e = v \/ (e ∈ m /\ sameValueZero (fst e) k = false).
Proof.
  induction m as [|[k' v'] m IH]; simpl; intros Hd Hin.
  - apply list_elem_of_singleton in Hin. subst. now left.
  - destruct (sameValueZero k' k) eqn:E.
    + apply elem_of_cons in Hin as [->|Hin]; [now left|].
      right. split; [now apply elem_of_cons; right|].
      destruct (sameValueZero (fst e) k) eqn:E'; [|reflexivity].
      apply sameValueZero_eq in E'.
      apply list_elem_of_lookup_1 in Hin as [j Hj].
      assert (H0 : sameValueZero k' (fst e) = false)
        by (apply (Hd 0%nat (S j) (k', v') e); simpl; auto).
      congruence.
    + apply elem_of_cons in Hin as [->|Hin].
      * right. split; [apply elem_of_cons; now left|assumption].
      * destruct (IH (distinctKeys_tail _ _ Hd) Hin) as [?|[? ?]];
          [now left|right]. split; [apply elem_of_cons; now right|easy].
Qed.

Lemma uniqueTracks_buildMap tracks :
  uniqueTracks tracks = map snd (buildMap tracks []).
Proof. reflexivity. Qed.

Lemma buildMap_invariant tracks : forall m seen,
  keyed m -> distinctKeys m ->
  (forall e, e ∈ m -> lastOfItsId (snd e) seen) ->
  keyed (buildMap tracks m) /\ distinctKeys (buildMap tracks m) /\
  (forall e, e ∈ buildMap tracks m ->
     lastOfItsId (snd e) (seen ++ tracks)%list).
Proof.
  induction tracks as [|t tracks IH]; intros m seen Hk Hd Hl.
  - simpl. rewrite app_nil_r. auto.
  - change (buildMap (t :: tracks) m)
      with (buildMap tracks (mapSet (id t) t m)).
    replace (seen ++ t :: tracks)%list with ((seen ++ [t]) ++ tracks)%list
      by (now rewrite <- app_assoc).
    apply IH.
    + now apply mapSet_keyed.
    + now apply mapSet_distinctKeys.
    + intros e He.
      destruct (mapSet_elem _ _ _ _ Hd He) as [->|[He' Hne]].
      * exists seen, []. split; [reflexivity|constructor].
      * destruct (Hl e He') as (before & after & -> & Hafter).
        exists before, (after ++ [t])%list. split.
        -- now rewrite <- app_assoc.
        -- apply Forall_app. split; [assumption|].
           constructor; [|constructor].
           unfold keyed in Hk. rewrite Forall_forall in Hk.
           rewrite <- (Hk e He'). assumption.
Qed.

Lemma uniqueTracks_invariant tracks :
  keyed (buildMap tracks []) /\ distinctKeys (buildMap tracks []) /\
  (forall e, e ∈ buildMap tracks [] -> lastOfItsId (snd e) tracks).
Proof.
  apply (buildMap_invariant tracks [] []).
  - constructor.
  - intros i j e1 e2 _ H. rewrite lookup_nil in H. discriminate.
  - intros e He. apply elem_of_nil in He. contradiction.
Qed.

Lemma uniqueTracks_distinct tracks : distinctIds (uniqueTracks tracks).
Proof.
  destruct (uniqueTracks_invariant tracks) as (Hk & Hd & _).
  rewrite uniqueTracks_buildMap. intros i j a b Hij Ha Hb.
  apply list_lookup_fmap_Some_1 in Ha as (e1 & -> & H1).
  apply list_lookup_fmap_Some_1 in Hb as (e2 & -> & H2).
  unfold keyed in Hk. rewrite Forall_forall in Hk.
  rewrite <- (Hk e1), <- (Hk e2)
    by (eapply list_elem_of_lookup_2; eauto).
  eapply Hd; eauto.
Qed.

Lemma uniqueTracks_last tracks t :
  t ∈ uniqueTracks tracks -> lastOfItsId t tracks.
Proof.
  destruct (uniqueTracks_invariant tracks) as (_ & _ & Hl).
  rewrite uniqueTracks_buildMap. intros Hin.
  apply list_elem_of_fmap in Hin as (e & -> & He). now apply Hl.
Qed.

Lemma uniqueTracks_subset tracks t :
  t ∈ uniqueTracks tracks -> t ∈ tracks.
Proof.
  intros Hin. apply uniqueTracks_last in Hin as (before & after & -> & _).
  apply elem_of_app. right. apply elem_of_cons. now left.
Qed.

#[local] Instance fresh_dec ks k : Decision (fresh ks k).
Proof. unfold fresh. apply _. Defined.

Lemma fresh_snoc ks k u :
  fresh (ks ++ [k]) u <-> fresh ks u /\ sameValueZero k u = false.
Proof.
  unfold fresh. rewrite existsb_app. simpl. rewrite orb_false_r.
  apply orb_false_iff.
Qed.

Lemma not_fresh_absorbs ks k u :
  ~ fresh ks k -> fresh ks u -> sameValueZero k u = false.
Proof.
  unfold fresh. intros Hk Hu.
  destruct (existsb (fun k' => sameValueZero k' k) ks) eqn:E; [|congruence].
  apply existsb_exists in E as (k' & Hin & Hk').
  apply sameValueZero_eq in Hk'. subst k'.
  destruct (sameValueZero k u) eqn:E'; [|reflexivity].
  assert (existsb (fun k' => sameValueZero k' u) ks = true)
    by (apply existsb_exists; eauto).
  congruence.
Qed.

(** The keys of the [Map], in insertion order, are the ids of the records
    that [keepFirst] keeps. *)
Lemma buildMap_keys tracks : forall m,
  map fst (buildMap tracks m) =
  (map fst m ++
   map id (filter (fun t => fresh (map fst m) (id t)) (keepFirst tracks)))%list.
Proof.
  induction tracks as [|t tracks IH]; intros m.
  - simpl. now rewrite app_nil_r.
  - change (buildMap (t :: tracks) m)
      with (buildMap tracks (mapSet (id t) t m)).
    rewrite IH, mapSet_keys. simpl keepFirst.
    destruct (existsb (fun k' => sameValueZero k' (id t)) (map fst m)) eqn:E.
    + rewrite filter_cons_False by (unfold fresh; congruence).
      rewrite list_filter_filter. f_equal. f_equal.
      apply list_filter_iff. intros u. split; [|tauto].
      intros Hu. split; [assumption|].
      apply (not_fresh_absorbs (map fst m)); [unfold fresh; congruence|easy].
    + rewrite filter_cons_True by exact E.
      rewrite list_filter_filter, <- app_assoc. simpl. f_equal. f_equal.
      f_equal. apply list_filter_iff. intros u. apply fresh_snoc.
Qed.

Lemma uniqueTracks_order tracks :
  map id (uniqueTracks tracks) = map id (keepFirst tracks).
Proof.
  destruct (uniqueTracks_invariant tracks) as (Hk & _ & _).
  rewrite uniqueTracks_buildMap.
  transitivity (map fst (buildMap tracks [])).
  - unfold keyed in Hk. induction Hk as [|e m He _ IH]; simpl; congruence.
  - rewrite buildMap_keys. simpl. f_equal.
    clear. induction (keepFirst tracks) as [|a l IH]; [reflexivity|].
    rewrite filter_cons_True by reflexivity. now f_equal.
Qed.

(** ** Computations that leave the cache and the arrays alone *)

#[local] Instance quiet_preorder : PreOrder quiet.
Proof.
  split.
  - intros s. split; reflexivity.
  - intros s1 s2 s3 [] []. split; try (etransitivity; eassumption); congruence.
Qed.

Lemma quiet_errorsLogged s s' :
  quiet s s' -> (errorsLogged s <= errorsLogged s')%nat.
Proof.
  intros [_ _ [extra Hextra] _ _]. unfold errorsLogged.
  rewrite Hextra, List.filter_app, length_app. lia.
Qed.

Lemma Quiet_ret {A} (a : A) : Quiet (ret a).
Proof. intros s c s' [= <- <-]. reflexivity. Qed.

Lemma Quiet_throw {A} e : Quiet (@throw A e).
Proof. intros s c s' [= <- <-]. reflexivity. Qed.

Lemma Quiet_lift {A} (c : Completion A) : Quiet (lift c).
Proof. intros s c' s' [= <- <-]. reflexivity. Qed.

Lemma Quiet_bind {A B} (m : M A) (k : A -> M B) :
  Quiet m -> (forall a, Quiet (k a)) -> Quiet (bind m k).
Proof.
  intros Hm Hk s c s' H. unfold bind in H.
  destruct (m s) as [[a|e] s1] eqn:E.
  - etransitivity; [eapply Hm|eapply Hk]; eassumption.
  - inversion H; subst. eapply Hm; eassumption.
Qed.

Lemma Quiet_tryCatch {A} (m : M A) handler :
  Quiet m -> (forall e, Quiet (handler e)) -> Quiet (tryCatch m handler).
Proof.
  intros Hm Hh s c s' H. unfold tryCatch in H.
  destruct (m s) as [[a|e] s1] eqn:E.
  - inversion H; subst. eapply Hm; eassumption.
  - etransitivity; [eapply Hm|eapply Hh]; eassumption.
Qed.

Lemma Quiet_readAccessToken : Quiet readAccessToken.
Proof. intros s c s' [= <- <-]. reflexivity. Qed.

Lemma Quiet_readTokenExpiresAt : Quiet readTokenExpiresAt.
Proof. intros s c s' [= <- <-]. reflexivity. Qed.

Lemma Quiet_writeAccessToken v : Quiet (writeAccessToken v).
Proof. intros s c s' [= <- <-]. split; reflexivity. Qed.

Lemma Quiet_writeTokenExpiresAt v : Quiet (writeTokenExpiresAt v).
Proof. intros s c s' [= <- <-]. split; reflexivity. Qed.

Lemma Quiet_cacheGet key : Quiet (cacheGet key).
Proof. intros s c s' [= <- <-]. reflexivity. Qed.

Lemma Quiet_consoleWrite lvl msg : Quiet (consoleWrite lvl msg).
Proof.
  intros s c s' [= <- <-]. split; try reflexivity.
  simpl. now apply prefix_app_r.
Qed.

Lemma Quiet_dateNow env : Quiet (dateNow env).
Proof. intros s c s' [= <- <-]. split; try reflexivity. simpl. lia. Qed.

Lemma Quiet_axiosPost env req : Quiet (axiosPost env req).
Proof.
  intros s c s' H. unfold axiosPost in H.
  destruct (tokenEndpoint env _ _); inversion H; subst;
    (split; try reflexivity; simpl; now apply prefix_app_r).
Qed.

Lemma Quiet_axiosGet env req : Quiet (axiosGet env req).
Proof.
  intros s c s' H. unfold axiosGet in H.
  destruct (httpGet env _ _); inversion H; subst;
    (split; try reflexivity; simpl; now apply prefix_app_r).
Qed.

Lemma Quiet_sendGet env pid req : Quiet (sendGet env pid req).
Proof.
  intros s c s' [= <- <-]. split; try reflexivity.
  simpl. now apply prefix_app_r.
Qed.

Create HintDb quiet.
#[local] Hint Resolve Quiet_ret Quiet_throw Quiet_lift Quiet_readAccessToken
  Quiet_readTokenExpiresAt Quiet_writeAccessToken Quiet_writeTokenExpiresAt
  Quiet_cacheGet Quiet_consoleWrite Quiet_dateNow Quiet_axiosPost
  Quiet_axiosGet Quiet_sendGet : quiet.

(** Goes through binds, handlers and case distinctions of a computation. *)
Ltac quiet_steps :=
  repeat first
    [ progress auto with quiet
    | apply Quiet_bind; [|intros ?]
    | apply Quiet_tryCatch; [|intros ?]
    | match goal with
      | |- Quiet (if ?b then _ else _) => destruct b
      | |- Quiet (match ?x with _ => _ end) => destruct x
      | |- Quiet (let (_, _) := ?x in _) => destruct x
      end ].

Lemma Quiet_tokenStillValid env : Quiet (Prod.tokenStillValid env).
Proof. unfold Prod.tokenStillValid. quiet_steps. Qed.

Lemma Quiet_Prod_authenticateSpotify env :
  Quiet (Prod.authenticateSpotify env).
Proof.
  unfold Prod.authenticateSpotify.
  pose proof (Quiet_tokenStillValid env). quiet_steps.
Qed.

Lemma Quiet_ProdV2_authenticateSpotify env :
  Quiet (ProdV2.authenticateSpotify env).
Proof.
  unfold ProdV2.authenticateSpotify, ProdV2.authFailure.
  pose proof (Quiet_tokenStillValid env). quiet_steps.
Qed.

Lemma Quiet_getAccessToken env : Quiet (Server.getAccessToken env).
Proof. unfold Server.getAccessToken. quiet_steps. Qed.

Lemma Quiet_sendAll env request playlists :
  Quiet (sendAll env request playlists).
Proof.
  induction playlists as [|pl rest IH]; simpl; quiet_steps.
Qed.

Lemma Quiet_onSettled env warning p tracks :
  Quiet (onSettled env warning p tracks).
Proof. unfold onSettled. quiet_steps. Qed.

Lemma Quiet_settleAll env warning settled : forall tracks,
  Quiet (settleAll env warning settled tracks).
Proof.
  induction settled as [|p rest IH]; intros tracks; simpl.
  - quiet_steps.
  - apply Quiet_bind; [apply Quiet_onSettled|auto].
Qed.

Lemma Quiet_fetchAllTracks env request warning playlists :
  Quiet (fetchAllTracks env request warning playlists).
Proof.
  unfold fetchAllTracks. apply Quiet_bind; [apply Quiet_sendAll|].
  intros. apply Quiet_settleAll.
Qed.

Lemma Quiet_warnAll env settled : Quiet (Proxy.warnAll env settled).
Proof.
  induction settled as [|p rest IH]; simpl; [quiet_steps|].
  apply Quiet_bind; [|auto]. unfold Proxy.warnIfFailed. quiet_steps.
Qed.

Lemma Quiet_Proxy_fetchAllTracks env market trackLimit playlists :
  Quiet (Proxy.fetchAllTracks env market trackLimit playlists).
Proof.
  unfold Proxy.fetchAllTracks.
  apply Quiet_bind; [apply Quiet_sendAll|intros].
  apply Quiet_bind; [apply Quiet_warnAll|intros]. quiet_steps.
Qed.

(** ** Computations that report no error when they return *)

Lemma hushed_ret {A} (a : A) : hushed (ret a).
Proof. intros s a' s' [= _ <-]. reflexivity. Qed.

Lemma hushed_lift {A} (c : Completion A) : hushed (lift c).
Proof. intros s a s' [= _ <-]. reflexivity. Qed.

Lemma hushed_throw {A} e : hushed (@throw A e).
Proof. intros s a s' [=]. Qed.

Lemma hushed_bind {A B} (m : M A) (k : A -> M B) :
  hushed m -> (forall a, hushed (k a)) -> hushed (bind m k).
Proof.
  intros Hm Hk s b s' H. unfold bind in H.
  destruct (m s) as [[a|e] s1] eqn:E; [|discriminate].
  rewrite (Hk _ _ _ _ H). eapply Hm; eassumption.
Qed.

(** A [try] whose [catch] always throws returns only when its body does. *)
Lemma hushed_tryCatch {A} (m : M A) handler :
  hushed m -> (forall e s, exists e' s', handler e s = (Throw e', s')) ->
  hushed (tryCatch m handler).
Proof.
  intros Hm Hh s a s' H. unfold tryCatch in H.
  destruct (m s) as [[a0|e] s1] eqn:E.
  - inversion H; subst. eapply Hm; eassumption.
  - destruct (Hh e s1) as (e' & s2 & E2). congruence.
Qed.

Lemma hushed_readAccessToken : hushed readAccessToken.
Proof. intros s a s' [= _ <-]. reflexivity. Qed.

Lemma hushed_readTokenExpiresAt : hushed readTokenExpiresAt.
Proof. intros s a s' [= _ <-]. reflexivity. Qed.

Lemma hushed_writeAccessToken v : hushed (writeAccessToken v).
Proof. intros s a s' [= _ <-]. reflexivity. Qed.

Lemma hushed_writeTokenExpiresAt v : hushed (writeTokenExpiresAt v).
Proof. intros s a s' [= _ <-]. reflexivity. Qed.

Lemma hushed_cacheGet key : hushed (cacheGet key).
Proof. intros s a s' [= _ <-]. reflexivity. Qed.

Lemma hushed_cacheSet key r : hushed (cacheSet key r).
Proof. intros s a s' [= _ <-]. reflexivity. Qed.

Lemma hushed_alloc l : hushed (alloc l).
Proof. intros s a s' [= _ <-]. reflexivity. Qed.

Lemma hushed_warn msg : hushed (consoleWrite LWarn msg).
Proof.
  intros s a s' [= _ <-]. unfold errorsLogged. simpl.
  rewrite List.filter_app, length_app. simpl. lia.
Qed.

Lemma hushed_dateNow env : hushed (dateNow env).
Proof. intros s a s' [= _ <-]. reflexivity. Qed.

Lemma hushed_axiosPost env req : hushed (axiosPost env req).
Proof.
  intros s a s' H. unfold axiosPost in H.
  destruct (tokenEndpoint env _ _); inversion H; subst. reflexivity.
Qed.

Lemma hushed_axiosGet env req : hushed (axiosGet env req).
Proof.
  intros s a s' H. unfold axiosGet in H.
  destruct (httpGet env _ _); inversion H; subst. reflexivity.
Qed.

Lemma hushed_sendGet env pid req : hushed (sendGet env pid req).
Proof. intros s a s' [= _ <-]. reflexivity. Qed.

Create HintDb hushed.
#[local] Hint Resolve hushed_ret hushed_lift hushed_throw
  hushed_readAccessToken hushed_readTokenExpiresAt hushed_writeAccessToken
  hushed_writeTokenExpiresAt hushed_cacheGet hushed_cacheSet hushed_alloc
  hushed_warn hushed_dateNow hushed_axiosPost hushed_axiosGet
  hushed_sendGet : hushed.

Ltac hushed_steps :=
  repeat first
    [ progress auto with hushed
    | apply hushed_bind; [|intros ?]
    | match goal with
      | |- hushed (if ?b then _ else _) => destruct b
      | |- hushed (match ?x with _ => _ end) => destruct x
      | |- hushed (let (_, _) := ?x in _) => destruct x
      end ].

Lemma hushed_tokenStillValid env : hushed (Prod.tokenStillValid env).
Proof. unfold Prod.tokenStillValid. hushed_steps. Qed.

Lemma hushed_Prod_authenticateSpotify env :
  hushed (Prod.authenticateSpotify env).
Proof.
  unfold Prod.authenticateSpotify.
  apply hushed_bind; [apply hushed_tokenStillValid|intros valid].
  destruct valid; [auto with hushed|].
  apply hushed_tryCatch; [hushed_steps|].
  intros e s. unfold bind, consoleWrite, throw. eauto.
Qed.

Lemma hushed_sendAll env request playlists :
  hushed (sendAll env request playlists).
Proof.
  induction playlists as [|pl rest IH]; simpl; hushed_steps.
Qed.

Lemma hushed_onSettled env warning p tracks :
  hushed (onSettled env warning p tracks).
Proof. unfold onSettled. hushed_steps. Qed.

Lemma hushed_settleAll env warning settled : forall tracks,
  hushed (settleAll env warning settled tracks).
Proof.
  induction settled as [|p rest IH]; intros tracks; simpl.
  - hushed_steps.
  - apply hushed_bind; [apply hushed_onSettled|auto].
Qed.

Lemma hushed_fetchAllTracks env request warning playlists :
  hushed (fetchAllTracks env request warning playlists).
Proof.
  unfold fetchAllTracks. apply hushed_bind; [apply hushed_sendAll|].
  intros. apply hushed_settleAll.
Qed.

Lemma hushed_warnAll env settled : hushed (Proxy.warnAll env settled).
Proof.
  induction settled as [|p rest IH]; simpl; [hushed_steps|].
  apply hushed_bind; [|auto]. unfold Proxy.warnIfFailed. hushed_steps.
Qed.

Lemma hushed_Proxy_fetchAllTracks env market trackLimit playlists :
  hushed (Proxy.fetchAllTracks env market trackLimit playlists).
Proof.
  unfold Proxy.fetchAllTracks.
  apply hushed_bind; [apply hushed_sendAll|intros].
  apply hushed_bind; [apply hushed_warnAll|intros]. hushed_steps.
Qed.

(** ** Tracks that pass the filter *)

Ltac split_matches H :=
  repeat match type of H with
         | context [match ?x with _ => _ end] => destruct x eqn:?
         end; try discriminate.

Lemma trackOfItem_not_blocked env item t :
  trackOfItem env item = Ok (Some t) ->
  isBlocked (toLowerCase env (title t)) = false.
Proof.
  unfold trackOfItem, bindC. intros H. split_matches H.
  inversion H; subst; simpl; assumption.
Qed.

Lemma isBlocked_false name :
  isBlocked name = false ->
  forall kw, In kw BLOCKED_KEYWORDS -> includes name kw = false.
Proof.
  unfold isBlocked. intros H kw Hin.
  destruct (includes name kw) eqn:E; [|reflexivity].
  assert (existsb (fun kw => includes name kw) BLOCKED_KEYWORDS = true)
    by (apply existsb_exists; eauto).
  congruence.
Qed.

Lemma accepted_unblocked env t : accepted env t -> unblocked env t.
Proof.
  intros [item H] kw Hin.
  eapply isBlocked_false; [eapply trackOfItem_not_blocked|]; eassumption.
Qed.

(** A blocked name never gets through, whatever the rest of the item. *)
Lemma trackOfItem_blocked env item t tname :
  getProp item "track" = Ok t ->
  getProp t "name" = Ok (JStr tname) ->
  isBlocked (toLowerCase env tname) = true ->
  trackOfItem env item = Ok None.
Proof.
  intros Ht Hn Hb. unfold trackOfItem, bindC. rewrite Ht.
  destruct (negb (truthy (optProp t "id"))); [reflexivity|].
  now rewrite Hn, Hb.
Qed.

Lemma forEachPush_app env items : forall tracks,
  forEachPush env items tracks =
  ((tracks ++ fst (forEachPush env items []))%list,
   snd (forEachPush env items [])).
Proof.
  induction items as [|item rest IH]; intros tracks; simpl.
  - now rewrite app_nil_r.
  - destruct (trackOfItem env item) as [[t|]|e]; simpl.
    + rewrite IH, (IH [t]). simpl. now rewrite <- app_assoc.
    + apply IH.
    + now rewrite app_nil_r.
Qed.

Lemma forEachPush_accepted env items :
  Forall (accepted env) (fst (forEachPush env items [])).
Proof.
  induction items as [|item rest IH]; simpl; [constructor|].
  destruct (trackOfItem env item) as [[t|]|e] eqn:E; simpl.
  - rewrite forEachPush_app. simpl. constructor; [now exists item|assumption].
  - assumption.
  - constructor.
Qed.

Lemma pushTracks_app env trackData tracks :
  pushTracks env trackData tracks =
  ((tracks ++ fst (pushTracks env trackData []))%list,
   snd (pushTracks env trackData [])).
Proof.
  unfold pushTracks.
  destruct (getProp trackData "items") as [items|e]; simpl;
    [|now rewrite app_nil_r].
  destruct (jsOr items (JArr [])); simpl; try now rewrite app_nil_r.
  apply forEachPush_app.
Qed.

Lemma pushed_accepted env p : Forall (accepted env) (pushed env p).
Proof.
  unfold pushed, pushTracks. destruct (reply p); [|constructor].
  destruct (getProp data "items") as [items|e]; simpl; [|constructor].
  destruct (jsOr items (JArr [])); simpl; try constructor.
  apply forEachPush_accepted.
Qed.

(** ** The fan-out never throws *)

Lemma onSettled_result env warning p tracks s :
  exists s', onSettled env warning p tracks s
             = (Ok (tracks ++ pushed env p)%list, s') /\ quiet s s'.
Proof.
  destruct (onSettled env warning p tracks s) as [c s'] eqn:E.
  exists s'. split; [|eapply Quiet_onSettled; eassumption].
  revert E. unfold onSettled, pushed.
  destruct (reply p) as [trackData|err].
  - rewrite pushTracks_app.
    destruct (snd (pushTracks env trackData [])); intros [= <- <-];
      reflexivity.
  - intros [= <- <-]. now rewrite app_nil_r.
Qed.

Lemma settleAll_result env warning settled : forall tracks s,
  exists s', settleAll env warning settled tracks s
             = (Ok (tracks ++ concat (map (pushed env) settled))%list, s')
             /\ quiet s s'.
Proof.
  induction settled as [|p rest IH]; intros tracks s; simpl.
  - exists s. rewrite app_nil_r. split; reflexivity.
  - destruct (onSettled_result env warning p tracks s) as (s1 & E1 & Q1).
    destruct (IH (tracks ++ pushed env p)%list s1) as (s2 & E2 & Q2).
    exists s2. split; [|etransitivity; eassumption].
    unfold bind. rewrite E1, E2. now rewrite <- app_assoc.
Qed.

Lemma sendAll_result env request playlists : forall s,
  exists pending s', sendAll env request playlists s = (Ok pending, s')
                     /\ quiet s s'.
Proof.
  induction playlists as [|pl rest IH]; intros s; simpl.
  - exists [], s. split; reflexivity.
  - destruct (negb (truthy (optProp pl "id"))); [apply IH|].
    unfold bind, sendGet.
    match goal with |- context [sendAll _ _ _ ?s1] =>
      destruct (IH s1) as (ps & s2 & E & Q) end.
    eexists _, s2. rewrite E. split; [reflexivity|].
    etransitivity; [|exact Q]. split; try reflexivity.
    simpl. now apply prefix_app_r.
Qed.

Lemma fetchAllTracks_result env request warning playlists s pending s1 :
  sendAll env request playlists s = (Ok pending, s1) ->
  exists s2,
    fetchAllTracks env request warning playlists s
    = (Ok (concat (map (pushed env) (settleOrder pending))), s2)
    /\ quiet s1 s2.
Proof.
  intros E. unfold fetchAllTracks, bind. rewrite E.
  destruct (settleAll_result env warning (settleOrder pending) [] s1)
    as (s2 & E2 & Q2).
  exists s2. now rewrite E2.
Qed.

(** ** What a call does on a cache miss *)

Lemma errorsLogged_error s msg :
  errorsLogged (withConsole (console s ++ [(LError, msg)]) s)
  = S (errorsLogged s).
Proof.
  unfold errorsLogged. simpl. rewrite List.filter_app, length_app. simpl. lia.
Qed.

(** The [catch] of a service that answers an error with a new empty list. *)
Lemma fallback_outcome env key s s2 msg :
  quiet s s2 ->
  missOutcome env key s (Ok (length (heap s2)))
    (withHeap (heap s2 ++ [[]]) (withConsole (console s2 ++ [(LError, msg)]) s2)).
Proof.
  intros Q. rewrite (quiet_heap _ _ Q). apply miss_fallback; simpl.
  - reflexivity.
  - apply Q.
  - change (errorsLogged s < errorsLogged
      (withConsole (console s2 ++ [(LError, msg)]) s2))%nat.
    rewrite errorsLogged_error. apply quiet_errorsLogged in Q. lia.
  - apply Q.
Qed.

Lemma Prod_hit env mood market playlistLimit trackLimit s r :
  cache s !! cacheKey mood market = Some r ->
  Prod.fetchSongsByMood env mood market playlistLimit trackLimit s = (Ok r, s).
Proof.
  intros H. unfold Prod.fetchSongsByMood, bind, cacheGet. now rewrite H.
Qed.

Lemma Prod_auth_throws env s e sa :
  Prod.authenticateSpotify env s = (Throw e, sa) ->
  (errorsLogged s < errorsLogged sa)%nat.
Proof.
  unfold Prod.authenticateSpotify, bind, tryCatch.
  destruct (Prod.tokenStillValid env s) as [[valid|e0] s0] eqn:Ev.
  - apply Quiet_tokenStillValid, quiet_errorsLogged in Ev.
    destruct valid; [discriminate|].
    destruct (axiosPost env _ s0) as [[data|e1] s1] eqn:Ep; [discriminate|].
    apply Quiet_axiosPost, quiet_errorsLogged in Ep.
    unfold consoleWrite, throw. intros [= <- <-].
    rewrite errorsLogged_error. lia.
  - revert Ev. unfold Prod.tokenStillValid, bind, readAccessToken.
    destruct (tokenTruthy (accessToken s)); discriminate.
Qed.

Lemma Prod_miss env mood market playlistLimit trackLimit s c s1 :
  cache s !! cacheKey mood market = None ->
  Prod.fetchSongsByMood env mood market playlistLimit trackLimit s = (c, s1) ->
  missOutcome env (cacheKey mood market) s c s1.
Proof.
  intros Hmiss. unfold Prod.fetchSongsByMood.
  unfold bind at 1. unfold cacheGet. rewrite Hmiss.
  unfold bind at 1.
  destruct (Prod.authenticateSpotify env s) as [[tok|e] sa] eqn:Ea.
  2:{ intros [= <- <-]. constructor.
      - eapply Quiet_Prod_authenticateSpotify; eassumption.
      - eapply Prod_auth_throws; eassumption. }
  pose proof (hushed_Prod_authenticateSpotify _ _ _ _ Ea) as Ha.
  apply Quiet_Prod_authenticateSpotify in Ea.
  unfold bind at 1. unfold readAccessToken, tryCatch.
  unfold bind at 1.
  destruct (axiosGet env _ sa) as [[searchData|e] s2] eqn:Es;
    [pose proof (hushed_axiosGet _ _ _ _ _ Es) as Hs|];
    apply Quiet_axiosGet in Es;
    assert (Q2 : quiet s s2) by (etransitivity; eassumption).
  2:{ unfold bind, consoleWrite, alloc. intros [= <- <-].
      now apply fallback_outcome. }
  unfold bind at 1. unfold lift.
  destruct (playlistItems searchData) as [playlists|e].
  2:{ unfold bind, consoleWrite, alloc. intros [= <- <-].
      now apply fallback_outcome. }
  unfold bind at 1.
  match goal with |- context [fetchAllTracks env ?rq ?w playlists s2] =>
    destruct (sendAll_result env rq playlists s2) as (pending & s3 & E3 & Q3);
    destruct (fetchAllTracks_result env rq w playlists s2 pending s3 E3)
      as (s4 & E4 & Q4); rewrite E4;
    pose proof (hushed_fetchAllTracks _ _ _ _ _ _ _ E4) as H4 end.
  assert (Q : quiet s s4) by (do 2 (etransitivity; [|eassumption]); easy).
  unfold bind, alloc, cacheSet, ret. intros [= <- <-]. simpl.
  rewrite (quiet_heap _ _ Q).
  eapply miss_done; simpl.
  - apply Forall_concat, Forall_forall. intros l Hl.
    apply list_elem_of_In, in_map_iff in Hl as (p & <- & _).
    apply pushed_accepted.
  - reflexivity.
  - now rewrite (quiet_cache _ _ Q).
  - change (errorsLogged s4 = errorsLogged s). congruence.
Qed.

Lemma mapC_trackOfItem_accepted env items mapped :
  mapC (trackOfItem env) items = Ok mapped ->
  Forall (accepted env) (omap (fun o => o) mapped).
Proof.
  revert mapped. induction items as [|item rest IH]; simpl; intros mapped.
  - intros [= <-]. constructor.
  - unfold bindC.
    destruct (trackOfItem env item) as [o|e] eqn:E; [|discriminate].
    destruct (mapC (trackOfItem env) rest) as [os|e]; [|discriminate].
    intros [= <-]. specialize (IH os eq_refl).
    destruct o as [t|]; simpl; [|assumption].
    constructor; [now exists item|assumption].
Qed.

Lemma contribution_accepted env p :
  Forall (accepted env) (Proxy.contribution env p).
Proof.
  unfold Proxy.contribution, Proxy.tracksOf, Proxy.pageTracks, bindC.
  destruct (reply p) as [trackData|err]; [|constructor].
  destruct (getProp trackData "items") as [items|e]; [|constructor].
  destruct (jsOr items (JArr [])); try constructor.
  destruct (mapC (trackOfItem env) items0) as [mapped|e] eqn:E;
    [|constructor].
  eapply mapC_trackOfItem_accepted; eassumption.
Qed.

Lemma warnAll_result env settled : forall s,
  exists s', Proxy.warnAll env settled s = (Ok tt, s') /\ quiet s s'.
Proof.
  induction settled as [|p rest IH]; intros s; simpl.
  - exists s. split; reflexivity.
  - unfold bind, Proxy.warnIfFailed.
    destruct (Proxy.tracksOf env p); simpl.
    + apply IH.
    + match goal with |- context [Proxy.warnAll _ _ ?s1] =>
        destruct (IH s1) as (s2 & E & Q) end.
      exists s2. split; [assumption|].
      etransitivity; [|exact Q]. split; try reflexivity.
      simpl. now apply prefix_app_r.
Qed.

Lemma Proxy_fetchAllTracks_result env market trackLimit playlists s pending s1 :
  sendAll env (Proxy.tracksRequest env market trackLimit) playlists s
  = (Ok pending, s1) ->
  exists s2,
    Proxy.fetchAllTracks env market trackLimit playlists s
    = (Ok (concat (map (Proxy.contribution env) pending)), s2)
    /\ quiet s1 s2.
Proof.
  intros E. unfold Proxy.fetchAllTracks, bind. rewrite E.
  destruct (warnAll_result env (settleOrder pending) s1) as (s2 & E2 & Q2).
  exists s2. now rewrite E2.
Qed.

Lemma Proxy_hit env mood market playlistLimit trackLimit s r :
  cache s !! cacheKey mood market = Some r ->
  Proxy.fetchSongsByMood env mood market playlistLimit trackLimit s
  = (Ok r, s).
Proof.
  intros H. unfold Proxy.fetchSongsByMood, bind, cacheGet. now rewrite H.
Qed.

Lemma Proxy_miss env mood market playlistLimit trackLimit s c s1 :
  cache s !! cacheKey mood market = None ->
  Proxy.fetchSongsByMood env mood market playlistLimit trackLimit s = (c, s1) ->
  missOutcome env (cacheKey mood market) s c s1.
Proof.
  intros Hmiss. unfold Proxy.fetchSongsByMood.
  unfold bind at 1. unfold cacheGet. rewrite Hmiss.
  unfold tryCatch. unfold bind at 1.
  destruct (axiosGet env _ s) as [[searchData|e] s2] eqn:Es;
    [pose proof (hushed_axiosGet _ _ _ _ _ Es) as Hs|];
    apply Quiet_axiosGet in Es.
  2:{ unfold bind, consoleWrite, alloc. intros [= <- <-].
      now apply fallback_outcome. }
  unfold bind at 1. unfold lift.
  destruct (Proxy.playlistItems searchData) as [playlists|e].
  2:{ unfold bind, consoleWrite, alloc. intros [= <- <-].
      now apply fallback_outcome. }
  unfold bind at 1.
  destruct (sendAll_result env (Proxy.tracksRequest env market trackLimit)
              playlists s2) as (pending & s3 & E3 & Q3).
  destruct (Proxy_fetchAllTracks_result env market trackLimit playlists s2
              pending s3 E3) as (s4 & E4 & Q4).
  rewrite E4.
  pose proof (hushed_Proxy_fetchAllTracks _ _ _ _ _ _ _ E4) as H4.
  assert (Q : quiet s s4) by (do 2 (etransitivity; [|eassumption]); easy).
  unfold bind, alloc, cacheSet, ret. intros [= <- <-]. simpl.
  rewrite (quiet_heap _ _ Q).
  eapply miss_done; simpl.
  - apply Forall_concat, Forall_forall. intros l Hl.
    apply list_elem_of_In, in_map_iff in Hl as (p & <- & _).
    apply contribution_accepted.
  - reflexivity.
  - now rewrite (quiet_cache _ _ Q).
  - change (errorsLogged s4 = errorsLogged s). congruence.
Qed.

(** ** Services that memoise *)

Lemma Prod_memoising env : memoising env (Prod.fetchSongsByMood env).
Proof.
  intros mood market pl tl s.
  destruct (cache s !! cacheKey mood market) eqn:E.
  - now apply Prod_hit.
  - intros c s1. now apply Prod_miss.
Qed.

Lemma Proxy_memoising env : memoising env (Proxy.fetchSongsByMood env).
Proof.
  intros mood market pl tl s.
  destruct (cache s !! cacheKey mood market) eqn:E.
  - now apply Proxy_hit.
  - intros c s1. now apply Proxy_miss.
Qed.

Lemma lenient_memoising env fetch : lenient env fetch -> memoising env fetch.
Proof.
  intros [-> | ->]; [apply Prod_memoising|apply Proxy_memoising].
Qed.

Lemma distinctIds_nil : distinctIds [].
Proof. intros i j a b _ H. rewrite lookup_nil in H. discriminate. Qed.

Lemma wellFormed_initial env : wellFormed env initialState.
Proof.
  split; [constructor|]. intros key r H. simpl in H.
  rewrite lookup_empty in H. discriminate.
Qed.

Lemma wellFormed_call env fetch mood market playlistLimit trackLimit s c s1 :
  memoising env fetch ->
  wellFormed env s ->
  fetch mood market playlistLimit trackLimit s = (c, s1) ->
  wellFormed env s1.
Proof.
  intros Hf [Hheap Hcache] Hcall.
  specialize (Hf mood market playlistLimit trackLimit s).
  destruct (cache s !! cacheKey mood market) as [r|] eqn:E.
  - rewrite Hf in Hcall. inversion Hcall; subst. now split.
  - destruct (Hf c s1 Hcall)
      as [tracks s1 Hacc Hh Hc _ | s1 Hh Hc _ _ | e s1 Q _].
    + split.
      * rewrite Hh. apply Forall_app. split; [assumption|].
        constructor; [|constructor]. split; [apply uniqueTracks_distinct|].
        apply Forall_forall. intros t Ht. apply accepted_unblocked.
        apply uniqueTracks_subset in Ht.
        rewrite Forall_forall in Hacc. auto.
      * intros key r. rewrite Hc, Hh, length_app. simpl.
        destruct (decide (cacheKey mood market = key)) as [->|Hne].
        -- rewrite lookup_insert_eq. intros [= <-]. lia.
        -- rewrite lookup_insert_ne by assumption.
           intros H. apply Hcache in H. lia.
    + split.
      * rewrite Hh. apply Forall_app. split; [assumption|].
        constructor; [|constructor]. split; [apply distinctIds_nil|constructor].
      * intros key r. rewrite Hc, Hh, length_app. simpl.
        intros H. apply Hcache in H. lia.
    + destruct Q as [Qc Qh _ _ _]. split.
      * now rewrite Qh.
      * intros key r. rewrite Qc, Qh. apply Hcache.
Qed.

Lemma reachable_wellFormed env fetch s :
  memoising env fetch -> reachable fetch s -> wellFormed env s.
Proof.
  intros Hf Hr. induction Hr.
  - apply wellFormed_initial.
  - eapply wellFormed_call; eassumption.
Qed.

Lemma wellFormed_cached env s key r :
  wellFormed env s -> cache s !! key = Some r ->
  exists l, heap s !! r = Some l /\ distinctIds l /\ Forall (unblocked env) l.
Proof.
  intros [Hheap Hcache] H. apply Hcache in H.
  destruct (lookup_lt_is_Some_2 _ _ H) as [l Hl]. exists l.
  split; [assumption|].
  rewrite Forall_forall in Hheap. apply Hheap.
  eapply list_elem_of_lookup_2; eassumption.
Qed.

(** The reference a call returns points to an array of the new state. *)
Lemma returned_in_heap env fetch mood market playlistLimit trackLimit s r s1 :
  memoising env fetch ->
  wellFormed env s ->
  fetch mood market playlistLimit trackLimit s = (Ok r, s1) ->
  (r < length (heap s1))%nat.
Proof.
  intros Hf Hwf Hcall.
  specialize (Hf mood market playlistLimit trackLimit s).
  destruct (cache s !! cacheKey mood market) as [r0|] eqn:E.
  - rewrite Hf in Hcall. inversion Hcall; subst. now apply (proj2 Hwf) in E.
  - specialize (Hf _ _ Hcall).
    inversion Hf as [tracks s1' _ Hh _ _ | s1' Hh _ _ _ | ]; subst;
      rewrite Hh, length_app; simpl; lia.
Qed.

Lemma returned_wellFormed env fetch mood market playlistLimit trackLimit s r s1 :
  memoising env fetch ->
  wellFormed env s ->
  fetch mood market playlistLimit trackLimit s = (Ok r, s1) ->
  exists l, heap s1 !! r = Some l /\ distinctIds l /\ Forall (unblocked env) l.
Proof.
  intros Hf Hwf Hcall.
  assert (Hwf1 : wellFormed env s1) by (eapply wellFormed_call; eassumption).
  assert (Hr : (r < length (heap s1))%nat)
    by (eapply returned_in_heap; [exact Hf|exact Hwf|exact Hcall]).
  destruct (lookup_lt_is_Some_2 _ _ Hr) as [l Hl]. exists l.
  split; [assumption|].
  destruct Hwf1 as [Hheap _]. rewrite Forall_forall in Hheap. apply Hheap.
  eapply list_elem_of_lookup_2; eassumption.
Qed.

(** A call that returns without a new error on the console has its result
    in the cache. *)
Lemma completed_is_cached env fetch mood market playlistLimit trackLimit s r s1 :
  memoising env fetch ->
  fetch mood market playlistLimit trackLimit s = (Ok r, s1) ->
  errorsLogged s1 = errorsLogged s ->
  cache s1 !! cacheKey mood market = Some r.
Proof.
  intros Hf Hcall Herr.
  specialize (Hf mood market playlistLimit trackLimit s).
  destruct (cache s !! cacheKey mood market) as [r0|] eqn:E.
  - rewrite Hf in Hcall. inversion Hcall; subst. assumption.
  - specialize (Hf _ _ Hcall).
    inversion Hf as [tracks s1' _ _ Hc _ | s1' _ _ Hlt _ | ]; subst.
    + rewrite Hc. apply lookup_insert_eq.
    + lia.
Qed.

(** On a cache miss, a call that returns has reported no error exactly when
    its result went into the cache, that is, when it came to the end of its
    [try] block and not to its [catch]. *)
Lemma returned_without_error_iff_cached env fetch mood market playlistLimit
    trackLimit s r s1 :
  memoising env fetch ->
  cache s !! cacheKey mood market = None ->
  fetch mood market playlistLimit trackLimit s = (Ok r, s1) ->
  errorsLogged s1 = errorsLogged s <->
  cache s1 !! cacheKey mood market = Some r.
Proof.
  intros Hf Hmiss Hcall.
  specialize (Hf mood market playlistLimit trackLimit s).
  rewrite Hmiss in Hf. specialize (Hf _ _ Hcall).
  inversion Hf as [tracks s1' _ _ Hc He | s1' _ Hc Hlt _ | ]; subst.
  - split; [|easy]. intros _. rewrite Hc. apply lookup_insert_eq.
  - split; [lia|]. rewrite Hc, Hmiss. discriminate.
Qed.

(** ** Settling commutes with dropping the failed requests *)

Lemma insertSettled_head p l :
  Forall (fun q => (settleAt p <= settleAt q)%nat) l ->
  insertSettled p l = p :: l.
Proof.
  destruct l as [|q rest]; [reflexivity|]. intros H. simpl.
  inversion H; subst. now rewrite (proj2 (Nat.leb_le _ _)).
Qed.

Lemma insertSettled_all (P : Pending -> Prop) p l :
  P p -> Forall P l -> Forall P (insertSettled p l).
Proof.
  intros Hp. induction 1 as [|q rest Hq Hrest IH]; simpl.
  - repeat constructor; assumption.
  - destruct (settleAt p <=? settleAt q)%nat; repeat constructor; auto.
Qed.

Lemma insertSettled_sorted p l :
  settleSorted l -> settleSorted (insertSettled p l).
Proof.
  unfold settleSorted. induction 1 as [|q rest Hs IH Hq]; simpl.
  - repeat constructor.
  - destruct (settleAt p <=? settleAt q)%nat eqn:E.
    + apply Nat.leb_le in E. constructor; [now constructor|].
      constructor; [assumption|].
      eapply Forall_impl; [exact Hq|]. simpl. intros; lia.
    + apply Nat.leb_gt in E. constructor; [assumption|].
      apply insertSettled_all; [lia|assumption].
Qed.

Lemma settleOrder_sorted l : settleSorted (settleOrder l).
Proof.
  induction l as [|p rest IH]; simpl; [constructor|].
  now apply insertSettled_sorted.
Qed.

Lemma filter_insertSettled f p l :
  settleSorted l ->
  List.filter f (insertSettled p l)
  = if f p then insertSettled p (List.filter f l) else List.filter f l.
Proof.
  unfold settleSorted. induction 1 as [|q rest Hs IH Hq]; simpl.
  - now destruct (f p).
  - destruct (settleAt p <=? settleAt q)%nat eqn:E; simpl.
    + destruct (f p) eqn:Fp; [|reflexivity].
      symmetry. apply insertSettled_head. apply Nat.leb_le in E.
      destruct (f q).
      * constructor; [assumption|].
        apply Forall_forall. intros x Hx.
        apply list_elem_of_In, filter_In in Hx as [Hx _].
        rewrite Forall_forall in Hq.
        apply list_elem_of_In, Hq in Hx. lia.
      * apply Forall_forall. intros x Hx.
        apply list_elem_of_In, filter_In in Hx as [Hx _].
        rewrite Forall_forall in Hq.
        apply list_elem_of_In, Hq in Hx. lia.
    + rewrite IH. destruct (f q), (f p); simpl; try reflexivity.
      now rewrite E.
Qed.

Lemma filter_settleOrder f l :
  List.filter f (settleOrder l) = settleOrder (List.filter f l).
Proof.
  induction l as [|p rest IH]; simpl; [reflexivity|].
  rewrite filter_insertSettled by apply settleOrder_sorted.
  rewrite IH. now destruct (f p).
Qed.

(** Requests that were rejected add nothing to the shared array. *)
Lemma pushed_resolved_only env l :
  concat (map (pushed env) l)
  = concat (map (pushed env) (List.filter isResolved l)).
Proof.
  induction l as [|p rest IH]; simpl; [reflexivity|].
  unfold isResolved at 1, pushed at 1.
  destruct (reply p) eqn:E; simpl; [|assumption].
  unfold pushed at 2. rewrite E. now f_equal.
Qed.

Lemma contribution_resolved_only env l :
  concat (map (Proxy.contribution env) l)
  = concat (map (Proxy.contribution env) (List.filter isResolved l)).
Proof.
  induction l as [|p rest IH]; simpl; [reflexivity|].
  unfold isResolved at 1.
  destruct (reply p) eqn:E; simpl; [now f_equal|].
  unfold Proxy.contribution at 1, Proxy.tracksOf. now rewrite E.
Qed.


(** ** The result cache *)

(** C10. The cache key is not injective. The pairs ("a_b", "C") and
    ("a", "b_C") differ and have the same key; and whenever two pairs have
    the same key, a completed call for the first makes a call for the second
    return the first pair's list at once, with no request sent. *)
Theorem cache_key_collision env fetch mood market mood' market'
    playlistLimit trackLimit playlistLimit' trackLimit' s0 r s1 :
  lenient env fetch ->
  cacheKey mood market = cacheKey mood' market' ->
  fetch mood market playlistLimit trackLimit s0 = (Ok r, s1) ->
  errorsLogged s1 = errorsLogged s0 ->
  ("a_b", "C") <> ("a", "b_C") /\
  cacheKey "a_b" "C" = cacheKey "a" "b_C" /\
  fetch mood' market' playlistLimit' trackLimit' s1 = (Ok r, s1).
Proof.
  intros Hf Hkey Hcall Herr. split; [discriminate|]. split; [reflexivity|].
  apply lenient_memoising in Hf.
  pose proof (completed_is_cached _ _ _ _ _ _ _ _ _ Hf Hcall Herr) as Hc.
  specialize (Hf mood' market' playlistLimit' trackLimit' s1).
  rewrite <- Hkey in Hf. now rewrite Hc in Hf.
Qed.

(** C2. Distinct ids. In every state either service ([Prod], part_008, or
    [Proxy], part_003) can reach, every list stored in the result cache has
    pairwise distinct ids, and so has the list behind the reference that any
    further call returns. *)
Theorem returned_ids_distinct env fetch s :
  lenient env fetch ->
  reachable fetch s ->
  (forall key r, cache s !! key = Some r ->
     exists l, heap s !! r = Some l /\ distinctIds l) /\
  (forall mood market playlistLimit trackLimit r s1,
     fetch mood market playlistLimit trackLimit s = (Ok r, s1) ->
     exists l, heap s1 !! r = Some l /\ distinctIds l).
Proof.
  intros Hf Hr. apply lenient_memoising in Hf.
  pose proof (reachable_wellFormed env fetch s Hf Hr) as Hwf. split.
  - intros key r H.
    destruct (wellFormed_cached env s key r Hwf H) as (l & ? & ? & _). eauto.
  - intros mood market pl tl r s1 Hcall.
    destruct (returned_wellFormed _ _ _ _ _ _ _ _ _ Hf Hwf Hcall)
      as (l & ? & ? & _).
    eauto.
Qed.

(** C3. Block list. In every state [Prod] (part_008) can reach, the list
    behind the reference a call returns holds no track whose lower-cased
    title contains an entry of [BLOCKED_KEYWORDS]; equivalently, an upstream
    item whose track has a name that, lower-cased, contains a blocked
    keyword yields no record. *)
Theorem returned_titles_unblocked env s :
  reachable (Prod.fetchSongsByMood env) s ->
  (forall mood market playlistLimit trackLimit r s1,
     Prod.fetchSongsByMood env mood market playlistLimit trackLimit s
     = (Ok r, s1) ->
     exists l, heap s1 !! r = Some l /\
       forall t kw, t ∈ l -> In kw BLOCKED_KEYWORDS ->
         includes (toLowerCase env (title t)) kw = false) /\
  (forall item t tname kw,
     getProp item "track" = Ok t ->
     getProp t "name" = Ok (JStr tname) ->
     In kw BLOCKED_KEYWORDS ->
     includes (toLowerCase env tname) kw = true ->
     trackOfItem env item = Ok None).
Proof.
  intros Hr.
  pose proof (reachable_wellFormed env _ s (Prod_memoising env) Hr) as Hwf.
  split.
  - intros mood market pl tl r s1 Hcall.
    destruct (returned_wellFormed _ _ _ _ _ _ _ _ _
                (Prod_memoising env) Hwf Hcall) as (l & Hl & _ & Hu).
    exists l. split; [assumption|]. intros t kw Ht Hkw.
    rewrite Forall_forall in Hu. now apply Hu.
  - intros item t tname kw Ht Hn Hkw Hinc.
    eapply trackOfItem_blocked; try eassumption.
    unfold isBlocked. apply existsb_exists. eauto.
Qed.

(** C4, as the code has it. The record that survives the removal of
    duplicates stands where the first record of its id stood, but it is the
    last record of that id: the ids of [uniqueTracks l] are those of
    [keepFirst l] in the same order, and every record of [uniqueTracks l]
    is followed in [l] by no record of the same id. *)
Theorem duplicates_keep_first_place_last_value l :
  map id (uniqueTracks l) = map id (keepFirst l) /\
  forall t, t ∈ uniqueTracks l -> lastOfItsId t l.
Proof.
  split; [apply uniqueTracks_order|]. intros t. apply uniqueTracks_last.
Qed.

(** ** The token caches *)

Lemma Prod_authenticateSpotify_spec env :
  tokenCacheSpec env (Prod.authenticateSpotify env)
    (Post "/.netlify/functions/spotify-auth" None)
    (Error "Spotify authentication failed")
    validWithBuffer fullLifetime.
Proof.
  intros s. unfold Prod.authenticateSpotify, Prod.tokenStillValid,
    ticksAfterTest, validWithBuffer, fullLifetime, bind, tryCatch,
    readAccessToken, readTokenExpiresAt, dateNow, ret, axiosPost.
  destruct (tokenTruthy (accessToken s)) eqn:Held; simpl.
  - destruct (clock env (ticks s) <? tokenExpiresAt s - 60 * 1000) eqn:V;
      simpl.
    + eexists. split; reflexivity.
    + destruct (tokenEndpoint env (requests s) _); simpl;
        eexists; repeat split; reflexivity.
  - destruct (tokenEndpoint env (requests s) _); simpl;
      eexists; repeat split; reflexivity.
Qed.

Lemma Server_getAccessToken_spec env :
  tokenCacheSpec env (Server.getAccessToken env)
    (Post "https://accounts.spotify.com/api/token"
       (Some ("Basic " ++ basicAuth env)))
    (Error "Failed to retrieve Spotify access token.")
    validUntilExpiry shortenedLifetime.
Proof.
  intros s. unfold Server.getAccessToken, ticksAfterTest, validUntilExpiry,
    shortenedLifetime, bind, tryCatch, readAccessToken, readTokenExpiresAt,
    dateNow, ret, axiosPost.
  destruct (tokenTruthy (accessToken s)) eqn:Held; simpl.
  - destruct (clock env (ticks s) <? tokenExpiresAt s) eqn:V; simpl.
    + eexists. split; reflexivity.
    + destruct (tokenEndpoint env (requests s) _); simpl;
        eexists; repeat split; reflexivity.
  - destruct (tokenEndpoint env (requests s) _); simpl;
      eexists; repeat split; reflexivity.
Qed.

(** C9, as the code has it. [authenticateSpotify] (part_008) meets the
    token-cache contract with the test [now < expiresAt - 60 s] and the
    stored expiry [now + expiresIn * 1000]. [getAccessToken]
    (functions/spotify.js) meets it with the buffer moved to the stored
    expiry: the test is [now < expiresAt] and the stored expiry is
    [now + (expiresIn - 60) * 1000]. In both, a rejected exchange makes the
    operation throw after that single request. *)
Theorem token_caches env :
  tokenCacheSpec env (Prod.authenticateSpotify env)
    (Post "/.netlify/functions/spotify-auth" None)
    (Error "Spotify authentication failed")
    validWithBuffer fullLifetime /\
  tokenCacheSpec env (Server.getAccessToken env)
    (Post "https://accounts.spotify.com/api/token"
       (Some ("Basic " ++ basicAuth env)))
    (Error "Failed to retrieve Spotify access token.")
    validUntilExpiry shortenedLifetime.
Proof.
  split; [apply Prod_authenticateSpotify_spec|apply Server_getAccessToken_spec].
Qed.

(** ** Running a computation step by step *)

Lemma bind_ok {A B} (m : M A) (k : A -> M B) s a s' :
  m s = (Ok a, s') -> bind m k s = k a s'.
Proof. intros H. unfold bind. now rewrite H. Qed.

Lemma bind_throw {A B} (m : M A) (k : A -> M B) s e s' :
  m s = (Throw e, s') -> bind m k s = (Throw e, s').
Proof. intros H. unfold bind. now rewrite H. Qed.

Lemma tryCatch_ok {A} (m : M A) handler s a s' :
  m s = (Ok a, s') -> tryCatch m handler s = (Ok a, s').
Proof. intros H. unfold tryCatch. now rewrite H. Qed.

Lemma tryCatch_throw {A} (m : M A) handler s e s' :
  m s = (Throw e, s') -> tryCatch m handler s = handler e s'.
Proof. intros H. unfold tryCatch. now rewrite H. Qed.

Lemma cacheGet_run key s : cacheGet key s = (Ok (cache s !! key), s).
Proof. reflexivity. Qed.

Lemma readAccessToken_run s : readAccessToken s = (Ok (accessToken s), s).
Proof. reflexivity. Qed.

Lemma lift_run {A} (c : Completion A) s : lift c s = (c, s).
Proof. reflexivity. Qed.

Lemma axiosGet_token env req s c s' :
  axiosGet env req s = (c, s') -> accessToken s' = accessToken s.
Proof.
  unfold axiosGet. destruct (httpGet env _ _); intros [= _ <-]; reflexivity.
Qed.

(** Uses the known result [E] of the first step of the goal. *)
Ltac step E :=
  first [ rewrite (bind_ok _ _ _ _ _ E)
        | rewrite (bind_throw _ _ _ _ _ E)
        | rewrite (tryCatch_ok _ _ _ _ _ E)
        | rewrite (tryCatch_throw _ _ _ _ _ E) ]; cbv beta.

Ltac step_in E H :=
  first [ rewrite (bind_ok _ _ _ _ _ E) in H
        | rewrite (bind_throw _ _ _ _ _ E) in H ]; cbv beta in H.

(** ** Calls that miss the cache, continued after the search *)

Lemma Prod_auth_throws_error env s e sa :
  Prod.authenticateSpotify env s = (Throw e, sa) ->
  e = Error "Spotify authentication failed" /\
  exists req, requests sa = (requests s ++ [req])%list.
Proof.
  intros H. pose proof (Prod_authenticateSpotify_spec env s) as Hspec.
  rewrite H in Hspec.
  destruct (tokenTruthy (accessToken s) && _).
  - destruct Hspec as (s1 & [=] & _).
  - destruct (tokenEndpoint env (requests s) _).
    + destruct Hspec as (s1 & [=] & _).
    + destruct Hspec as (s1 & [= -> ->] & _ & _ & Hreq). eauto.
Qed.

Lemma lookup_new_array (h : list (list Track)) l :
  (h ++ [l])%list !! length h = Some l.
Proof. now rewrite lookup_app_r, Nat.sub_diag by lia. Qed.

(** The lenient [catch], run in a state that is quiet after [s]. *)
Lemma lenient_catch s s2 msg :
  quiet s s2 ->
  exists s1,
    (consoleWrite LError msg ;;; alloc []) s2 = (Ok (length (heap s)), s1) /\
    heap s1 !! length (heap s) = Some [] /\
    cache s1 = cache s /\ requests s1 = requests s2.
Proof.
  intros Q. unfold bind, consoleWrite, alloc. simpl.
  rewrite (quiet_heap _ _ Q). eexists. split; [reflexivity|]. simpl.
  split; [apply lookup_new_array|]. split; [apply Q|reflexivity].
Qed.

Lemma Prod_search_rejected env mood market playlistLimit trackLimit s err s2 :
  cache s !! cacheKey mood market = None ->
  Prod.searched env mood market playlistLimit s = (Throw (AxiosErr err), s2) ->
  quiet s s2 /\
  Prod.fetchSongsByMood env mood market playlistLimit trackLimit s
  = (consoleWrite LError "Error fetching songs:" ;;; alloc []) s2.
Proof.
  intros Hmiss Hs. unfold Prod.searched in Hs. unfold Prod.fetchSongsByMood.
  step (cacheGet_run (cacheKey mood market) s). rewrite Hmiss.
  destruct (Prod.authenticateSpotify env s) as [[tok|e] sa] eqn:Ea.
  2:{ step_in Ea Hs. inversion Hs; subst.
      apply Prod_auth_throws_error in Ea as [[=] _]. }
  step Ea. step_in Ea Hs.
  step (readAccessToken_run sa). step_in (readAccessToken_run sa) Hs.
  split.
  - etransitivity; [eapply Quiet_Prod_authenticateSpotify; exact Ea|].
    eapply Quiet_axiosGet; exact Hs.
  - unfold tryCatch. now rewrite (bind_throw _ _ _ _ _ Hs).
Qed.

Lemma Prod_search_resolved env mood market playlistLimit trackLimit s
    searchData s2 :
  cache s !! cacheKey mood market = None ->
  Prod.searched env mood market playlistLimit s = (Ok searchData, s2) ->
  quiet s s2 /\
  Prod.fetchSongsByMood env mood market playlistLimit trackLimit s
  = tryCatch
      (playlists <- lift (playlistItems searchData) ;;
       tracks <-
         fetchAllTracks env
           (Prod.tracksRequest env
              (Some ("Bearer " ++ tokenText (accessToken s2))) market
              trackLimit)
           (trackWarning env) playlists ;;
       r <- alloc (uniqueTracks tracks) ;;
       cacheSet (cacheKey mood market) r ;;;
       ret r)
      (fun err => consoleWrite LError "Error fetching songs:" ;;; alloc [])
      s2.
Proof.
  intros Hmiss Hs. unfold Prod.searched in Hs. unfold Prod.fetchSongsByMood.
  step (cacheGet_run (cacheKey mood market) s). rewrite Hmiss.
  destruct (Prod.authenticateSpotify env s) as [[tok|e] sa] eqn:Ea.
  2:{ step_in Ea Hs. discriminate. }
  step Ea. step_in Ea Hs.
  step (readAccessToken_run sa). step_in (readAccessToken_run sa) Hs.
  rewrite (axiosGet_token _ _ _ _ _ Hs).
  split.
  - etransitivity; [eapply Quiet_Prod_authenticateSpotify; exact Ea|].
    eapply Quiet_axiosGet; exact Hs.
  - unfold tryCatch. now rewrite (bind_ok _ _ _ _ _ Hs).
Qed.

Lemma Proxy_search_rejected env mood market playlistLimit trackLimit s e s2 :
  cache s !! cacheKey mood market = None ->
  Proxy.searched env mood market playlistLimit s = (Throw e, s2) ->
  quiet s s2 /\
  Proxy.fetchSongsByMood env mood market playlistLimit trackLimit s
  = (consoleWrite LError "Error fetching songs via Netlify Function:" ;;;
     alloc []) s2.
Proof.
  intros Hmiss Hs. unfold Proxy.searched in Hs. unfold Proxy.fetchSongsByMood.
  step (cacheGet_run (cacheKey mood market) s). rewrite Hmiss.
  split; [eapply Quiet_axiosGet; exact Hs|].
  unfold tryCatch. now rewrite (bind_throw _ _ _ _ _ Hs).
Qed.

Lemma Proxy_search_resolved env mood market playlistLimit trackLimit s
    searchData s2 :
  cache s !! cacheKey mood market = None ->
  Proxy.searched env mood market playlistLimit s = (Ok searchData, s2) ->
  quiet s s2 /\
  Proxy.fetchSongsByMood env mood market playlistLimit trackLimit s
  = tryCatch
      (playlists <- lift (Proxy.playlistItems searchData) ;;
       tracks <- Proxy.fetchAllTracks env market trackLimit playlists ;;
       r <- alloc (uniqueTracks tracks) ;;
       cacheSet (cacheKey mood market) r ;;;
       ret r)
      (fun error =>
         consoleWrite LError "Error fetching songs via Netlify Function:" ;;;
         alloc [])
      s2.
Proof.
  intros Hmiss Hs. unfold Proxy.searched in Hs. unfold Proxy.fetchSongsByMood.
  step (cacheGet_run (cacheKey mood market) s). rewrite Hmiss.
  split; [eapply Quiet_axiosGet; exact Hs|].
  unfold tryCatch. now rewrite (bind_ok _ _ _ _ _ Hs).
Qed.

Lemma Quiet_ProdV2_searched env mood market playlistLimit :
  Quiet (ProdV2.searched env mood market playlistLimit).
Proof.
  unfold ProdV2.searched.
  pose proof (Quiet_ProdV2_authenticateSpotify env). quiet_steps.
Qed.

(** The strict [catch] always throws and touches the console only. *)
Lemma ProdV2_fetchFailure_throws env err s :
  exists e s1, ProdV2.fetchFailure env err s = (Throw e, s1) /\ quiet s s1.
Proof.
  unfold ProdV2.fetchFailure, bind, consoleWrite, throw.
  destruct (includes _ _ || includes _ _); do 2 eexists;
    (split; [reflexivity|]); split; try reflexivity;
    simpl; now apply prefix_app_r.
Qed.

Lemma ProdV2_search_rejected env mood market playlistLimit trackLimit s e0 s2 :
  cache s !! cacheKey mood market = None ->
  ProdV2.searched env mood market playlistLimit s = (Throw e0, s2) ->
  exists e s1,
    ProdV2.fetchSongsByMood env mood market playlistLimit trackLimit s
    = (Throw e, s1) /\ quiet s s1.
Proof.
  intros Hmiss Hs. pose proof (Quiet_ProdV2_searched _ _ _ _ _ _ _ Hs) as Q.
  unfold ProdV2.searched in Hs. unfold ProdV2.fetchSongsByMood.
  step (cacheGet_run (cacheKey mood market) s). rewrite Hmiss.
  destruct (ProdV2_fetchFailure_throws env e0 s2) as (e & s1 & Ef & Qf).
  exists e, s1. split; [|etransitivity; eassumption].
  rewrite <- Ef. apply tryCatch_throw.
  revert Hs. unfold bind at 1 4.
  destruct (consoleWrite LLog _ s) as [[[]|?] s0]; [|intros [= <- <-]; reflexivity].
  unfold bind at 1 3.
  destruct (ProdV2.authenticateSpotify env s0) as [[tok|?] sa];
    [|intros [= <- <-]; reflexivity].
  unfold bind at 1 2. unfold readAccessToken. intros Hs.
  now rewrite (bind_throw _ _ _ _ _ Hs).
Qed.

(** ** The request history only grows *)

Lemma growing_quiet {A} (m : M A) : Quiet m -> growing m.
Proof. intros H s c s' E. eapply quiet_requests, H, E. Qed.

Lemma growing_bind {A B} (m : M A) (k : A -> M B) :
  growing m -> (forall a, growing (k a)) -> growing (bind m k).
Proof.
  intros Hm Hk s c s' H. unfold bind in H.
  destruct (m s) as [[a|e] s1] eqn:E.
  - etransitivity; [eapply Hm|eapply Hk]; eassumption.
  - inversion H; subst. eapply Hm; eassumption.
Qed.

Lemma growing_tryCatch {A} (m : M A) handler :
  growing m -> (forall e, growing (handler e)) -> growing (tryCatch m handler).
Proof.
  intros Hm Hh s c s' H. unfold tryCatch in H.
  destruct (m s) as [[a|e] s1] eqn:E.
  - inversion H; subst. eapply Hm; eassumption.
  - etransitivity; [eapply Hm|eapply Hh]; eassumption.
Qed.

Lemma growing_alloc l : growing (alloc l).
Proof. intros s c s' [= <- <-]. reflexivity. Qed.

Lemma growing_cacheSet key r : growing (cacheSet key r).
Proof. intros s c s' [= <- <-]. reflexivity. Qed.

Lemma axiosGet_requests env req s c s' :
  axiosGet env req s = (c, s') -> requests s' = (requests s ++ [req])%list.
Proof.
  unfold axiosGet. destruct (httpGet env _ _); intros [= _ <-]; reflexivity.
Qed.

Lemma tryCatch_bind_ok {A B} (m : M A) (k : A -> M B) handler s a s' :
  m s = (Ok a, s') ->
  tryCatch (bind m k) handler s = tryCatch (k a) handler s'.
Proof. intros H. unfold tryCatch. now rewrite (bind_ok _ _ _ _ _ H). Qed.

Lemma tryCatch_bind_throw {A B} (m : M A) (k : A -> M B) handler s e s' :
  m s = (Throw e, s') -> tryCatch (bind m k) handler s = handler e s'.
Proof. intros H. unfold tryCatch. now rewrite (bind_throw _ _ _ _ _ H). Qed.

(** A call of [Prod] that misses the cache sends at least one request. *)
Lemma Prod_miss_sends env mood market playlistLimit trackLimit s c s1 :
  cache s !! cacheKey mood market = None ->
  Prod.fetchSongsByMood env mood market playlistLimit trackLimit s = (c, s1) ->
  exists req more, requests s1 = (requests s ++ req :: more)%list.
Proof.
  intros Hmiss. unfold Prod.fetchSongsByMood.
  step (cacheGet_run (cacheKey mood market) s). rewrite Hmiss.
  destruct (Prod.authenticateSpotify env s) as [[tok|e] sa] eqn:Ea.
  - step Ea. step (readAccessToken_run sa).
    apply Quiet_Prod_authenticateSpotify, quiet_requests in Ea
      as [pre Hpre].
    match goal with |- tryCatch (bind (axiosGet env ?rq) ?k) ?h sa = _ -> _ =>
      destruct (axiosGet env rq sa) as [[d|e] s2] eqn:Es;
      pose proof (axiosGet_requests _ _ _ _ _ Es) as Hreq;
      [rewrite (tryCatch_bind_ok _ k h _ _ _ Es)
      |rewrite (tryCatch_bind_throw _ k h _ _ _ Es)]
    end; intros Hrest.
    + assert (Hg : requests s2 `prefix_of` requests s1).
      { revert Hrest. generalize s2 c s1.
        change (growing (tryCatch
          (playlists <- lift (playlistItems d) ;;
           tracks <- fetchAllTracks env
             (Prod.tracksRequest env
                (Some ("Bearer " ++ tokenText (accessToken sa))) market
                trackLimit) (trackWarning env) playlists ;;
           r <- alloc (uniqueTracks tracks) ;;
           cacheSet (cacheKey mood market) r ;;; ret r)
          (fun _ => consoleWrite LError "Error fetching songs:" ;;; alloc []))).
        apply growing_tryCatch; [|intros; apply growing_bind;
          [apply growing_quiet, Quiet_consoleWrite|intros; apply growing_alloc]].
        apply growing_bind; [apply growing_quiet, Quiet_lift|intros].
        apply growing_bind;
          [apply growing_quiet, Quiet_fetchAllTracks|intros].
        apply growing_bind; [apply growing_alloc|intros].
        apply growing_bind; [apply growing_cacheSet|intros].
        apply growing_quiet, Quiet_ret. }
      destruct Hg as [more Hmore]. rewrite Hmore, Hreq, Hpre.
      destruct pre as [|p pre]; simpl.
      * rewrite app_nil_r, <- app_assoc. simpl. eauto.
      * rewrite <- !app_assoc. simpl. eauto.
    + assert (Hg : requests s2 `prefix_of` requests s1).
      { revert Hrest. unfold bind, consoleWrite, alloc.
        intros [= _ <-]. reflexivity. }
      destruct Hg as [more Hmore]. rewrite Hmore, Hreq, Hpre.
      destruct pre as [|p pre]; simpl.
      * rewrite app_nil_r, <- app_assoc. simpl. eauto.
      * rewrite <- !app_assoc. simpl. eauto.
  - step Ea. intros [= <- <-].
    apply Prod_auth_throws_error in Ea as [_ [req Hreq]]. eauto.
Qed.

(** ** Failures *)

Lemma Prod_authenticateSpotify_console env s tok sa :
  Prod.authenticateSpotify env s = (Ok tok, sa) -> console sa = console s.
Proof.
  unfold Prod.authenticateSpotify, Prod.tokenStillValid, bind, tryCatch,
    readAccessToken, readTokenExpiresAt, dateNow, ret, axiosPost,
    writeAccessToken, writeTokenExpiresAt, consoleWrite, throw.
  destruct (tokenTruthy (accessToken s)); simpl.
  - destruct (clock env (ticks s) <? tokenExpiresAt s - 60 * 1000); simpl.
    + intros [= _ <-]. reflexivity.
    + destruct (tokenEndpoint env (requests s) _); simpl;
        intros [= _ <-] || intros [=]; reflexivity.
  - destruct (tokenEndpoint env (requests s) _); simpl;
      intros [= _ <-] || intros [=]; reflexivity.
Qed.

Lemma axiosGet_console env req s c s' :
  axiosGet env req s = (c, s') -> console s' = console s.
Proof.
  unfold axiosGet. destruct (httpGet env _ _); intros [= _ <-]; reflexivity.
Qed.

(** When the search request of [Prod] is rejected, nothing has been written
    to the console since the call began. *)
Lemma Prod_searched_console env mood market playlistLimit s err s2 :
  Prod.searched env mood market playlistLimit s = (Throw (AxiosErr err), s2) ->
  console s2 = console s.
Proof.
  unfold Prod.searched. intros Hs.
  destruct (Prod.authenticateSpotify env s) as [[tok|e] sa] eqn:Ea.
  - step_in Ea Hs. step_in (readAccessToken_run sa) Hs.
    rewrite (axiosGet_console _ _ _ _ _ Hs).
    eapply Prod_authenticateSpotify_console, Ea.
  - step_in Ea Hs. inversion Hs; subst.
    apply Prod_auth_throws_error in Ea as [[=] _].
Qed.

(** The lenient [catch] reports the error, once, with [console.error]. *)
Lemma lenient_catch_console msg s2 c s1 :
  (consoleWrite LError msg ;;; alloc []) s2 = (c, s1) ->
  console s1 = (console s2 ++ [(LError, msg)])%list.
Proof. unfold bind, consoleWrite, alloc. intros [= _ <-]. reflexivity. Qed.

(** C5, as the code has it. On a cache miss, if the playlist-search request
    is rejected, nothing is stored in the result cache by any service. The
    later production service ([ProdV2], part_001) rejects. The production
    service ([Prod], part_008) and the proxy service ([Proxy], part_003)
    do not: they report the error with [console.error], the one entry the
    call adds to the console, and resolve with a new, empty list. *)
Theorem search_failure_outcomes env mood market playlistLimit trackLimit
    s err s2 :
  cache s !! cacheKey mood market = None ->
  (ProdV2.searched env mood market playlistLimit s
   = (Throw (AxiosErr err), s2) ->
   exists e s1,
     ProdV2.fetchSongsByMood env mood market playlistLimit trackLimit s
     = (Throw e, s1) /\ cache s1 = cache s) /\
  (Prod.searched env mood market playlistLimit s
   = (Throw (AxiosErr err), s2) ->
   exists s1,
     Prod.fetchSongsByMood env mood market playlistLimit trackLimit s
     = (Ok (length (heap s)), s1) /\
     heap s1 !! length (heap s) = Some [] /\ cache s1 = cache s /\
     console s1 = (console s ++ [(LError, "Error fetching songs:")])%list) /\
  (Proxy.searched env mood market playlistLimit s
   = (Throw (AxiosErr err), s2) ->
   exists s1,
     Proxy.fetchSongsByMood env mood market playlistLimit trackLimit s
     = (Ok (length (heap s)), s1) /\
     heap s1 !! length (heap s) = Some [] /\ cache s1 = cache s /\
     console s1
     = (console s
        ++ [(LError, "Error fetching songs via Netlify Function:")])%list).
Proof.
  intros Hmiss. repeat split.
  - intros Hs.
    destruct (ProdV2_search_rejected env mood market playlistLimit trackLimit
                s _ s2 Hmiss Hs) as (e & s1 & E & Q).
    exists e, s1. split; [assumption|apply Q].
  - intros Hs.
    pose proof (Prod_searched_console _ _ _ _ _ _ _ Hs) as Hcon.
    destruct (Prod_search_rejected env mood market playlistLimit trackLimit
                s err s2 Hmiss Hs) as [Q ->].
    destruct (lenient_catch s s2 "Error fetching songs:" Q)
      as (s1 & E & Hh & Hc & _).
    exists s1. repeat split; try assumption.
    rewrite (lenient_catch_console _ _ _ _ E). now rewrite Hcon.
  - intros Hs.
    pose proof (axiosGet_console _ _ _ _ _ Hs) as Hcon.
    destruct (Proxy_search_rejected env mood market playlistLimit trackLimit
                s _ s2 Hmiss Hs) as [Q ->].
    destruct (lenient_catch s s2
                "Error fetching songs via Netlify Function:" Q)
      as (s1 & E & Hh & Hc & _).
    exists s1. repeat split; try assumption.
    rewrite (lenient_catch_console _ _ _ _ E). now rewrite Hcon.
Qed.

(** C6. Authentication failure in [Prod] (part_008). On a cache miss, if
    no valid token is held and the token endpoint rejects the exchange, the
    call rejects with the error "Spotify authentication failed"; the result
    cache and the arrays handed out are as before, so the key is still
    absent; and a later call for the same mood and market runs the pipeline
    again: it sends at least one more request. *)
Theorem auth_failure_rejects env mood market playlistLimit trackLimit s err :
  cache s !! cacheKey mood market = None ->
  tokenTruthy (accessToken s)
  && validWithBuffer (clock env (ticks s)) (tokenExpiresAt s) = false ->
  tokenEndpoint env (requests s) (Post "/.netlify/functions/spotify-auth" None)
  = Reject err ->
  exists sa,
    Prod.fetchSongsByMood env mood market playlistLimit trackLimit s
    = (Throw (Error "Spotify authentication failed"), sa) /\
    cache sa = cache s /\ heap sa = heap s /\
    cache sa !! cacheKey mood market = None /\
    forall playlistLimit' trackLimit' c s2,
      Prod.fetchSongsByMood env mood market playlistLimit' trackLimit' sa
      = (c, s2) ->
      exists req more, requests s2 = (requests sa ++ req :: more)%list.
Proof.
  intros Hmiss Hstale Hreject.
  pose proof (Prod_authenticateSpotify_spec env s) as Hspec.
  rewrite Hstale, Hreject in Hspec. destruct Hspec as (sa & Ea & _).
  pose proof (Quiet_Prod_authenticateSpotify _ _ _ _ Ea) as Q.
  assert (Hmiss' : cache sa !! cacheKey mood market = None)
    by (now rewrite (quiet_cache _ _ Q)).
  exists sa. split.
  { unfold Prod.fetchSongsByMood.
    step (cacheGet_run (cacheKey mood market) s). rewrite Hmiss.
    now step Ea. }
  split; [apply Q|]. split; [apply Q|]. split; [assumption|].
  intros pl' tl' c s2. now apply Prod_miss_sends.
Qed.

Lemma playlistItems_without searchData :
  (forall x l,
     optProp (optProp searchData "playlists") "items" <> JArr (x :: l)) ->
  playlistItems searchData = Ok [] \/ playlistItems searchData = Throw TypeError.
Proof.
  intros H. unfold playlistItems, bindC.
  destruct searchData; simpl in *; auto;
    match goal with
    | |- context [match ?v with _ => _ end] => destruct v as [| | | | |[|x l]|] eqn:E
    end; auto; exfalso; eapply H; reflexivity.
Qed.

Lemma Proxy_playlistItems_without searchData :
  (forall x l,
     optProp (optProp searchData "playlists") "items" <> JArr (x :: l)) ->
  Proxy.playlistItems searchData = Ok [] \/
  Proxy.playlistItems searchData = Throw TypeError.
Proof.
  intros H. unfold Proxy.playlistItems, bindC, jsOr.
  destruct searchData; simpl in *; auto;
    match goal with
    | |- context [truthy ?v] => destruct v as [| |[]|n|str|[|x l]|] eqn:E
    end; simpl; auto;
    try (destruct (negb _); simpl; auto); exfalso; eapply H; reflexivity.
Qed.

Lemma fetchAllTracks_none env request warning s :
  fetchAllTracks env request warning [] s = (Ok [], s).
Proof. reflexivity. Qed.

Lemma Proxy_fetchAllTracks_none env market trackLimit s :
  Proxy.fetchAllTracks env market trackLimit [] s = (Ok [], s).
Proof. reflexivity. Qed.

(** Storing the result: the new array is the result, and it is cached. *)
Lemma store_result key tracks s s4 :
  quiet s s4 ->
  exists s1,
    (r <- alloc (uniqueTracks tracks) ;; cacheSet key r ;;; ret r) s4
    = (Ok (length (heap s)), s1) /\
    heap s1 !! length (heap s) = Some (uniqueTracks tracks) /\
    cache s1 !! key = Some (length (heap s)) /\
    requests s1 = requests s4.
Proof.
  intros Q. unfold bind, alloc, cacheSet, ret. simpl.
  rewrite (quiet_heap _ _ Q). eexists. split; [reflexivity|]. simpl.
  split; [apply lookup_new_array|]. split; [apply lookup_insert_eq|reflexivity].
Qed.

(** C8. Tolerant read of the search reply, in [Prod] (part_008) and
    [Proxy] (part_003). On a cache miss, if the reply of the search has no
    [playlists.items] array, or an empty one, the call does not throw: it
    returns a reference to the empty list, and the request history is what
    it was when the search reply came in, so no track request was sent. *)
Theorem empty_search_gives_empty_list env mood market playlistLimit
    trackLimit s searchData s2 :
  cache s !! cacheKey mood market = None ->
  (forall x l,
     optProp (optProp searchData "playlists") "items" <> JArr (x :: l)) ->
  (Prod.searched env mood market playlistLimit s = (Ok searchData, s2) ->
   exists r s1,
     Prod.fetchSongsByMood env mood market playlistLimit trackLimit s
     = (Ok r, s1) /\
     heap s1 !! r = Some [] /\ requests s1 = requests s2) /\
  (Proxy.searched env mood market playlistLimit s = (Ok searchData, s2) ->
   exists r s1,
     Proxy.fetchSongsByMood env mood market playlistLimit trackLimit s
     = (Ok r, s1) /\
     heap s1 !! r = Some [] /\ requests s1 = requests s2).
Proof.
  intros Hmiss Hshape. split; intros Hs.
  - destruct (Prod_search_resolved env mood market playlistLimit trackLimit
                s searchData s2 Hmiss Hs) as [Q ->].
    destruct (playlistItems_without searchData Hshape) as [E|E].
    + destruct (store_result (cacheKey mood market) [] s s2 Q)
        as (s1 & E1 & Hh & _ & Hr).
      exists (length (heap s)), s1. split; [|split; assumption].
      apply tryCatch_ok.
      rewrite E, (bind_ok _ _ _ _ _ (lift_run _ s2)). cbv beta.
      rewrite (bind_ok _ _ _ _ _ (fetchAllTracks_none env _ _ s2)).
      exact E1.
    + destruct (lenient_catch s s2 "Error fetching songs:" Q)
        as (s1 & E1 & Hh & _ & Hr).
      exists (length (heap s)), s1. split; [|split; assumption].
      assert (Hl : lift (playlistItems searchData) s2 = (Throw TypeError, s2))
        by (unfold lift; now rewrite E).
      now rewrite (tryCatch_bind_throw _ _ _ _ _ _ Hl).
  - destruct (Proxy_search_resolved env mood market playlistLimit trackLimit
                s searchData s2 Hmiss Hs) as [Q ->].
    destruct (Proxy_playlistItems_without searchData Hshape) as [E|E].
    + destruct (store_result (cacheKey mood market) [] s s2 Q)
        as (s1 & E1 & Hh & _ & Hr).
      exists (length (heap s)), s1. split; [|split; assumption].
      apply tryCatch_ok.
      rewrite E, (bind_ok _ _ _ _ _ (lift_run _ s2)). cbv beta.
      rewrite (bind_ok _ _ _ _ _
                 (Proxy_fetchAllTracks_none env market trackLimit s2)).
      exact E1.
    + destruct (lenient_catch s s2
                  "Error fetching songs via Netlify Function:" Q)
        as (s1 & E1 & Hh & _ & Hr).
      exists (length (heap s)), s1. split; [|split; assumption].
      assert (Hl : lift (Proxy.playlistItems searchData) s2
                   = (Throw TypeError, s2))
        by (unfold lift; now rewrite E).
      now rewrite (tryCatch_bind_throw _ _ _ _ _ _ Hl).
Qed.

(** What a call of [Prod] returns once its track requests are out. *)
Lemma Prod_sent_result env mood market playlistLimit trackLimit s pending s3 :
  cache s !! cacheKey mood market = None ->
  Prod.sent env mood market playlistLimit trackLimit s = (Ok pending, s3) ->
  exists s1,
    Prod.fetchSongsByMood env mood market playlistLimit trackLimit s
    = (Ok (length (heap s)), s1) /\
    heap s1 !! length (heap s)
    = Some (uniqueTracks (concat (map (pushed env) (settleOrder pending)))) /\
    cache s1 !! cacheKey mood market = Some (length (heap s)).
Proof.
  intros Hmiss Hs. unfold Prod.sent in Hs. unfold Prod.fetchSongsByMood.
  step (cacheGet_run (cacheKey mood market) s). rewrite Hmiss.
  destruct (Prod.authenticateSpotify env s) as [[tok|e] sa] eqn:Ea;
    [|step_in Ea Hs; discriminate].
  step Ea. step_in Ea Hs.
  step (readAccessToken_run sa). step_in (readAccessToken_run sa) Hs.
  cbv zeta in Hs.
  match type of Hs with bind (axiosGet env ?rq) _ _ = _ =>
    destruct (axiosGet env rq sa) as [[d|e] s2] eqn:Es end;
    [|step_in Es Hs; discriminate].
  step_in Es Hs. rewrite (tryCatch_bind_ok _ _ _ _ _ _ Es).
  destruct (playlistItems d) as [playlists|e] eqn:Ep;
    [|rewrite (bind_throw _ _ _ _ _ (lift_run _ s2)) in Hs; discriminate].
  step_in (lift_run (Ok playlists) s2) Hs.
  destruct (fetchAllTracks_result env _ (trackWarning env) _ _ _ _ Hs)
    as (s4 & E4 & Q4).
  assert (Q : quiet s s4).
  { etransitivity; [eapply Quiet_Prod_authenticateSpotify; exact Ea|].
    etransitivity; [eapply Quiet_axiosGet; exact Es|].
    etransitivity; [eapply Quiet_sendAll; exact Hs|exact Q4]. }
  destruct (store_result (cacheKey mood market)
              (concat (map (pushed env) (settleOrder pending))) s s4 Q)
    as (s1 & E1 & Hh & Hc & _).
  exists s1. split; [|split; assumption].
  apply tryCatch_ok. rewrite (bind_ok _ _ _ _ _ (lift_run _ s2)).
  cbv beta. rewrite (bind_ok _ _ _ _ _ E4). exact E1.
Qed.

Lemma Proxy_sent_result env mood market playlistLimit trackLimit s pending s3 :
  cache s !! cacheKey mood market = None ->
  Proxy.sent env mood market playlistLimit trackLimit s = (Ok pending, s3) ->
  exists s1,
    Proxy.fetchSongsByMood env mood market playlistLimit trackLimit s
    = (Ok (length (heap s)), s1) /\
    heap s1 !! length (heap s)
    = Some (uniqueTracks (concat (map (Proxy.contribution env) pending))) /\
    cache s1 !! cacheKey mood market = Some (length (heap s)).
Proof.
  intros Hmiss Hs. unfold Proxy.sent in Hs. unfold Proxy.fetchSongsByMood.
  step (cacheGet_run (cacheKey mood market) s). rewrite Hmiss.
  match type of Hs with bind (axiosGet env ?rq) _ _ = _ =>
    destruct (axiosGet env rq s) as [[d|e] s2] eqn:Es end;
    [|step_in Es Hs; discriminate].
  step_in Es Hs. rewrite (tryCatch_bind_ok _ _ _ _ _ _ Es).
  destruct (Proxy.playlistItems d) as [playlists|e] eqn:Ep;
    [|rewrite (bind_throw _ _ _ _ _ (lift_run _ s2)) in Hs; discriminate].
  step_in (lift_run (Ok playlists) s2) Hs.
  destruct (Proxy_fetchAllTracks_result env _ _ _ _ _ _ Hs)
    as (s4 & E4 & Q4).
  assert (Q : quiet s s4).
  { etransitivity; [eapply Quiet_axiosGet; exact Es|].
    etransitivity; [eapply Quiet_sendAll; exact Hs|exact Q4]. }
  destruct (store_result (cacheKey mood market)
              (concat (map (Proxy.contribution env) pending)) s s4 Q)
    as (s1 & E1 & Hh & Hc & _).
  exists s1. split; [|split; assumption].
  apply tryCatch_ok. rewrite (bind_ok _ _ _ _ _ (lift_run _ s2)).
  cbv beta. rewrite (bind_ok _ _ _ _ _ E4). exact E1.
Qed.

(** ** Pages of the documented shape *)

Lemma isBlocked_titleAllowed env t :
  isBlocked (toLowerCase env (up_name t)) = negb (titleAllowed env t).
Proof.
  unfold isBlocked, titleAllowed. generalize BLOCKED_KEYWORDS.
  induction l as [|kw l IH]; simpl; [reflexivity|].
  rewrite IH. now destruct (includes _ kw).
Qed.

Lemma mapC_artist_names l :
  mapC (fun a => getProp a "name") (map (fun a => JObj [("name", JStr a)]) l)
  = Ok (map JStr l).
Proof.
  induction l as [|a l IH]; [reflexivity|].
  simpl map. simpl mapC. rewrite IH. reflexivity.
Qed.

Lemma join_strings env sep l : join env sep (map JStr l) = joinStrings sep l.
Proof.
  unfold join. f_equal. induction l as [|a l IH]; simpl; congruence.
Qed.

Lemma first_image_url l :
  jsOr (optProp (hd JUndefined (map (fun u => JObj [("url", JStr u)]) l)) "url")
    (JStr "")
  = JStr (hd "" l).
Proof.
  destruct l as [|u l]; [reflexivity|]. simpl. unfold jsOr. simpl.
  destruct (String.eqb u "") eqn:E; simpl; [|reflexivity].
  apply String.eqb_eq in E. now subst.
Qed.

(** The body of the loop, run on a documented item, gives the record the
    specification expects, or skips the item where the specification does. *)
Lemma trackOfItem_itemJson env item :
  trackOfItem env (itemJson item)
  = Ok (match item with
        | Some t =>
            if hasIdentifier t && titleAllowed env t then Some (recordOf t)
            else None
        | None => None
        end).
Proof.
  destruct item as [t|]; [|reflexivity].
  pose proof (isBlocked_titleAllowed env t) as Hb.
  pose proof (mapC_artist_names (up_artists t)) as Ha.
  pose proof (join_strings env ", " (up_artists t)) as Hj.
  pose proof (first_image_url (up_images t)) as Hi.
  destruct t as [[i|] name artists sp prev imgs]; simpl in *; [|reflexivity].
  unfold trackOfItem, hasIdentifier. simpl.
  destruct (String.eqb i ""); simpl; [reflexivity|].
  rewrite Hb. destruct (titleAllowed env _); simpl; [|reflexivity].
  rewrite Ha. simpl. unfold recordOf. simpl. rewrite Hj, Hi. reflexivity.
Qed.

Lemma forEachPush_items env items : forall tracks,
  forEachPush env (map itemJson items) tracks
  = ((tracks ++ expectedTracks env items)%list, None).
Proof.
  unfold expectedTracks.
  induction items as [|item items IH]; intros tracks; simpl.
  - now rewrite app_nil_r.
  - rewrite trackOfItem_itemJson. destruct item as [t|]; simpl; [|apply IH].
    destruct (hasIdentifier t && titleAllowed env t); simpl; [|apply IH].
    rewrite IH, <- app_assoc. reflexivity.
Qed.

(** [Prod] pushes the expected tracks of a documented page, and [Proxy]
    maps the page to them. *)
Lemma pushTracks_page env items tracks :
  pushTracks env (pageJson items) tracks
  = ((tracks ++ expectedTracks env items)%list, None).
Proof. unfold pushTracks, pageJson. simpl. apply forEachPush_items. Qed.

Lemma mapC_items env items :
  mapC (trackOfItem env) (map itemJson items)
  = Ok (map (fun item : option UpstreamTrack =>
               t ← item;
               if hasIdentifier t && titleAllowed env t then Some (recordOf t)
               else None) items).
Proof.
  induction items as [|item items IH]; [reflexivity|].
  simpl map. simpl mapC. rewrite trackOfItem_itemJson, IH.
  destruct item; reflexivity.
Qed.

Lemma pageTracks_page env items :
  Proxy.pageTracks env (pageJson items) = Ok (expectedTracks env items).
Proof.
  unfold Proxy.pageTracks, pageJson, expectedTracks. simpl.
  rewrite mapC_items. simpl. f_equal.
  induction items as [|[t|] items IH]; [reflexivity| |exact IH].
  cbn [map omap list_omap mbind option_bind List.filter].
  destruct (hasIdentifier t && titleAllowed env t); cbn [map]; now rewrite IH.
Qed.

Lemma pushed_pages env (pages : Pending -> list (option UpstreamTrack)) l :
  Forall (fun p => reply p = Resolve (pageJson (pages p))) l ->
  map (pushed env) l = map (fun p => expectedTracks env (pages p)) l.
Proof.
  induction 1 as [|p l Hp _ IH]; simpl; [reflexivity|]. f_equal; [|exact IH].
  unfold pushed. now rewrite Hp, pushTracks_page.
Qed.

Lemma contribution_pages env (pages : Pending -> list (option UpstreamTrack))
    l :
  Forall (fun p => reply p = Resolve (pageJson (pages p))) l ->
  map (Proxy.contribution env) l
  = map (fun p => expectedTracks env (pages p)) l.
Proof.
  induction 1 as [|p l Hp _ IH]; simpl; [reflexivity|]. f_equal; [|exact IH].
  unfold Proxy.contribution, Proxy.tracksOf. now rewrite Hp, pageTracks_page.
Qed.

Lemma settleOrder_all (P : Pending -> Prop) l :
  Forall P l -> Forall P (settleOrder l).
Proof.
  induction 1 as [|p l Hp _ IH]; simpl; [constructor|].
  now apply insertSettled_all.
Qed.

(** ** The [Map] against its description on lists *)

Lemma lastOfId_id t rest : id (lastOfId t rest) = id t.
Proof.
  revert t. induction rest as [|u rest IH]; intros t; simpl; [reflexivity|].
  rewrite IH. destruct (sameValueZero (id t) (id u)) eqn:E; [|reflexivity].
  symmetry. now apply sameValueZero_eq.
Qed.

Lemma lastOfId_cons_other t u rest :
  sameValueZero (id t) (id u) = false ->
  lastOfId t (u :: rest) = lastOfId t rest.
Proof. intros E. simpl. now rewrite E. Qed.

Lemma lastOfId_cons_same t u rest :
  sameValueZero (id t) (id u) = true ->
  lastOfId t (u :: rest) = lastOfId u rest.
Proof. intros E. simpl. now rewrite E. Qed.

(** Setting the id of [t] in a [Map], seen through the records the entries
    end with once [tracks] have been set as well. *)
Lemma mapSet_lastOfId t tracks m :
  keyed m -> distinctKeys m ->
  map (fun e => lastOfId (snd e) tracks) (mapSet (id t) t m)
  = (map (fun e => lastOfId (snd e) (t :: tracks)) m
     ++ if existsb (fun k' => sameValueZero k' (id t)) (map fst m) then []
        else [lastOfId t tracks])%list.
Proof.
  induction m as [|[k' v'] m IH]; intros Hk Hd; [reflexivity|].
  inversion Hk as [|? ? Hkv Hk']; subst. simpl in Hkv. subst k'.
  pose proof (distinctKeys_tail _ _ Hd) as Hd'.
  cbn [mapSet map fst snd existsb].
  destruct (sameValueZero (id v') (id t)) eqn:E.
  - cbn [map snd orb]. rewrite app_nil_r.
    rewrite (lastOfId_cons_same v' t tracks E). f_equal.
    apply map_ext_in. intros e He. symmetry. apply lastOfId_cons_other.
    apply list_elem_of_In, list_elem_of_lookup in He as [j Hj].
    assert (H : sameValueZero (id v') (fst e) = false)
      by (apply (Hd 0%nat (S j) (id v', v') e); [lia|reflexivity|exact Hj]).
    unfold keyed in Hk'. rewrite Forall_forall in Hk'.
    rewrite <- (Hk' e) by (eapply list_elem_of_lookup_2; exact Hj).
    apply sameValueZero_eq in E. rewrite <- E.
    destruct (sameValueZero (fst e) (id v')) eqn:E'; [|reflexivity].
    rewrite sameValueZero_sym in E'. congruence.
  - cbn [map snd orb]. rewrite (lastOfId_cons_other v' t tracks E).
    rewrite <- app_comm_cons. f_equal. now apply IH.
Qed.

(** [new Map(...)] continued from the entries [m], in the terms of
    [deduplicated]: the entries of [m] end with the last record of their
    id, and after them come the deduplicated records of the new ids. *)
Lemma buildMap_deduplicated tracks : forall m,
  keyed m -> distinctKeys m ->
  map snd (buildMap tracks m)
  = (map (fun e => lastOfId (snd e) tracks) m
     ++ filter (fun t => fresh (map fst m) (id t)) (deduplicated tracks))%list.
Proof.
  induction tracks as [|t tracks IH]; intros m Hk Hd.
  - simpl. now rewrite app_nil_r.
  - change (buildMap (t :: tracks) m)
      with (buildMap tracks (mapSet (id t) t m)).
    rewrite IH by (auto using mapSet_keyed, mapSet_distinctKeys).
    rewrite mapSet_lastOfId, mapSet_keys by assumption.
    simpl deduplicated.
    destruct (existsb (fun k' => sameValueZero k' (id t)) (map fst m)) eqn:E.
    + rewrite app_nil_r. f_equal.
      rewrite filter_cons_False
        by (unfold fresh; rewrite lastOfId_id; congruence).
      rewrite list_filter_filter.
      apply list_filter_iff. intros u. split; [|tauto].
      intros Hu. split; [assumption|].
      apply (not_fresh_absorbs (map fst m)); [unfold fresh; congruence|easy].
    + rewrite filter_cons_True by (unfold fresh; now rewrite lastOfId_id).
      rewrite list_filter_filter, <- app_assoc. simpl. f_equal. f_equal.
      apply list_filter_iff. intros u. apply fresh_snoc.
Qed.

(** The [Map] of the code removes duplicates as [deduplicated] says. *)
Lemma uniqueTracks_deduplicated tracks :
  uniqueTracks tracks = deduplicated tracks.
Proof.
  rewrite uniqueTracks_buildMap, buildMap_deduplicated.
  - simpl. induction (deduplicated tracks) as [|a l IH]; [reflexivity|].
    rewrite filter_cons_True by reflexivity. now f_equal.
  - constructor.
  - intros i j e1 e2 _ H. rewrite lookup_nil in H. discriminate.
Qed.


(** ** The result cache at later times *)

(** A call never removes or replaces an entry of the result cache. *)
Lemma cached_stays env fetch mood market playlistLimit trackLimit s c s1
    key r :
  memoising env fetch ->
  fetch mood market playlistLimit trackLimit s = (c, s1) ->
  cache s !! key = Some r -> cache s1 !! key = Some r.
Proof.
  intros Hf Hcall Hkey.
  specialize (Hf mood market playlistLimit trackLimit s).
  destruct (cache s !! cacheKey mood market) as [r0|] eqn:E.
  - rewrite Hf in Hcall. now inversion Hcall; subst.
  - destruct (Hf c s1 Hcall)
      as [tracks s1 _ _ Hc _ | s1 _ Hc _ _ | e s1 Q _].
    + rewrite Hc. rewrite lookup_insert_ne; [assumption|]. congruence.
    + now rewrite Hc.
    + now rewrite (quiet_cache _ _ Q).
Qed.

Lemma laterOn_cached env fetch s s' key r :
  memoising env fetch -> laterOn fetch s s' ->
  cache s !! key = Some r -> cache s' !! key = Some r.
Proof.
  intros Hf Hl Hkey. induction Hl as [|s' mood market pl tl c s'' _ IH Hcall].
  - assumption.
  - eapply cached_stays; eassumption.
Qed.

(** A call of [Proxy] that misses the cache sends at least one request. *)
Lemma Proxy_miss_sends env mood market playlistLimit trackLimit s c s1 :
  cache s !! cacheKey mood market = None ->
  Proxy.fetchSongsByMood env mood market playlistLimit trackLimit s = (c, s1) ->
  exists req more, requests s1 = (requests s ++ req :: more)%list.
Proof.
  intros Hmiss. unfold Proxy.fetchSongsByMood.
  step (cacheGet_run (cacheKey mood market) s). rewrite Hmiss.
  match goal with |- tryCatch (bind (axiosGet env ?rq) ?k) ?h s = _ -> _ =>
    destruct (axiosGet env rq s) as [[d|e] s2] eqn:Es;
    pose proof (axiosGet_requests _ _ _ _ _ Es) as Hreq;
    [rewrite (tryCatch_bind_ok _ k h _ _ _ Es)
    |rewrite (tryCatch_bind_throw _ k h _ _ _ Es)]
  end; intros Hrest.
  - assert (Hg : requests s2 `prefix_of` requests s1).
    { revert Hrest. generalize s2 c s1.
      change (growing (tryCatch
        (playlists <- lift (Proxy.playlistItems d) ;;
         tracks <- Proxy.fetchAllTracks env market trackLimit playlists ;;
         r <- alloc (uniqueTracks tracks) ;;
         cacheSet (cacheKey mood market) r ;;; ret r)
        (fun _ =>
           consoleWrite LError "Error fetching songs via Netlify Function:" ;;;
           alloc []))).
      apply growing_tryCatch; [|intros; apply growing_bind;
        [apply growing_quiet, Quiet_consoleWrite|intros; apply growing_alloc]].
      apply growing_bind; [apply growing_quiet, Quiet_lift|intros].
      apply growing_bind;
        [apply growing_quiet, Quiet_Proxy_fetchAllTracks|intros].
      apply growing_bind; [apply growing_alloc|intros].
      apply growing_bind; [apply growing_cacheSet|intros].
      apply growing_quiet, Quiet_ret. }
    destruct Hg as [more Hmore]. rewrite Hmore, Hreq, <- app_assoc.
    simpl. eauto.
  - assert (Hg : requests s2 `prefix_of` requests s1).
    { revert Hrest. unfold bind, consoleWrite, alloc.
      intros [= _ <-]. reflexivity. }
    destruct Hg as [more Hmore]. rewrite Hmore, Hreq, <- app_assoc.
    simpl. eauto.
Qed.

Lemma lenient_miss_sends env fetch mood market playlistLimit trackLimit
    s c s1 :
  lenient env fetch ->
  cache s !! cacheKey mood market = None ->
  fetch mood market playlistLimit trackLimit s = (c, s1) ->
  exists req more, requests s1 = (requests s ++ req :: more)%list.
Proof.
  intros [-> | ->]; [apply Prod_miss_sends|apply Proxy_miss_sends].
Qed.

(** C1, as the code has it. Take either service that memoises behind a
    lenient [catch] ([Prod], part_008, or [Proxy], part_003), and a call
    of [fetchSongsByMood(mood, market, ...)] that returned a list, [r].
    If the call reported no error (it returned from the cache or from the
    end of its [try] block), then at any later time, whatever calls have
    been made in between, a call with the same mood and market, whatever
    its limits, returns the very same reference [r] and leaves the whole
    state unchanged: no request of any kind is sent. If the call reported
    an error (it returned from its [catch]), [r] is a new list, empty, and
    the cache is as it was, without the key: the next call with the same
    mood and market does not return [r], and it sends at least one
    request. *)
Theorem cache_fast_path env fetch mood market playlistLimit trackLimit
    playlistLimit' trackLimit' s0 r s1 :
  lenient env fetch ->
  fetch mood market playlistLimit trackLimit s0 = (Ok r, s1) ->
  (errorsLogged s1 = errorsLogged s0 ->
   forall s2, laterOn fetch s1 s2 ->
     fetch mood market playlistLimit' trackLimit' s2 = (Ok r, s2)) /\
  (errorsLogged s1 <> errorsLogged s0 ->
   heap s0 !! r = None /\ heap s1 !! r = Some [] /\
   cache s1 = cache s0 /\ cache s1 !! cacheKey mood market = None /\
   forall c s2,
     fetch mood market playlistLimit' trackLimit' s1 = (c, s2) ->
     c <> Ok r /\
     exists req more, requests s2 = (requests s1 ++ req :: more)%list).
Proof.
  intros Hl Hcall. pose proof (lenient_memoising _ _ Hl) as Hf. split.
  - intros Herr s2 Hlater.
    pose proof (completed_is_cached _ _ _ _ _ _ _ _ _ Hf Hcall Herr) as Hc.
    apply (laterOn_cached _ _ _ _ _ _ Hf Hlater) in Hc.
    specialize (Hf mood market playlistLimit' trackLimit' s2).
    now rewrite Hc in Hf.
  - intros Herr.
    pose proof (Hf mood market playlistLimit trackLimit s0) as H0.
    destruct (cache s0 !! cacheKey mood market) as [r0|] eqn:E0.
    { rewrite H0 in Hcall. inversion Hcall; subst. congruence. }
    specialize (H0 _ _ Hcall).
    inversion H0 as [tracks s1' _ _ _ He | s1' Hh Hc _ _ | ]; subst;
      [congruence|].
    assert (Hmiss : cache s1 !! cacheKey mood market = None)
      by (now rewrite Hc).
    split; [now apply lookup_ge_None_2|].
    split; [rewrite Hh; apply lookup_new_array|].
    split; [assumption|]. split; [assumption|].
    intros c s2 Hnext. split.
    + pose proof (Hf mood market playlistLimit' trackLimit' s1) as H1.
      rewrite Hmiss in H1. specialize (H1 _ _ Hnext).
      inversion H1; subst; try discriminate;
        rewrite Hh, length_app; simpl; intros [=]; lia.
    + eapply lenient_miss_sends; eassumption.
Qed.

(** ** Witnesses and counterexamples *)

Lemma cache_fast_path_witness :
  Prod.fetchSongsByMood exampleHost "happy" "US" 3 7
    (snd (Prod.fetchSongsByMood exampleHost "sad" "GB" 5 10
            (snd (Prod.fetchSongsByMood exampleHost "happy" "US" 5 10
                    initialState))))
  = (Ok 0%nat,
     snd (Prod.fetchSongsByMood exampleHost "sad" "GB" 5 10
            (snd (Prod.fetchSongsByMood exampleHost "happy" "US" 5 10
                    initialState)))) /\
  cache (snd (Proxy.fetchSongsByMood nullBodyHost "happy" "US" 5 10
                initialState)) !! cacheKey "happy" "US" = None.
Proof.
  split.
  - apply (proj1 (cache_fast_path exampleHost
                    (Prod.fetchSongsByMood exampleHost)
                    "happy" "US" 5 10 3 7 initialState 0%nat
                    (snd (Prod.fetchSongsByMood exampleHost "happy" "US" 5 10
                            initialState))
                    (or_introl eq_refl)
                    ltac:(vm_compute; reflexivity))).
    + vm_compute. reflexivity.
    + eapply laterOn_call; [apply laterOn_now|]. apply surjective_pairing.
  - apply (proj2 (cache_fast_path nullBodyHost
                    (Proxy.fetchSongsByMood nullBodyHost)
                    "happy" "US" 5 10 5 10 initialState 0%nat
                    (snd (Proxy.fetchSongsByMood nullBodyHost "happy" "US"
                            5 10 initialState))
                    (or_intror eq_refl)
                    ltac:(vm_compute; reflexivity))).
    vm_compute. discriminate.
Defined.

(** C1 as stated fails: a call whose search reply is [null] completes with
    a list, all of its requests having succeeded, and the second call with
    the same mood and market sends a request again and returns another
    list object. *)
Lemma cache_fast_path_counterexample :
  fst (Proxy.fetchSongsByMood nullBodyHost "happy" "US" 5 10 initialState)
  = Ok 0%nat /\
  fst (Proxy.fetchSongsByMood nullBodyHost "happy" "US" 5 10
         (snd (Proxy.fetchSongsByMood nullBodyHost "happy" "US" 5 10
                 initialState)))
  = Ok 1%nat /\
  length (requests (snd (Proxy.fetchSongsByMood nullBodyHost "happy" "US" 5 10
                           initialState))) = 1%nat /\
  length (requests
            (snd (Proxy.fetchSongsByMood nullBodyHost "happy" "US" 5 10
                    (snd (Proxy.fetchSongsByMood nullBodyHost "happy" "US"
                            5 10 initialState))))) = 2%nat /\
  fst (Prod.fetchSongsByMood nullBodyHost "happy" "US" 5 10 initialState)
  = Ok 0%nat /\
  fst (Prod.fetchSongsByMood nullBodyHost "happy" "US" 5 10
         (snd (Prod.fetchSongsByMood nullBodyHost "happy" "US" 5 10
                 initialState)))
  = Ok 1%nat /\
  length (requests (snd (Prod.fetchSongsByMood nullBodyHost "happy" "US" 5 10
                           initialState))) = 2%nat /\
  length (requests
            (snd (Prod.fetchSongsByMood nullBodyHost "happy" "US" 5 10
                    (snd (Prod.fetchSongsByMood nullBodyHost "happy" "US"
                            5 10 initialState))))) = 3%nat.
Proof. repeat split; vm_compute; reflexivity. Qed.

Lemma cache_key_collision_witness :
  ("a_b", "C") <> ("a", "b_C") /\
  cacheKey "a_b" "C" = cacheKey "a" "b_C" /\
  Proxy.fetchSongsByMood exampleHost "a" "b_C" 5 10
    (snd (Proxy.fetchSongsByMood exampleHost "a_b" "C" 5 10 initialState))
  = (Ok 0%nat,
     snd (Proxy.fetchSongsByMood exampleHost "a_b" "C" 5 10 initialState)).
Proof.
  apply (cache_key_collision exampleHost (Proxy.fetchSongsByMood exampleHost)
           "a_b" "C" "a" "b_C" 5 10 5 10 initialState).
  - right. reflexivity.
  - reflexivity.
  - vm_compute. reflexivity.
  - vm_compute. reflexivity.
Defined.

Lemma returned_ids_distinct_witness :
  exists l,
    heap (snd (Prod.fetchSongsByMood exampleHost "happy" "US" 5 10
                 initialState)) !! 0%nat = Some l /\ distinctIds l.
Proof.
  apply (proj2 (returned_ids_distinct exampleHost
                  (Prod.fetchSongsByMood exampleHost) initialState
                  (or_introl eq_refl) (reachable_initial _))
           "happy" "US" 5 10).
  vm_compute. reflexivity.
Defined.

Lemma returned_titles_unblocked_witness :
  exists l,
    heap (snd (Prod.fetchSongsByMood exampleHost "happy" "US" 5 10
                 initialState)) !! 0%nat = Some l /\
    forall t kw, t ∈ l -> In kw BLOCKED_KEYWORDS ->
      includes (asciiLower (title t)) kw = false.
Proof.
  apply (proj1 (returned_titles_unblocked exampleHost initialState
                  (reachable_initial _))
           "happy" "US" 5 10).
  vm_compute. reflexivity.
Defined.

(** C4 as stated fails: of two records with the id "t2", the one that
    survives carries the title of the second, not of the first. *)
Lemma duplicates_keep_first_value_counterexample :
  uniqueTracks [firstRecord; secondRecord] = [secondRecord] /\
  keepFirst [firstRecord; secondRecord] = [firstRecord] /\
  title secondRecord <> title firstRecord.
Proof.
  split; [reflexivity|]. split; [reflexivity|]. discriminate.
Qed.

(** C9 as stated fails for [getAccessToken]: a token kept until 100000 is
    still served at 50000, inside its last minute, where the specification
    has it exchanged; and a new token granted for 3600 s at time 0 is stored with
    the expiry 3540000, not 3600000. *)
Lemma token_cache_counterexample :
  ~ tokenCacheSpec exampleHost (Server.getAccessToken exampleHost)
      (Post "https://accounts.spotify.com/api/token"
         (Some ("Basic " ++ basicAuth exampleHost)))
      (Error "Failed to retrieve Spotify access token.")
      validWithBuffer fullLifetime /\
  fst (Server.getAccessToken exampleHost expiringState) = Ok (Some "BQDold") /\
  requests (snd (Server.getAccessToken exampleHost expiringState)) = [] /\
  tokenExpiresAt (snd (Server.getAccessToken exampleHost initialState))
  = 3540000.
Proof.
  split; [|repeat split; reflexivity].
  intros H. specialize (H expiringState). vm_compute in H.
  destruct H as (s1 & H & _). discriminate H.
Qed.

Lemma search_failure_outcomes_witness :
  (exists e s1,
     ProdV2.fetchSongsByMood searchDownHost "happy" "US" 5 10 initialState
     = (Throw e, s1) /\ cache s1 = cache initialState) /\
  (exists s1,
     Prod.fetchSongsByMood searchDownHost "happy" "US" 5 10 initialState
     = (Ok 0%nat, s1) /\
     heap s1 !! 0%nat = Some [] /\ cache s1 = cache initialState /\
     console s1 = [(LError, "Error fetching songs:")]).
Proof.
  split.
  - apply (proj1 (search_failure_outcomes searchDownHost "happy" "US" 5 10
                    initialState networkError
                    (snd (ProdV2.searched searchDownHost "happy" "US" 5
                            initialState))
                    eq_refl)).
    vm_compute. reflexivity.
  - apply (proj1 (proj2 (search_failure_outcomes searchDownHost "happy" "US"
                           5 10 initialState networkError
                           (snd (Prod.searched searchDownHost "happy" "US" 5
                                   initialState))
                           eq_refl))).
    vm_compute. reflexivity.
Defined.

(** C5 as stated fails for [Prod]: with the search endpoint down, the
    search request is rejected, yet the call resolves, with a reference to
    a new empty list; and it does so again when repeated, since nothing was
    cached. *)
Lemma search_failure_counterexample :
  fst (Prod.searched searchDownHost "happy" "US" 5 initialState)
  = Throw (AxiosErr networkError) /\
  fst (Prod.fetchSongsByMood searchDownHost "happy" "US" 5 10 initialState)
  = Ok 0%nat /\
  heap (snd (Prod.fetchSongsByMood searchDownHost "happy" "US" 5 10
               initialState)) = [[]] /\
  fst (Prod.fetchSongsByMood searchDownHost "happy" "US" 5 10
         (snd (Prod.fetchSongsByMood searchDownHost "happy" "US" 5 10
                 initialState)))
  = Ok 1%nat.
Proof. repeat split; vm_compute; reflexivity. Qed.

Lemma auth_failure_rejects_witness :
  exists sa,
    Prod.fetchSongsByMood authDownHost "happy" "US" 5 10 initialState
    = (Throw (Error "Spotify authentication failed"), sa) /\
    cache sa = cache initialState.
Proof.
  destruct (auth_failure_rejects authDownHost "happy" "US" 5 10 initialState
              {| ae_message := "Request failed with status code 400";
                 ae_response :=
                   Some (400, JObj [("error", JStr "invalid_client")]) |}
              eq_refl eq_refl eq_refl)
    as (sa & H1 & H2 & _).
  exists sa. split; assumption.
Defined.


Lemma empty_search_gives_empty_list_witness :
  exists r s1,
    Proxy.fetchSongsByMood shapelessHost "happy" "US" 5 10 initialState
    = (Ok r, s1) /\
    heap s1 !! r = Some [] /\
    requests s1
    = requests (snd (Proxy.searched shapelessHost "happy" "US" 5
                       initialState)).
Proof.
  apply (proj2 (empty_search_gives_empty_list shapelessHost "happy" "US" 5 10
                  initialState (JObj [("error", JStr "unexpected")])
                  (snd (Proxy.searched shapelessHost "happy" "US" 5
                          initialState))
                  eq_refl
                  ltac:(intros x l; vm_compute; discriminate))).
  vm_compute. reflexivity.
Defined.

(** ** The examples of the specification *)

(** The end-to-end example: of a birthday song, "Sunshine" twice and
    "Dance Tonight", only "Sunshine" comes back, once. *)
Example specification_example :
  exists s1,
    Prod.fetchSongsByMood exampleHost "happy" "US" 5 10 initialState
    = (Ok 0%nat, s1) /\
    map (fun t => (id t, title t)) <$> heap s1 !! 0%nat
    = Some [(JStr "t2", "Sunshine")].
Proof. eexists. split; vm_compute; reflexivity. Qed.

(** Two playlists with the same track under two titles: the title that
    comes back is the one of the playlist that settled last. *)
Example renamed_track_example :
  map title <$>
    heap (snd (Prod.fetchSongsByMood renamedHost "happy" "US" 5 10
                 initialState)) !! 0%nat
  = Some ["Sunshine - Remastered"].
Proof. vm_compute. reflexivity. Qed.

(** * Further properties *)

(** ** Deduplication, further *)

Lemma keepFirst_covers l t :
  t ∈ l -> exists u, u ∈ keepFirst l /\ id u = id t.
Proof.
  induction l as [|a l IH]; intros Hin; [now apply elem_of_nil in Hin|].
  apply elem_of_cons in Hin as [->|Hin].
  - exists a. split; [simpl; apply elem_of_cons; now left|reflexivity].
  - destruct (IH Hin) as (u & Hu & Hid).
    destruct (sameValueZero (id a) (id u)) eqn:E.
    + exists a. split; [simpl; apply elem_of_cons; now left|].
      apply sameValueZero_eq in E. congruence.
    + exists u. split; [|assumption]. simpl. apply elem_of_cons. right.
      apply list_elem_of_filter. split; assumption.
Qed.

Lemma uniqueTracks_ids l k :
  k ∈ map id (uniqueTracks l) <-> k ∈ map id l.
Proof.
  split.
  - intros H. apply list_elem_of_fmap in H as (u & -> & Hu).
    apply list_elem_of_fmap. exists u. split; [reflexivity|].
    now apply uniqueTracks_subset.
  - intros H. apply list_elem_of_fmap in H as (t & -> & Ht).
    rewrite uniqueTracks_order.
    destruct (keepFirst_covers l t Ht) as (u & Hu & Hid).
    apply list_elem_of_fmap. exists u. split; [now rewrite Hid|assumption].
Qed.

(** X1. Deduplication loses no id and invents none: a value is the id of
    a record of [uniqueTracks l] exactly when it is the id of a record of
    [l]. *)
Theorem uniqueTracks_same_ids l k :
  k ∈ map id (uniqueTracks l) <-> k ∈ map id l.
Proof. apply uniqueTracks_ids. Qed.

Lemma mapSet_fresh k v m :
  fresh (map fst m) k -> mapSet k v m = (m ++ [(k, v)])%list.
Proof.
  unfold fresh. induction m as [|[k' v'] m IH]; simpl; [reflexivity|].
  intros H. apply orb_false_iff in H as [H1 H2]. rewrite H1.
  now rewrite IH.
Qed.

Lemma buildMap_distinct l : forall m,
  distinctIds l ->
  (forall e t, e ∈ m -> t ∈ l -> sameValueZero (fst e) (id t) = false) ->
  buildMap l m = (m ++ map (fun t => (id t, t)) l)%list.
Proof.
  induction l as [|a l IH]; intros m Hd Hm.
  - simpl. now rewrite app_nil_r.
  - change (buildMap (a :: l) m) with (buildMap l (mapSet (id a) a m)).
    rewrite mapSet_fresh.
    + rewrite IH.
      * now rewrite <- app_assoc.
      * intros i j x y Hij Hx Hy. apply (Hd (S i) (S j)); simpl; auto.
      * intros e t He Ht. apply elem_of_app in He as [He|He].
        -- apply Hm; [assumption|apply elem_of_cons; now right].
        -- apply list_elem_of_singleton in He. subst e. simpl.
           apply list_elem_of_lookup_1 in Ht as [j Hj].
           apply (Hd 0%nat (S j)); simpl; auto.
    + unfold fresh.
      destruct (existsb _ _) eqn:E; [|reflexivity].
      apply existsb_exists in E as (k & Hk & Hsame).
      apply in_map_iff in Hk as (e & <- & He).
      rewrite Hm in Hsame; [discriminate|now apply list_elem_of_In|].
      apply elem_of_cons. now left.
Qed.

Lemma uniqueTracks_distinct_id l : distinctIds l -> uniqueTracks l = l.
Proof.
  intros Hd. rewrite uniqueTracks_buildMap, buildMap_distinct.
  - simpl. rewrite map_map. simpl. apply map_id.
  - assumption.
  - intros e t He. now apply elem_of_nil in He.
Qed.

(** X2. Deduplication is idempotent: removing duplicates from a list that
    [uniqueTracks] returned changes nothing. *)
Theorem uniqueTracks_idempotent l :
  uniqueTracks (uniqueTracks l) = uniqueTracks l.
Proof. apply uniqueTracks_distinct_id, uniqueTracks_distinct. Qed.

(** ** Records handed out *)

Lemma accepted_presentable env t : accepted env t -> presentable t.
Proof.
  intros [item H]. revert H. unfold trackOfItem, bindC. intros H.
  destruct (getProp item "track") as [tr|]; [|discriminate].
  destruct (negb (truthy (optProp tr "id"))) eqn:Hid; [discriminate|].
  apply negb_false_iff in Hid.
  destruct (getProp tr "name") as [[| | | |tname| |]|]; try discriminate.
  destruct (isBlocked _); [discriminate|].
  destruct (getProp tr "id") as [tid|] eqn:Etid; [|discriminate].
  assert (Htid : tid = optProp tr "id").
  { destruct tr; simpl in *; try discriminate; congruence. }
  split_matches H. inversion H; subst; simpl. split; [assumption|].
  unfold jsOr. destruct (truthy (optProp _ "url")) eqn:Eu; [|reflexivity].
  destruct (optProp _ "url"); simpl in *; congruence.
Qed.

Lemma builtFromItems_initial env : builtFromItems env initialState.
Proof.
  split; [constructor|]. intros key r H. simpl in H.
  rewrite lookup_empty in H. discriminate.
Qed.

Lemma builtFromItems_call env fetch mood market playlistLimit trackLimit
    s c s1 :
  memoising env fetch ->
  builtFromItems env s ->
  fetch mood market playlistLimit trackLimit s = (c, s1) ->
  builtFromItems env s1 /\
  forall r, c = Ok r ->
    exists l, heap s1 !! r = Some l /\ Forall (accepted env) l.
Proof.
  intros Hf [Hheap Hcache] Hcall.
  specialize (Hf mood market playlistLimit trackLimit s).
  destruct (cache s !! cacheKey mood market) as [r0|] eqn:E.
  - rewrite Hf in Hcall. inversion Hcall; subst.
    split; [now split|]. intros r [= <-].
    destruct (lookup_lt_is_Some_2 _ _ (Hcache _ _ E)) as [l Hl].
    exists l. split; [assumption|].
    rewrite Forall_forall in Hheap. apply Hheap.
    eapply list_elem_of_lookup_2; eassumption.
  - destruct (Hf c s1 Hcall)
      as [tracks s1 Hacc Hh Hc _ | s1 Hh Hc _ _ | e s1 Q _].
    + assert (Hu : Forall (accepted env) (uniqueTracks tracks)).
      { apply Forall_forall. intros t Ht. apply uniqueTracks_subset in Ht.
        rewrite Forall_forall in Hacc. auto. }
      split; [split|].
      * rewrite Hh. apply Forall_app. split; [assumption|].
        constructor; [assumption|constructor].
      * intros key r. rewrite Hc, Hh, length_app. simpl.
        destruct (decide (cacheKey mood market = key)) as [->|Hne].
        -- rewrite lookup_insert_eq. intros [= <-]. lia.
        -- rewrite lookup_insert_ne by assumption.
           intros H. apply Hcache in H. lia.
      * intros r [= <-]. exists (uniqueTracks tracks).
        split; [|assumption]. rewrite Hh. apply lookup_new_array.
    + split; [split|].
      * rewrite Hh. apply Forall_app. split; [assumption|].
        repeat constructor.
      * intros key r. rewrite Hc, Hh, length_app. simpl.
        intros H. apply Hcache in H. lia.
      * intros r [= <-]. exists []. split; [|constructor].
        rewrite Hh. apply lookup_new_array.
    + destruct Q as [Qc Qh _ _ _]. split; [split|].
      * now rewrite Qh.
      * intros key r. rewrite Qc, Qh. apply Hcache.
      * intros r [=].
Qed.

Lemma reachable_builtFromItems env fetch s :
  memoising env fetch -> reachable fetch s -> builtFromItems env s.
Proof.
  intros Hf Hr. induction Hr.
  - apply builtFromItems_initial.
  - eapply builtFromItems_call; eassumption.
Qed.

(** X3. In every state [Prod] or [Proxy] can reach, each record of the
    list a call returns has a truthy id and an album image that is neither
    [null] nor [undefined] (the empty string stands in for a missing
    cover). *)
Theorem returned_records_presentable env fetch s mood market playlistLimit
    trackLimit r s1 :
  lenient env fetch ->
  reachable fetch s ->
  fetch mood market playlistLimit trackLimit s = (Ok r, s1) ->
  exists l, heap s1 !! r = Some l /\ Forall presentable l.
Proof.
  intros Hf Hr Hcall. apply lenient_memoising in Hf.
  pose proof (reachable_builtFromItems env fetch s Hf Hr) as Hb.
  destruct (builtFromItems_call _ _ _ _ _ _ _ _ _ Hf Hb Hcall) as [_ H].
  destruct (H r eq_refl) as (l & Hl & Hacc).
  exists l. split; [assumption|].
  eapply Forall_impl; [exact Hacc|]. intros t. apply accepted_presentable.
Qed.

(** X7. Genres of the drop-down. Every option of the mood form is a
    blocked keyword, so in every state [Prod] can reach, a call made for an
    option of the form returns no track whose lower-cased title contains
    that option. *)
Theorem selected_genre_never_in_titles env s mood market playlistLimit
    trackLimit r s1 :
  In mood moodOptions ->
  reachable (Prod.fetchSongsByMood env) s ->
  Prod.fetchSongsByMood env mood market playlistLimit trackLimit s
  = (Ok r, s1) ->
  exists l, heap s1 !! r = Some l /\
    forall t, t ∈ l -> includes (toLowerCase env (title t)) mood = false.
Proof.
  intros Hmood Hr Hcall.
  pose proof (reachable_wellFormed env _ s (Prod_memoising env) Hr) as Hwf.
  destruct (returned_wellFormed _ _ _ _ _ _ _ _ _
              (Prod_memoising env) Hwf Hcall) as (l & Hl & _ & Hu).
  exists l. split; [assumption|]. intros t Ht.
  rewrite Forall_forall in Hu. apply (Hu t Ht). now right.
Qed.

Lemma returned_records_presentable_witness :
  exists l,
    heap (snd (Prod.fetchSongsByMood exampleHost "happy" "US" 5 10
                 initialState)) !! 0%nat = Some l /\
    Forall presentable l.
Proof.
  apply (returned_records_presentable exampleHost
           (Prod.fetchSongsByMood exampleHost) initialState
           "happy" "US" 5 10 0%nat _ (or_introl eq_refl)
           (reachable_initial _)).
  vm_compute. reflexivity.
Defined.

Lemma selected_genre_never_in_titles_witness :
  exists l,
    heap (snd (Prod.fetchSongsByMood exampleHost "happy" "US" 5 10
                 initialState)) !! 0%nat = Some l /\
    forall t, t ∈ l -> includes (asciiLower (title t)) "happy" = false.
Proof.
  apply (selected_genre_never_in_titles exampleHost initialState
           "happy" "US" 5 10 0%nat _
           ltac:(unfold moodOptions; repeat (try (left; reflexivity); right))
           (reachable_initial _)).
  vm_compute. reflexivity.
Defined.

(** ** Pages, in [Prod] and in [Proxy] *)



(** ** The order of the result *)

Lemma settleOrder_sorted_id l : settleSorted l -> settleOrder l = l.
Proof.
  unfold settleSorted. induction 1 as [|p rest Hs IH Hp]; [reflexivity|].
  simpl. rewrite IH. now apply insertSettled_head.
Qed.

(** ** The scheduler and [Proxy] *)

Lemma sameButConsole_refl s : sameButConsole s s.
Proof. repeat split. Qed.

Lemma sameButConsole_sym s s' : sameButConsole s s' -> sameButConsole s' s.
Proof. unfold sameButConsole. intuition congruence. Qed.

Lemma sameButConsole_trans s1 s2 s3 :
  sameButConsole s1 s2 -> sameButConsole s2 s3 -> sameButConsole s1 s3.
Proof. unfold sameButConsole. intuition congruence. Qed.

Lemma warnAll_sameButConsole env settled : forall s c s',
  Proxy.warnAll env settled s = (c, s') -> c = Ok tt /\ sameButConsole s s'.
Proof.
  induction settled as [|p rest IH]; intros s c s'; simpl.
  - intros [= <- <-]. split; [reflexivity|apply sameButConsole_refl].
  - unfold bind, Proxy.warnIfFailed.
    destruct (Proxy.tracksOf env p); simpl.
    + apply IH.
    + intros H. apply IH in H as [-> H]. split; [reflexivity|].
      eapply sameButConsole_trans; [|exact H]. repeat split.
Qed.

(** Sending under another scheduler: the same requests, the same replies,
    the same state; only the settle times differ. *)
Lemma sendAll_withLatency env lat request playlists : forall s,
  exists pending pending' s',
    sendAll env request playlists s = (Ok pending, s') /\
    sendAll (withLatency lat env) request playlists s = (Ok pending', s') /\
    map reply pending' = map reply pending.
Proof.
  induction playlists as [|pl rest IH]; intros s; simpl.
  - exists [], [], s. repeat split.
  - destruct (negb (truthy (optProp pl "id"))); [apply IH|].
    unfold bind, sendGet. simpl.
    match goal with |- context [sendAll env request rest ?s1] =>
      destruct (IH s1) as (ps & ps' & s2 & E & E' & Hr) end.
    rewrite E, E'. do 3 eexists. split; [reflexivity|].
    split; [reflexivity|]. simpl. now rewrite Hr.
Qed.

Lemma contribution_withLatency env lat p p' :
  reply p' = reply p ->
  Proxy.contribution (withLatency lat env) p' = Proxy.contribution env p.
Proof.
  intros H. unfold Proxy.contribution, Proxy.tracksOf. now rewrite H.
Qed.

Lemma contributions_withLatency env lat pending pending' :
  map reply pending' = map reply pending ->
  concat (map (Proxy.contribution (withLatency lat env)) pending')
  = concat (map (Proxy.contribution env) pending).
Proof.
  revert pending'. induction pending as [|p ps IH]; intros [|p' ps'];
    simpl; try discriminate; [reflexivity|].
  intros [= Hp Hps]. rewrite (IH _ Hps).
  now rewrite (contribution_withLatency env lat p p' Hp).
Qed.

(** X6. The scheduler does not decide what [Proxy] returns. Under any
    other latencies of the host, a call of [Proxy] from the same state
    gives the same completion and the same state but for the console: the
    same reference, the same list behind it, the same cache and the same
    requests. Only the order of the warnings can differ. *)
Theorem Proxy_result_independent_of_latency env lat mood market
    playlistLimit trackLimit s :
  fst (Proxy.fetchSongsByMood (withLatency lat env) mood market
         playlistLimit trackLimit s)
  = fst (Proxy.fetchSongsByMood env mood market playlistLimit trackLimit s)
  /\
  sameButConsole
    (snd (Proxy.fetchSongsByMood (withLatency lat env) mood market
            playlistLimit trackLimit s))
    (snd (Proxy.fetchSongsByMood env mood market playlistLimit trackLimit s)).
Proof.
  unfold Proxy.fetchSongsByMood.
  rewrite !(bind_ok _ _ _ _ _ (cacheGet_run (cacheKey mood market) s)).
  destruct (cache s !! cacheKey mood market) as [r|].
  { split; [reflexivity|apply sameButConsole_refl]. }
  change (axiosGet (withLatency lat env)) with (axiosGet env).
  destruct (axiosGet env (Proxy.searchRequest mood market playlistLimit) s)
    as [[searchData|e] s2] eqn:Es.
  2:{ rewrite !(tryCatch_bind_throw _ _ _ _ _ _ Es).
      split; [reflexivity|apply sameButConsole_refl]. }
  rewrite !(tryCatch_bind_ok _ _ _ _ _ _ Es).
  destruct (Proxy.playlistItems searchData) as [playlists|e] eqn:Ep.
  2:{ rewrite !(tryCatch_bind_throw _ _ _ _ _ _ (lift_run (Throw e) s2)).
      split; [reflexivity|apply sameButConsole_refl]. }
  rewrite !(tryCatch_bind_ok _ _ _ _ _ _ (lift_run (Ok playlists) s2)).
  destruct (sendAll_withLatency env lat
              (Proxy.tracksRequest env market trackLimit) playlists s2)
    as (ps & ps' & s3 & E & E' & Hr).
  destruct (Proxy.warnAll env (settleOrder ps) s3) as [c4 s4] eqn:W.
  destruct (Proxy.warnAll (withLatency lat env) (settleOrder ps') s3)
    as [c4' s4'] eqn:W'.
  pose proof (warnAll_sameButConsole _ _ _ _ _ W) as [-> S4].
  pose proof (warnAll_sameButConsole _ _ _ _ _ W') as [-> S4'].
  assert (F : Proxy.fetchAllTracks env market trackLimit playlists s2
              = (Ok (concat (map (Proxy.contribution env) ps)), s4)).
  { unfold Proxy.fetchAllTracks.
    rewrite (bind_ok _ _ _ _ _ E), (bind_ok _ _ _ _ _ W). reflexivity. }
  assert (F' : Proxy.fetchAllTracks (withLatency lat env) market trackLimit
                 playlists s2
               = (Ok (concat (map (Proxy.contribution env) ps)), s4')).
  { unfold Proxy.fetchAllTracks.
    change (Proxy.tracksRequest (withLatency lat env))
      with (Proxy.tracksRequest env).
    rewrite (bind_ok _ _ _ _ _ E'), (bind_ok _ _ _ _ _ W').
    unfold ret. now rewrite (contributions_withLatency env lat ps ps' Hr). }
  rewrite (tryCatch_bind_ok _ _ _ _ _ _ F),
    (tryCatch_bind_ok _ _ _ _ _ _ F').
  assert (S : sameButConsole s4' s4)
    by (eapply sameButConsole_trans;
        [apply sameButConsole_sym; exact S4'|exact S4]).
  unfold tryCatch, bind, alloc, cacheSet, ret. simpl.
  destruct S as (Ha & He & Hc & Hh & Hq & Ht).
  rewrite Hh. split; [reflexivity|].
  repeat split; simpl; congruence.
Qed.

(** ** Substrings and the block list *)

Lemma append_nil (b : string) : "" ++ b = b.
Proof. reflexivity. Qed.

Lemma append_cons c (a b : string) : String c a ++ b = String c (a ++ b).
Proof. reflexivity. Qed.

Lemma prefix_spec k s :
  String.prefix k s = true <-> exists post, s = k ++ post.
Proof.
  revert s. induction k as [|c k IH]; intros s.
  - split; [intros _; now exists s|intros _; now destruct s].
  - destruct s as [|d s]; simpl;
      [split; [discriminate|intros [post [=]]]|].
    destruct (Ascii.ascii_dec c d) as [->|Hne].
    + rewrite IH. split; intros [post H]; exists post;
        rewrite append_cons in *; congruence.
    + split; [discriminate|]. intros [post [= ? _]]. congruence.
Qed.

(** [includes s kw] holds exactly when [kw] occurs in [s]. *)
Lemma includes_spec s kw :
  includes s kw = true <-> exists pre post, s = pre ++ kw ++ post.
Proof.
  induction s as [|c s IH].
  - change (includes "" kw) with (String.prefix kw "" || false).
    rewrite orb_false_r, prefix_spec. split.
    + intros [post H]. now exists "", post.
    + intros (pre & post & H). destruct pre as [|? ?]; [|discriminate].
      now exists post.
  - change (includes (String c s) kw)
      with (String.prefix kw (String c s) || includes s kw).
    rewrite orb_true_iff, prefix_spec, IH. split.
    + intros [[post H]|(pre & post & H)].
      * now exists "", post.
      * exists (String c pre), post. rewrite append_cons. now rewrite H.
    + intros (pre & post & H). destruct pre as [|d pre].
      * left. now exists post.
      * right. exists pre, post. rewrite append_cons in H. congruence.
Qed.

Lemma string_app_assoc (a b c : string) : (a ++ b) ++ c = a ++ b ++ c.
Proof.
  induction a as [|x a IH]; [reflexivity|].
  now rewrite !append_cons, IH.
Qed.

Lemma includes_trans s kw kw' :
  includes s kw = true -> includes kw kw' = true -> includes s kw' = true.
Proof.
  rewrite !includes_spec. intros (p1 & q1 & ->) (p2 & q2 & ->).
  exists (p1 ++ p2), (q2 ++ q1).
  now rewrite !string_app_assoc.
Qed.

(** X8. The entry "happy birthday" of the block list never decides: a
    name is blocked exactly when it contains one of the genre keywords,
    which are the options of the mood form. *)
Theorem happy_birthday_is_subsumed name :
  isBlocked name = existsb (fun kw => includes name kw) moodOptions.
Proof.
  change (isBlocked name)
    with (includes name "happy birthday"
          || existsb (fun kw => includes name kw) moodOptions).
  destruct (includes name "happy birthday") eqn:E; [|reflexivity].
  symmetry. apply existsb_exists. exists "happy". split.
  - unfold moodOptions. repeat (try (left; reflexivity); right).
  - eapply includes_trans; [exact E|reflexivity].
Qed.

(** ** The later production service *)

Lemma ProdV2_miss_steps env mood market playlistLimit trackLimit s :
  cache s !! cacheKey mood market = None ->
  ProdV2.fetchSongsByMood env mood market playlistLimit trackLimit s
  = tryCatch
      (tracks <- ProdV2Steps.collected env mood market playlistLimit
                   trackLimit ;;
       ProdV2Steps.stored env mood market tracks)
      (ProdV2.fetchFailure env) s.
Proof.
  intros Hmiss. unfold ProdV2.fetchSongsByMood.
  step (cacheGet_run (cacheKey mood market) s). rewrite Hmiss.
  unfold ProdV2Steps.collected, ProdV2Steps.stored, tryCatch, bind.
  repeat match goal with
         | |- context [match ?m ?st with _ => _ end] =>
             destruct (m st) as [[?|?] ?]
         end; reflexivity.
Qed.

Lemma Quiet_ProdV2_collected env mood market playlistLimit trackLimit :
  Quiet (ProdV2Steps.collected env mood market playlistLimit trackLimit).
Proof.
  unfold ProdV2Steps.collected.
  pose proof (Quiet_ProdV2_authenticateSpotify env).
  pose proof (Quiet_fetchAllTracks env).
  quiet_steps.
Qed.

(** The ways a call of [ProdV2] that misses the cache can end: with the
    list of unique tracks stored under the key, or with an exception that
    is the generic error or passes through, nothing stored. *)
Lemma ProdV2_miss env mood market playlistLimit trackLimit s c s1 :
  cache s !! cacheKey mood market = None ->
  ProdV2.fetchSongsByMood env mood market playlistLimit trackLimit s = (c, s1) ->
  (exists tracks,
     c = Ok (length (heap s)) /\
     heap s1 = (heap s ++ [uniqueTracks tracks])%list /\
     cache s1 = <[cacheKey mood market := length (heap s)]> (cache s)) \/
  (exists e,
     c = Throw e /\ quiet s s1 /\
     (passesThrough env e = true \/ e = genericFailure)).
Proof.
  intros Hmiss. rewrite ProdV2_miss_steps by assumption.
  unfold tryCatch, bind.
  destruct (ProdV2Steps.collected env mood market playlistLimit trackLimit s)
    as [[tracks|e] s4] eqn:E4;
    apply Quiet_ProdV2_collected in E4 as Q4.
  - unfold ProdV2Steps.stored, bind, alloc, consoleWrite, cacheSet, ret.
    simpl. intros [= <- <-]. left. exists tracks. simpl.
    now rewrite (quiet_heap _ _ Q4), (quiet_cache _ _ Q4).
  - unfold ProdV2.fetchFailure, bind, consoleWrite, throw.
    fold (passesThrough env e).
    destruct (passesThrough env e) eqn:P; intros [= <- <-]; right.
    + exists e. split; [reflexivity|]. split; [|now left].
      etransitivity; [exact Q4|]. split; try reflexivity.
      simpl. now apply prefix_app_r.
    + exists genericFailure. split; [reflexivity|]. split; [|now right].
      etransitivity; [exact Q4|]. split; try reflexivity.
      simpl. now apply prefix_app_r.
Qed.

(** A hit of [ProdV2] says so on the console and does nothing else. *)
Lemma ProdV2_hit env mood market playlistLimit trackLimit s r :
  cache s !! cacheKey mood market = Some r ->
  ProdV2.fetchSongsByMood env mood market playlistLimit trackLimit s
  = (Ok r,
     withConsole
       (console s ++ [(LLog, "🎵 MusicAI: Using cached results for")]) s).
Proof.
  intros H. unfold ProdV2.fetchSongsByMood.
  step (cacheGet_run (cacheKey mood market) s). now rewrite H.
Qed.

Lemma ProdV2_cached_stays env mood market playlistLimit trackLimit s c s1
    key r :
  ProdV2.fetchSongsByMood env mood market playlistLimit trackLimit s = (c, s1) ->
  cache s !! key = Some r -> cache s1 !! key = Some r.
Proof.
  intros Hcall Hkey.
  destruct (cache s !! cacheKey mood market) as [r0|] eqn:E.
  - rewrite (ProdV2_hit _ _ _ _ _ _ _ E) in Hcall. now inversion Hcall; subst.
  - destruct (ProdV2_miss _ _ _ _ _ _ _ _ E Hcall)
      as [(tracks & _ & _ & Hc)|(e & _ & Q & _)].
    + rewrite Hc, lookup_insert_ne; [assumption|congruence].
    + now rewrite (quiet_cache _ _ Q).
Qed.

Lemma ProdV2_laterOn_cached env s s' key r :
  laterOn (ProdV2.fetchSongsByMood env) s s' ->
  cache s !! key = Some r -> cache s' !! key = Some r.
Proof.
  intros Hl Hkey. induction Hl as [|s' mood market pl tl c s'' _ IH Hcall].
  - assumption.
  - eapply ProdV2_cached_stays; eassumption.
Qed.

(** X9. In the later production service (part_001) every list a call
    returns is cached: at any later time a call with the same mood and
    market returns the very same reference and sends no request; all it
    does is write one line to the console. *)
Theorem ProdV2_returned_list_is_cached env mood market playlistLimit
    trackLimit playlistLimit' trackLimit' s0 r s1 s2 :
  ProdV2.fetchSongsByMood env mood market playlistLimit trackLimit s0
  = (Ok r, s1) ->
  laterOn (ProdV2.fetchSongsByMood env) s1 s2 ->
  ProdV2.fetchSongsByMood env mood market playlistLimit' trackLimit' s2
  = (Ok r,
     withConsole
       (console s2 ++ [(LLog, "🎵 MusicAI: Using cached results for")]) s2).
Proof.
  intros Hcall Hlater. apply ProdV2_hit.
  apply (ProdV2_laterOn_cached _ _ _ _ _ Hlater).
  destruct (cache s0 !! cacheKey mood market) as [r0|] eqn:E.
  - rewrite (ProdV2_hit _ _ _ _ _ _ _ E) in Hcall.
    inversion Hcall; subst. assumption.
  - destruct (ProdV2_miss _ _ _ _ _ _ _ _ E Hcall)
      as [(tracks & [= ->] & _ & Hc)|(e & [=] & _)].
    rewrite Hc. apply lookup_insert_eq.
Qed.

Lemma ProdV2_returned_list_is_cached_witness :
  fst (ProdV2.fetchSongsByMood exampleHost "happy" "US" 3 7
         (snd (ProdV2.fetchSongsByMood exampleHost "sad" "GB" 5 10
                 (snd (ProdV2.fetchSongsByMood exampleHost "happy" "US" 5 10
                         initialState)))))
  = Ok 0%nat.
Proof.
  rewrite (ProdV2_returned_list_is_cached exampleHost "happy" "US" 5 10 3 7
             initialState 0%nat
             (snd (ProdV2.fetchSongsByMood exampleHost "happy" "US" 5 10
                     initialState))
             (snd (ProdV2.fetchSongsByMood exampleHost "sad" "GB" 5 10
                     (snd (ProdV2.fetchSongsByMood exampleHost "happy" "US"
                             5 10 initialState))))).
  - reflexivity.
  - vm_compute. reflexivity.
  - eapply laterOn_call; [apply laterOn_now|]. apply surjective_pairing.
Defined.

(** X10. Whatever goes wrong in a call of the later production service
    (part_001), the call rejects, nothing is cached and no list is handed
    out, and the error the caller sees is either one whose message contains
    "configuration error" or "authentication failed", passed on as it
    was thrown, or the generic error "Failed to fetch music
    recommendations. Please try again later.". *)
Theorem ProdV2_rejections env mood market playlistLimit trackLimit s e s1 :
  ProdV2.fetchSongsByMood env mood market playlistLimit trackLimit s
  = (Throw e, s1) ->
  cache s1 = cache s /\ heap s1 = heap s /\
  cache s !! cacheKey mood market = None /\
  (passesThrough env e = true \/ e = genericFailure).
Proof.
  intros Hcall.
  destruct (cache s !! cacheKey mood market) as [r0|] eqn:E.
  - rewrite (ProdV2_hit _ _ _ _ _ _ _ E) in Hcall. discriminate.
  - destruct (ProdV2_miss _ _ _ _ _ _ _ _ E Hcall)
      as [(tracks & [=] & _)|(e' & [= <-] & Q & He)].
    repeat split; try apply Q; assumption.
Qed.

Lemma ProdV2_rejections_witness :
  cache (snd (ProdV2.fetchSongsByMood authDownHost "happy" "US" 5 10
                initialState)) = cache initialState /\
  heap (snd (ProdV2.fetchSongsByMood authDownHost "happy" "US" 5 10
               initialState)) = heap initialState /\
  cache initialState !! cacheKey "happy" "US" = None /\
  (passesThrough authDownHost
     (Error "Spotify authentication failed. Please check if Spotify API credentials are configured correctly.")
   = true \/
   Error "Spotify authentication failed. Please check if Spotify API credentials are configured correctly."
   = genericFailure).
Proof.
  apply (ProdV2_rejections authDownHost "happy" "US" 5 10 initialState).
  vm_compute. reflexivity.
Defined.

Lemma ProdV2_auth_rejected env s err :
  tokenTruthy (accessToken s)
  && validWithBuffer (clock env (ticks s)) (tokenExpiresAt s) = false ->
  tokenEndpoint env (requests s) (Post "/.netlify/functions/spotify-auth" None)
  = Reject err ->
  exists sa,
    ProdV2.authenticateSpotify env s = (Throw (authError env err), sa) /\
    requests sa
    = (requests s ++ [Post "/.netlify/functions/spotify-auth" None])%list /\
    quiet s sa.
Proof.
  intros Hstale Hreject.
  assert (Q : forall sa c, ProdV2.authenticateSpotify env s = (c, sa) ->
                           quiet s sa)
    by (intros sa c; apply Quiet_ProdV2_authenticateSpotify).
  revert Hstale Q.
  unfold ProdV2.authenticateSpotify, Prod.tokenStillValid, validWithBuffer,
    bind, tryCatch, readAccessToken, readTokenExpiresAt, dateNow, ret,
    axiosPost, consoleWrite, ProdV2.authFailure, authError, throw.
  destruct (tokenTruthy (accessToken s)); simpl.
  - intros ->. simpl. rewrite Hreject.
    destruct err as [m [[status data]|]]; simpl;
      [destruct ((status =? 500) && truthy (optProp data "message"))|];
      intros Q; eexists; (split; [reflexivity|]);
      (split; [reflexivity|]); eapply Q; reflexivity.
  - intros _. rewrite Hreject.
    destruct err as [m [[status data]|]]; simpl;
      [destruct ((status =? 500) && truthy (optProp data "message"))|];
      intros Q; eexists; (split; [reflexivity|]);
      (split; [reflexivity|]); eapply Q; reflexivity.
Qed.

Lemma authError_passesThrough env err :
  passesThrough env (authError env err) = true.
Proof.
  unfold authError, passesThrough.
  assert (Hc : forall m, includes ("Spotify configuration error: " ++ m)
                           "configuration error" = true).
  { intros m. apply includes_spec. exists "Spotify ", (": " ++ m).
    reflexivity. }
  destruct (ae_response err) as [[status data]|]; [|reflexivity].
  destruct ((status =? 500) && truthy (optProp data "message"));
    [|reflexivity].
  simpl exnMessage. now rewrite Hc.
Qed.

(** X11. Authentication failure in the later production service
    (part_001). On a cache miss, if no valid token is held and the token
    request is rejected, the call rejects with the error of
    [authenticateSpotify], unchanged by the outer [catch]: the
    configuration error carrying the server's message when the reply has
    status 500 and a truthy [message], the authentication error otherwise.
    The token request is the only request sent, and nothing is cached. *)
Theorem ProdV2_auth_failure_surfaces env mood market playlistLimit trackLimit
    s err :
  cache s !! cacheKey mood market = None ->
  tokenTruthy (accessToken s)
  && validWithBuffer (clock env (ticks s)) (tokenExpiresAt s) = false ->
  tokenEndpoint env (requests s) (Post "/.netlify/functions/spotify-auth" None)
  = Reject err ->
  exists s1,
    ProdV2.fetchSongsByMood env mood market playlistLimit trackLimit s
    = (Throw (authError env err), s1) /\
    requests s1
    = (requests s ++ [Post "/.netlify/functions/spotify-auth" None])%list /\
    cache s1 = cache s.
Proof.
  intros Hmiss Hstale Hreject.
  destruct (ProdV2_auth_rejected env
              (withConsole
                 (console s
                  ++ [(LLog, "🎵 MusicAI: Fetching songs for mood:")]) s)
              err Hstale Hreject) as (sa & Ea & Hreq & Q).
  unfold ProdV2.fetchSongsByMood.
  step (cacheGet_run (cacheKey mood market) s). rewrite Hmiss.
  unfold tryCatch, bind at 1. unfold consoleWrite at 1.
  rewrite (bind_throw _ _ _ _ _ Ea).
  unfold ProdV2.fetchFailure, bind, consoleWrite, throw.
  fold (passesThrough env (authError env err)).
  rewrite authError_passesThrough.
  eexists. split; [reflexivity|]. simpl. split; [exact Hreq|apply Q].
Qed.

Lemma ProdV2_auth_failure_surfaces_witness :
  exists s1,
    ProdV2.fetchSongsByMood unconfiguredHost "happy" "US" 5 10 initialState
    = (Throw (Error "Spotify configuration error: Spotify credentials not configured."),
       s1) /\
    requests s1 = [Post "/.netlify/functions/spotify-auth" None] /\
    cache s1 = cache initialState.
Proof.
  apply (ProdV2_auth_failure_surfaces unconfiguredHost "happy" "US" 5 10
           initialState
           {| ae_message := "Request failed with status code 500";
              ae_response :=
                Some (500,
                      JObj [("error", JStr "Internal server error");
                            ("message",
                             JStr "Spotify credentials not configured.")]) |}
           eq_refl eq_refl eq_refl).
Defined.

(** ** The proxy function *)

Lemma stripPrefix_app pat rest : stripPrefix pat (pat ++ rest) = Some rest.
Proof.
  induction pat as [|c pat IH]; [now destruct rest|].
  rewrite append_cons. simpl. now rewrite Ascii.eqb_refl.
Qed.

Lemma removeFirst_app pat rest : removeFirst pat (pat ++ rest) = rest.
Proof.
  destruct (pat ++ rest) as [|c s] eqn:E; simpl;
    rewrite <- E, stripPrefix_app; reflexivity.
Qed.

(** The three ways [getAccessToken] can end. *)
Lemma getAccessToken_outcomes env s :
  (exists s1, Server.getAccessToken env s = (Ok (accessToken s), s1) /\
     requests s1 = requests s) \/
  (exists tok s1, Server.getAccessToken env s = (Ok tok, s1) /\
     requests s1 = (requests s ++ [tokenExchange env])%list) \/
  (exists s1,
     Server.getAccessToken env s
     = (Throw (Error "Failed to retrieve Spotify access token."), s1) /\
     requests s1 = (requests s ++ [tokenExchange env])%list).
Proof.
  pose proof (Server_getAccessToken_spec env s) as H.
  fold (tokenExchange env) in H.
  destruct (tokenTruthy (accessToken s) && _).
  - left. destruct H as (s1 & E & Hr). eauto.
  - destruct (tokenEndpoint env (requests s) (tokenExchange env)).
    + right. left. destruct H as (s1 & E & _ & _ & Hr). eauto.
    + right. right. destruct H as (s1 & E & _ & _ & Hr). eauto.
Qed.

Lemma handler_get env event s :
  ServerProxy.httpMethod event = "GET" ->
  ServerProxy.handler env event s
  = tryCatch
      (accessToken <- Server.getAccessToken env ;;
       data <- axiosGet env (ServerProxy.forwarded event accessToken) ;;
       ret {| ServerProxy.statusCode := 200;
              ServerProxy.body := ServerProxy.Json data |})
      (fun error =>
         consoleWrite LError "Spotify API proxy error:" ;;;
         ret (ServerProxy.failure error)) s.
Proof. intros H. unfold ServerProxy.handler. now rewrite H. Qed.

(** X12. The proxy function always answers: whatever the event and the
    state of its token cache, the handler returns a response and never
    rejects. It sends at most two requests, the token exchange and the
    forwarded request; and for any method other than GET it answers 405
    "Method Not Allowed" without sending anything or touching its state. *)
Theorem handler_always_answers env event s :
  exists resp s1,
    ServerProxy.handler env event s = (Ok resp, s1) /\
    requests s `prefix_of` requests s1 /\
    (length (requests s1) <= length (requests s) + 2)%nat /\
    (ServerProxy.httpMethod event <> "GET" ->
     resp = {| ServerProxy.statusCode := 405;
               ServerProxy.body := ServerProxy.Text "Method Not Allowed" |} /\
     s1 = s).
Proof.
  destruct (String.eqb (ServerProxy.httpMethod event) "GET") eqn:Em.
  - apply String.eqb_eq in Em. rewrite (handler_get env event s Em).
    unfold tryCatch, bind.
    destruct (getAccessToken_outcomes env s)
      as [(s1 & E & Hr)|[(tok & s1 & E & Hr)|(s1 & E & Hr)]]; rewrite E.
    + destruct (axiosGet env _ s1) as [[d|e] s2] eqn:Eg;
        pose proof (axiosGet_requests _ _ _ _ _ Eg) as Hg;
        do 2 eexists; (split; [reflexivity|]); simpl;
        rewrite Hg, Hr, length_app; simpl;
        (split; [now apply prefix_app_r|]); (split; [lia|congruence]).
    + destruct (axiosGet env _ s1) as [[d|e] s2] eqn:Eg;
        pose proof (axiosGet_requests _ _ _ _ _ Eg) as Hg;
        do 2 eexists; (split; [reflexivity|]); simpl;
        rewrite Hg, Hr, <- app_assoc, length_app; simpl;
        (split; [now apply prefix_app_r|]); (split; [lia|congruence]).
    + do 2 eexists. split; [reflexivity|]. simpl.
      rewrite Hr, length_app. simpl.
      split; [now apply prefix_app_r|]. split; [lia|congruence].
  - unfold ServerProxy.handler. rewrite Em. simpl.
    do 2 eexists. split; [reflexivity|]. split; [reflexivity|].
    split; [lia|]. intros _. split; reflexivity.
Qed.

(** X13. Errors of the proxy function. For a GET event: when no token can
    be obtained, the handler answers 500 with [details: null] and the
    request is not forwarded; when the forwarded request is rejected, it
    answers with the status and the data of the upstream reply, or with 500
    and [details: null] when the error carries no reply. Each error is
    reported once with [console.error]. *)
Theorem handler_error_mapping env event s :
  ServerProxy.httpMethod event = "GET" ->
  (forall e sa,
     Server.getAccessToken env s = (Throw e, sa) ->
     exists s1,
       ServerProxy.handler env event s
       = (Ok {| ServerProxy.statusCode := 500;
                ServerProxy.body :=
                  ServerProxy.Json
                    (JObj [("error",
                            JStr "Failed to fetch data from Spotify API.");
                           ("details", JNull)]) |}, s1) /\
       requests s1 = requests sa /\
       console s1
       = (console sa ++ [(LError, "Spotify API proxy error:")])%list) /\
  (forall tok sa err,
     Server.getAccessToken env s = (Ok tok, sa) ->
     httpGet env (requests sa) (ServerProxy.forwarded event tok)
     = Reject err ->
     exists s1,
       ServerProxy.handler env event s
       = (Ok {| ServerProxy.statusCode :=
                  match ae_response err with
                  | Some (status, _) => status
                  | None => 500
                  end;
                ServerProxy.body :=
                  ServerProxy.Json
                    (JObj [("error",
                            JStr "Failed to fetch data from Spotify API.");
                           ("details",
                            match ae_response err with
                            | Some (_, data) => data
                            | None => JNull
                            end)]) |}, s1) /\
       requests s1
       = (requests sa ++ [ServerProxy.forwarded event tok])%list /\
       console s1
       = (console sa ++ [(LError, "Spotify API proxy error:")])%list).
Proof.
  intros Hget. split.
  - intros e sa Ea. rewrite (handler_get env event s Hget).
    unfold tryCatch. rewrite (bind_throw _ _ _ _ _ Ea).
    assert (He : e = Error "Failed to retrieve Spotify access token.").
    { destruct (getAccessToken_outcomes env s)
        as [(s1 & E & _)|[(tok & s1 & E & _)|(s1 & E & _)]];
        rewrite E in Ea; congruence. }
    subst e. eexists. split; [reflexivity|]. split; reflexivity.
  - intros tok sa err Ea Hrej. rewrite (handler_get env event s Hget).
    unfold tryCatch. rewrite (bind_ok _ _ _ _ _ Ea).
    assert (Eg : axiosGet env (ServerProxy.forwarded event tok) sa
                 = (Throw (AxiosErr err),
                    withRequests
                      (requests sa ++ [ServerProxy.forwarded event tok]) sa))
      by (unfold axiosGet; now rewrite Hrej).
    rewrite (bind_throw _ _ _ _ _ Eg).
    destruct err as [m [[status data]|]];
      eexists; (split; [reflexivity|]); split; reflexivity.
Qed.

Lemma handler_error_mapping_witness :
  exists s1,
    ServerProxy.handler authDownHost searchEvent initialState
    = (Ok {| ServerProxy.statusCode := 500;
             ServerProxy.body :=
               ServerProxy.Json
                 (JObj [("error",
                         JStr "Failed to fetch data from Spotify API.");
                        ("details", JNull)]) |}, s1) /\
    requests s1 = [tokenExchange authDownHost].
Proof.
  destruct (proj1 (handler_error_mapping authDownHost searchEvent
                     initialState eq_refl)
              (Error "Failed to retrieve Spotify access token.")
              (snd (Server.getAccessToken authDownHost initialState))
              eq_refl) as (s1 & E & Hr & _).
  exists s1. split; [exact E|]. rewrite Hr. reflexivity.
Defined.

(** X14. Forwarding. A GET event whose path is the path of the function
    followed by [rest] is forwarded to [https://api.spotify.com/v1] followed
    by [rest], with the token as bearer and the query parameters of the
    event; when Spotify resolves the request, the handler answers 200 with
    the JSON text of the data. *)
Theorem handler_forwards env event s rest tok sa data :
  ServerProxy.httpMethod event = "GET" ->
  ServerProxy.path event = "/.netlify/functions/spotify" ++ rest ->
  Server.getAccessToken env s = (Ok tok, sa) ->
  httpGet env (requests sa)
    (Get ("https://api.spotify.com/v1" ++ rest)
       (Some ("Bearer " ++ tokenText tok))
       (ServerProxy.queryStringParameters event))
  = Resolve data ->
  exists s1,
    ServerProxy.handler env event s
    = (Ok {| ServerProxy.statusCode := 200;
             ServerProxy.body := ServerProxy.Json data |}, s1) /\
    requests s1
    = (requests sa
       ++ [Get ("https://api.spotify.com/v1" ++ rest)%string
             (Some ("Bearer " ++ tokenText tok)%string)
             (ServerProxy.queryStringParameters event)])%list /\
    console s1 = console sa.
Proof.
  intros Hget Hpath Ea Hres. rewrite (handler_get env event s Hget).
  unfold tryCatch. rewrite (bind_ok _ _ _ _ _ Ea).
  assert (Hf : ServerProxy.forwarded event tok
               = Get ("https://api.spotify.com/v1" ++ rest)
                   (Some ("Bearer " ++ tokenText tok))
                   (ServerProxy.queryStringParameters event)).
  { unfold ServerProxy.forwarded. cbv zeta.
    now rewrite Hpath, removeFirst_app. }
  rewrite Hf. unfold bind, axiosGet. rewrite Hres.
  eexists. split; [reflexivity|]. split; reflexivity.
Qed.

Lemma handler_forwards_witness :
  exists s1,
    ServerProxy.handler exampleHost searchEvent initialState
    = (Ok {| ServerProxy.statusCode := 200;
             ServerProxy.body :=
               ServerProxy.Json (searchResult ["p1"; "p2"]) |}, s1) /\
    requests s1
    = [tokenExchange exampleHost;
       Get "https://api.spotify.com/v1/search" (Some "Bearer BQDtoken")
         [("q", JStr "happy"); ("type", JStr "playlist")]].
Proof.
  destruct (handler_forwards exampleHost searchEvent initialState "/search"
              (Some "BQDtoken")
              (snd (Server.getAccessToken exampleHost initialState))
              (searchResult ["p1"; "p2"])
              eq_refl eq_refl eq_refl eq_refl) as (s1 & E & Hr & _).
  exists s1. split; [exact E|]. rewrite Hr. reflexivity.
Defined.

(** X15. The token cache at work in the proxy function. While the token
    held is valid, a GET event costs exactly one request, the forwarded one,
    sent with the held token: no token is asked for. *)
Theorem handler_reuses_token env event s :
  ServerProxy.httpMethod event = "GET" ->
  tokenTruthy (accessToken s)
  && validUntilExpiry (clock env (ticks s)) (tokenExpiresAt s) = true ->
  exists resp s1,
    ServerProxy.handler env event s = (Ok resp, s1) /\
    requests s1
    = (requests s ++ [ServerProxy.forwarded event (accessToken s)])%list /\
    accessToken s1 = accessToken s.
Proof.
  intros Hget Hvalid. rewrite (handler_get env event s Hget).
  pose proof (Server_getAccessToken_spec env s) as H.
  rewrite Hvalid in H. destruct H as (sa & Ea & Hr).
  assert (Ht : accessToken sa = accessToken s).
  { revert Ea Hvalid. unfold Server.getAccessToken, validUntilExpiry, bind,
      readAccessToken, readTokenExpiresAt, dateNow, ret.
    destruct (tokenTruthy (accessToken s)); simpl; [|discriminate].
    intros Ea Hv. rewrite Hv in Ea. simpl in Ea. now inversion Ea. }
  unfold tryCatch. rewrite (bind_ok _ _ _ _ _ Ea).
  destruct (axiosGet env (ServerProxy.forwarded event (accessToken s)) sa)
    as [[d|e] s2] eqn:Eg;
    pose proof (axiosGet_requests _ _ _ _ _ Eg) as Hg;
    pose proof (axiosGet_token _ _ _ _ _ Eg) as Hk.
  - rewrite (bind_ok _ _ _ _ _ Eg). do 2 eexists.
    split; [reflexivity|]. split; congruence.
  - rewrite (bind_throw _ _ _ _ _ Eg). do 2 eexists.
    split; [reflexivity|]. simpl. split; congruence.
Qed.

Lemma handler_reuses_token_witness :
  exists resp s1,
    ServerProxy.handler exampleHost searchEvent expiringState = (Ok resp, s1) /\
    requests s1
    = [Get "https://api.spotify.com/v1/search" (Some "Bearer BQDold")
         [("q", JStr "happy"); ("type", JStr "playlist")]] /\
    accessToken s1 = Some "BQDold".
Proof.
  apply (handler_reuses_token exampleHost searchEvent expiringState
           eq_refl eq_refl).
Defined.

(** ** Any number of failed playlists *)

Lemma filter_resolved_pages (pages : Pending -> list (option UpstreamTrack))
    l :
  Forall (fun p => isResolved p = true ->
                   reply p = Resolve (pageJson (pages p))) l ->
  Forall (fun p => reply p = Resolve (pageJson (pages p)))
    (List.filter isResolved l).
Proof.
  induction 1 as [|p l Hp _ IH]; simpl; [constructor|].
  destruct (isResolved p) eqn:E; [constructor; auto|assumption].
Qed.

(** X16. Partial failure in general, in [Prod] (part_008) and [Proxy]
    (part_003). On a cache miss, once the track requests are out, the call
    resolves whatever number of them is rejected, all of them included:
    when every request that resolves brings a page of the documented
    shape, the list returned is what the specification expects of those
    pages, duplicates removed, and it is cached, the empty list of a call
    whose track requests all failed included. *)
Theorem failed_playlists_are_left_out env mood market playlistLimit
    trackLimit s pending pages s3 :
  cache s !! cacheKey mood market = None ->
  Forall (fun p => isResolved p = true ->
                   reply p = Resolve (pageJson (pages p))) pending ->
  (Prod.sent env mood market playlistLimit trackLimit s = (Ok pending, s3) ->
   exists r s1,
     Prod.fetchSongsByMood env mood market playlistLimit trackLimit s
     = (Ok r, s1) /\
     heap s1 !! r
     = Some (deduplicated
               (concat (map (fun p => expectedTracks env (pages p))
                          (List.filter isResolved (settleOrder pending))))) /\
     cache s1 !! cacheKey mood market = Some r) /\
  (Proxy.sent env mood market playlistLimit trackLimit s = (Ok pending, s3) ->
   exists r s1,
     Proxy.fetchSongsByMood env mood market playlistLimit trackLimit s
     = (Ok r, s1) /\
     heap s1 !! r
     = Some (deduplicated
               (concat (map (fun p => expectedTracks env (pages p))
                          (List.filter isResolved pending)))) /\
     cache s1 !! cacheKey mood market = Some r).
Proof.
  intros Hmiss Hpages.
  pose proof (filter_resolved_pages pages pending Hpages) as Hf.
  split.
  - intros Hs.
    destruct (Prod_sent_result env mood market playlistLimit trackLimit
                s _ s3 Hmiss Hs) as (s1 & E & Hh & Hc).
    exists (length (heap s)), s1. split; [assumption|]. split; [|assumption].
    rewrite Hh, pushed_resolved_only, filter_settleOrder.
    rewrite (pushed_pages env pages) by now apply settleOrder_all.
    now rewrite uniqueTracks_deduplicated, <- filter_settleOrder.
  - intros Hs.
    destruct (Proxy_sent_result env mood market playlistLimit trackLimit
                s _ s3 Hmiss Hs) as (s1 & E & Hh & Hc).
    exists (length (heap s)), s1. split; [assumption|]. split; [|assumption].
    rewrite Hh, contribution_resolved_only.
    rewrite (contribution_pages env pages) by assumption.
    now rewrite uniqueTracks_deduplicated.
Qed.

Lemma failed_playlists_are_left_out_witness :
  (exists r s1,
     Prod.fetchSongsByMood tracksDownHost "happy" "US" 5 10 initialState
     = (Ok r, s1) /\
     heap s1 !! r = Some [] /\
     cache s1 !! cacheKey "happy" "US" = Some r) /\
  (exists r s1,
     Proxy.fetchSongsByMood partialHost "happy" "US" 5 10 initialState
     = (Ok r, s1) /\
     heap s1 !! r
     = Some [exampleRecord "t2" "Sunshine"; exampleRecord "t4" "Moonlight"] /\
     cache s1 !! cacheKey "happy" "US" = Some r).
Proof.
  split.
  - apply (proj1 (failed_playlists_are_left_out tracksDownHost "happy" "US"
                    5 10 initialState
                    (pendingOf (Prod.sent tracksDownHost "happy" "US" 5 10
                                  initialState))
                    partialPages
                    (snd (Prod.sent tracksDownHost "happy" "US" 5 10
                            initialState))
                    eq_refl
                    ltac:(vm_compute; repeat constructor; discriminate))).
    vm_compute. reflexivity.
  - apply (proj2 (failed_playlists_are_left_out partialHost "happy" "US"
                    5 10 initialState proxyPending partialPages
                    (snd (Proxy.sent partialHost "happy" "US" 5 10
                            initialState))
                    eq_refl
                    ltac:(vm_compute; repeat constructor;
                          first [discriminate|reflexivity]))).
    vm_compute. reflexivity.
Defined.

(** X5. Playlist order. When the track requests of a call of [Prod]
    settle in the order in which they were sent, the list it returns
    follows the order of the playlists: it is what the specification
    expects of the pages taken in playlist order, duplicates removed. *)
Theorem in_order_settling_gives_playlist_order env mood market
    playlistLimit trackLimit s pending pages s3 :
  cache s !! cacheKey mood market = None ->
  Forall (fun p => isResolved p = true ->
                   reply p = Resolve (pageJson (pages p))) pending ->
  Prod.sent env mood market playlistLimit trackLimit s = (Ok pending, s3) ->
  settleSorted pending ->
  exists r s1,
    Prod.fetchSongsByMood env mood market playlistLimit trackLimit s
    = (Ok r, s1) /\
    heap s1 !! r
    = Some (deduplicated
              (concat (map (fun p => expectedTracks env (pages p))
                         (List.filter isResolved pending)))).
Proof.
  intros Hmiss Hpages Hs Hsorted.
  destruct (Prod_sent_result env mood market playlistLimit trackLimit
              s pending s3 Hmiss Hs) as (s1 & E & Hh & _).
  exists (length (heap s)), s1. split; [assumption|].
  rewrite Hh, settleOrder_sorted_id by assumption.
  rewrite pushed_resolved_only.
  rewrite (pushed_pages env pages) by now apply filter_resolved_pages.
  now rewrite uniqueTracks_deduplicated.
Qed.

Lemma in_order_settling_gives_playlist_order_witness :
  exists r s1,
    Prod.fetchSongsByMood exampleHost "happy" "US" 5 10 initialState
    = (Ok r, s1) /\
    heap s1 !! r = Some [exampleRecord "t2" "Sunshine"].
Proof.
  apply (in_order_settling_gives_playlist_order exampleHost "happy" "US"
           5 10 initialState
           (pendingOf (Prod.sent exampleHost "happy" "US" 5 10 initialState))
           examplePages
           (snd (Prod.sent exampleHost "happy" "US" 5 10 initialState))
           eq_refl
           ltac:(vm_compute; repeat constructor)
           ltac:(vm_compute; reflexivity)
           ltac:(vm_compute; repeat constructor)).
Defined.

(** X17. The [Map] of the code and its description on lists agree on
    every list: [uniqueTracks] keeps each id once, at the place of its first
    record and with the fields of its last. *)
Theorem Map_keeps_first_place_last_value l :
  uniqueTracks l = deduplicated l.
Proof. apply uniqueTracks_deduplicated. Qed.

(** ** The scheduler and [Prod] *)

Lemma elem_of_insertSettled p q l :
  p ∈ insertSettled q l <-> p = q \/ p ∈ l.
Proof.
  induction l as [|a l IH]; simpl.
  - rewrite list_elem_of_singleton, elem_of_nil. tauto.
  - destruct (settleAt q <=? settleAt a)%nat.
    + now rewrite elem_of_cons.
    + rewrite !elem_of_cons, IH. tauto.
Qed.

Lemma elem_of_settleOrder p l : p ∈ settleOrder l <-> p ∈ l.
Proof.
  induction l as [|a l IH]; simpl; [reflexivity|].
  now rewrite elem_of_insertSettled, elem_of_cons, IH.
Qed.

Lemma elem_of_ids_concat (f : Pending -> list Track) l k :
  k ∈ map id (concat (map f l)) <-> exists p, p ∈ l /\ k ∈ map id (f p).
Proof.
  induction l as [|a l IH]; simpl.
  - rewrite elem_of_nil. split; [tauto|]. intros (p & Hp & _).
    now apply elem_of_nil in Hp.
  - rewrite map_app, elem_of_app, IH. split.
    + intros [H|(p & Hp & H)].
      * exists a. split; [apply elem_of_cons; now left|assumption].
      * exists p. split; [apply elem_of_cons; now right|assumption].
    + intros (p & Hp & H). apply elem_of_cons in Hp as [->|Hp]; eauto.
Qed.

Lemma pushed_withLatency env lat p p' :
  reply p' = reply p -> pushed (withLatency lat env) p' = pushed env p.
Proof. intros H. unfold pushed. now rewrite H. Qed.

Lemma same_reply_elem (ps ps' : list Pending) p' :
  map reply ps' = map reply ps -> p' ∈ ps' ->
  exists p, p ∈ ps /\ reply p = reply p'.
Proof.
  intros Hr Hp.
  assert (H : reply p' ∈ map reply ps)
    by (rewrite <- Hr; now apply list_elem_of_fmap_2).
  apply list_elem_of_fmap in H as (p & E & Hin). eauto.
Qed.

(** The ids collected under two schedulers are the same. *)
Lemma settled_ids env lat ps ps' k :
  map reply ps' = map reply ps ->
  k ∈ map id (uniqueTracks
                (concat (map (pushed (withLatency lat env))
                           (settleOrder ps'))))
  <-> k ∈ map id (uniqueTracks
                    (concat (map (pushed env) (settleOrder ps)))).
Proof.
  intros Hr. rewrite !uniqueTracks_ids, !elem_of_ids_concat. split.
  - intros (p' & Hp' & H). rewrite elem_of_settleOrder in Hp'.
    destruct (same_reply_elem ps ps' p' Hr Hp') as (p & Hp & E).
    exists p. split; [now apply elem_of_settleOrder|].
    now rewrite <- (pushed_withLatency env lat p p') by congruence.
  - intros (p & Hp & H). rewrite elem_of_settleOrder in Hp.
    destruct (same_reply_elem ps' ps p (eq_sym Hr) Hp) as (p' & Hp' & E).
    exists p'. split; [now apply elem_of_settleOrder|].
    now rewrite (pushed_withLatency env lat p p') by congruence.
Qed.

(** X18. The scheduler decides the order of what [Prod] returns, not its
    content: under any other latencies of the host, a call of [Prod] from
    the same state completes in the same way, and a list it returns holds
    tracks of exactly the same ids. *)
Theorem Prod_ids_independent_of_latency env lat mood market playlistLimit
    trackLimit s :
  fst (Prod.fetchSongsByMood (withLatency lat env) mood market
         playlistLimit trackLimit s)
  = fst (Prod.fetchSongsByMood env mood market playlistLimit trackLimit s)
  /\
  forall r k,
    fst (Prod.fetchSongsByMood env mood market playlistLimit trackLimit s)
    = Ok r ->
    (exists l',
       heap (snd (Prod.fetchSongsByMood (withLatency lat env) mood market
                    playlistLimit trackLimit s)) !! r = Some l' /\
       k ∈ map id l') <->
    (exists l,
       heap (snd (Prod.fetchSongsByMood env mood market playlistLimit
                    trackLimit s)) !! r = Some l /\
       k ∈ map id l).
Proof.
  unfold Prod.fetchSongsByMood.
  rewrite !(bind_ok _ _ _ _ _ (cacheGet_run (cacheKey mood market) s)).
  destruct (cache s !! cacheKey mood market) as [r0|]; [now split|].
  change (Prod.authenticateSpotify (withLatency lat env))
    with (Prod.authenticateSpotify env).
  destruct (Prod.authenticateSpotify env s) as [[tok|e] sa] eqn:Ea.
  2:{ rewrite !(bind_throw _ _ _ _ _ Ea). now split. }
  rewrite !(bind_ok _ _ _ _ _ Ea).
  rewrite !(bind_ok _ _ _ _ _ (readAccessToken_run sa)).
  change (axiosGet (withLatency lat env)) with (axiosGet env).
  match goal with |- context [axiosGet env ?rq] =>
    destruct (axiosGet env rq sa) as [[searchData|e] s2] eqn:Es end.
  2:{ rewrite !(tryCatch_bind_throw _ _ _ _ _ _ Es). now split. }
  rewrite !(tryCatch_bind_ok _ _ _ _ _ _ Es).
  destruct (playlistItems searchData) as [playlists|e] eqn:Ep.
  2:{ rewrite !(tryCatch_bind_throw _ _ _ _ _ _ (lift_run (Throw e) s2)).
      now split. }
  rewrite !(tryCatch_bind_ok _ _ _ _ _ _ (lift_run (Ok playlists) s2)).
  change (Prod.tracksRequest (withLatency lat env))
    with (Prod.tracksRequest env).
  change (trackWarning (withLatency lat env)) with (trackWarning env).
  match goal with |- context [fetchAllTracks env ?rq ?w playlists] =>
    destruct (sendAll_withLatency env lat rq playlists s2)
      as (ps & ps' & s3 & E & E' & Hr);
    destruct (fetchAllTracks_result env rq w playlists s2 ps s3 E)
      as (s4 & E4 & Q4);
    destruct (fetchAllTracks_result (withLatency lat env) rq w playlists
                s2 ps' s3 E') as (s4' & E4' & Q4')
  end.
  rewrite (tryCatch_bind_ok _ _ _ _ _ _ E4),
    (tryCatch_bind_ok _ _ _ _ _ _ E4').
  destruct (store_result (cacheKey mood market)
              (concat (map (pushed env) (settleOrder ps))) s3 s4 Q4)
    as (s1 & E1 & Hh & _).
  destruct (store_result (cacheKey mood market)
              (concat (map (pushed (withLatency lat env)) (settleOrder ps')))
              s3 s4' Q4')
    as (s1' & E1' & Hh' & _).
  rewrite (tryCatch_ok _ _ _ _ _ E1), (tryCatch_ok _ _ _ _ _ E1'). simpl.
  split; [reflexivity|]. intros r k [= <-]. rewrite Hh, Hh'. split.
  - intros (l' & [= <-] & Hk). eexists. split; [reflexivity|].
    now apply (settled_ids env lat ps ps' k Hr).
  - intros (l & [= <-] & Hk). eexists. split; [reflexivity|].
    now apply (settled_ids env lat ps ps' k Hr).
Qed.

(** ** Lists handed out *)

Lemma heap_grows env fetch mood market playlistLimit trackLimit s c s1 :
  memoising env fetch ->
  fetch mood market playlistLimit trackLimit s = (c, s1) ->
  heap s `prefix_of` heap s1.
Proof.
  intros Hf Hcall.
  specialize (Hf mood market playlistLimit trackLimit s).
  destruct (cache s !! cacheKey mood market) as [r0|] eqn:E.
  - rewrite Hf in Hcall. now inversion Hcall; subst.
  - destruct (Hf c s1 Hcall)
      as [tracks s1 _ Hh _ _ | s1 Hh _ _ _ | e s1 Q _].
    + rewrite Hh. now apply prefix_app_r.
    + rewrite Hh. now apply prefix_app_r.
    + now rewrite (quiet_heap _ _ Q).
Qed.

(** X19. A list that [Prod] or [Proxy] has handed out is never changed by
    the service afterwards: at any later time the same reference leads to
    the same list. *)
Theorem handed_out_lists_never_change env fetch s1 s2 r l :
  lenient env fetch ->
  laterOn fetch s1 s2 ->
  heap s1 !! r = Some l -> heap s2 !! r = Some l.
Proof.
  intros Hf Hlater Hl. apply lenient_memoising in Hf.
  induction Hlater as [|s' mood market pl tl c s'' _ IH Hcall].
  - assumption.
  - destruct (heap_grows _ _ _ _ _ _ _ _ _ Hf Hcall) as [more ->].
    now apply lookup_app_l_Some.
Qed.

Lemma handed_out_lists_never_change_witness :
  heap (snd (Prod.fetchSongsByMood exampleHost "sad" "GB" 5 10
               (snd (Prod.fetchSongsByMood exampleHost "happy" "US" 5 10
                       initialState)))) !! 0%nat
  = Some [exampleRecord "t2" "Sunshine"].
Proof.
  apply (handed_out_lists_never_change exampleHost
           (Prod.fetchSongsByMood exampleHost)
           (snd (Prod.fetchSongsByMood exampleHost "happy" "US" 5 10
                   initialState))
           _ 0%nat [exampleRecord "t2" "Sunshine"] (or_introl eq_refl)).
  - eapply laterOn_call; [apply laterOn_now|]. apply surjective_pairing.
  - vm_compute. reflexivity.
Defined.

(** ** The authentication function *)

(** X20. The authentication function always answers, with 200, 405 or
    500 and the CORS headers, after at most one request; it answers an
    OPTIONS event with 200 and an empty body, and any other event that is
    not a POST with 405, without sending or logging anything. *)
Theorem auth_handler_always_answers env setup event s :
  exists resp s1,
    SpotifyAuth.handler env setup event s = (Ok resp, s1) /\
    (SpotifyAuth.statusCode resp = 200 \/ SpotifyAuth.statusCode resp = 405
     \/ SpotifyAuth.statusCode resp = 500) /\
    SpotifyAuth.headers resp = SpotifyAuth.corsHeaders /\
    (length (requests s1) <= length (requests s) + 1)%nat /\
    (ServerProxy.httpMethod event <> "POST" ->
     s1 = s /\
     SpotifyAuth.statusCode resp
     = if String.eqb (ServerProxy.httpMethod event) "OPTIONS" then 200
       else 405).
Proof.
  assert (Hanswer : forall resp s1,
    (SpotifyAuth.statusCode resp = 200 \/ SpotifyAuth.statusCode resp = 405
     \/ SpotifyAuth.statusCode resp = 500) ->
    SpotifyAuth.headers resp = SpotifyAuth.corsHeaders ->
    (length (requests s1) <= length (requests s) + 1)%nat ->
    (ServerProxy.httpMethod event <> "POST" ->
     s1 = s /\
     SpotifyAuth.statusCode resp
     = if String.eqb (ServerProxy.httpMethod event) "OPTIONS" then 200
       else 405) ->
    forall run, run = (Ok resp, s1) ->
    exists resp s1,
      run = (Ok resp, s1) /\
      (SpotifyAuth.statusCode resp = 200 \/ SpotifyAuth.statusCode resp = 405
       \/ SpotifyAuth.statusCode resp = 500) /\
      SpotifyAuth.headers resp = SpotifyAuth.corsHeaders /\
      (length (requests s1) <= length (requests s) + 1)%nat /\
      (ServerProxy.httpMethod event <> "POST" ->
       s1 = s /\
       SpotifyAuth.statusCode resp
       = if String.eqb (ServerProxy.httpMethod event) "OPTIONS" then 200
         else 405)) by (intros; eauto 10).
  unfold SpotifyAuth.handler.
  destruct (String.eqb (ServerProxy.httpMethod event) "OPTIONS") eqn:Eo.
  { eapply Hanswer; [| | | |reflexivity]; simpl; auto; lia. }
  destruct (String.eqb (ServerProxy.httpMethod event) "POST") eqn:Ep; simpl.
  2:{ eapply Hanswer; [| | | |reflexivity]; simpl; auto; lia. }
  apply String.eqb_eq in Ep.
  unfold tryCatch, bind, consoleWrite, throw, ret, lift, SpotifyAuth.fetch.
  destruct (negb _ || negb _); simpl.
  { eapply Hanswer; [| | | |reflexivity]; simpl; auto; try lia; try congruence. }
  destruct (SpotifyAuth.fetchPost setup (requests s) _)
    as [e|status statusText json]; simpl.
  { eapply Hanswer; [| | | |reflexivity]; simpl; rewrite ?length_app; simpl;
      auto; try lia; try congruence. }
  destruct (negb (SpotifyAuth.ok status)); simpl.
  { eapply Hanswer; [| | | |reflexivity]; simpl; rewrite ?length_app; simpl;
      auto; try lia; try congruence. }
  destruct json as [data|e]; simpl.
  2:{ eapply Hanswer; [| | | |reflexivity]; simpl; rewrite ?length_app; simpl;
        auto; try lia; try congruence. }
  destruct (getProp data "access_token") as [a|e]; simpl.
  2:{ eapply Hanswer; [| | | |reflexivity]; simpl; rewrite ?length_app; simpl;
        auto; try lia; try congruence. }
  destruct (getProp data "expires_in") as [x|e]; simpl;
    (eapply Hanswer; [| | | |reflexivity]; simpl; rewrite ?length_app; simpl;
     auto; try lia; try congruence).
Qed.

(** X21. Without credentials nothing leaves the function. For a POST
    event, when the client id or the client secret is not set (or empty),
    the function answers 500 with the message that the credentials are not
    configured, and it has sent no request. *)
Theorem auth_handler_needs_credentials env setup event s :
  ServerProxy.httpMethod event = "POST" ->
  configured setup = false ->
  exists s1,
    SpotifyAuth.handler env setup event s
    = (Ok {| SpotifyAuth.statusCode := 500;
             SpotifyAuth.headers := SpotifyAuth.corsHeaders;
             SpotifyAuth.body :=
               ServerProxy.Json
                 (JObj [("error", JStr "Internal server error");
                        ("message",
                         JStr "Spotify credentials not configured. Please set REACT_APP_SPOTIFY_CLIENT_ID and REACT_APP_SPOTIFY_CLIENT_SECRET environment variables.");
                        ("details",
                         JStr "Please check that REACT_APP_SPOTIFY_CLIENT_ID and REACT_APP_SPOTIFY_CLIENT_SECRET are configured correctly.")]) |},
       s1) /\
    requests s1 = requests s.
Proof.
  intros Hpost Hconf. unfold SpotifyAuth.handler. rewrite Hpost. simpl.
  unfold configured in Hconf. rewrite <- negb_andb, Hconf. simpl.
  unfold tryCatch, bind, consoleWrite, throw, ret. simpl.
  eexists. split; reflexivity.
Qed.

Lemma auth_handler_needs_credentials_witness :
  exists s1,
    SpotifyAuth.handler exampleHost bareSetup postEvent initialState
    = (Ok {| SpotifyAuth.statusCode := 500;
             SpotifyAuth.headers := SpotifyAuth.corsHeaders;
             SpotifyAuth.body :=
               ServerProxy.Json
                 (JObj [("error", JStr "Internal server error");
                        ("message",
                         JStr "Spotify credentials not configured. Please set REACT_APP_SPOTIFY_CLIENT_ID and REACT_APP_SPOTIFY_CLIENT_SECRET environment variables.");
                        ("details",
                         JStr "Please check that REACT_APP_SPOTIFY_CLIENT_ID and REACT_APP_SPOTIFY_CLIENT_SECRET are configured correctly.")]) |},
       s1) /\
    requests s1 = requests initialState.
Proof.
  apply (auth_handler_needs_credentials exampleHost bareSetup postEvent
           initialState eq_refl eq_refl).
Defined.



(** X23. The function and its client. Whatever makes the function answer
    500 (missing credentials, a token endpoint that refuses, a failed
    [fetch]), its body carries the message of the error; and the later
    production service (part_001), receiving that reply to its token
    request, rejects with a configuration error quoting the message,
    provided the message is not empty. *)
Theorem function_errors_reach_the_client env setup event s resp s1 m :
  SpotifyAuth.handler env setup event s = (Ok resp, s1) ->
  SpotifyAuth.statusCode resp = 500 ->
  exists msg data,
    SpotifyAuth.body resp = ServerProxy.Json data /\
    optProp data "message" = JStr msg /\
    (msg <> "" ->
     authError env {| ae_message := m;
                      ae_response := Some (SpotifyAuth.statusCode resp, data) |}
     = Error ("Spotify configuration error: " ++ msg)).
Proof.
  assert (Hcatch : forall e s2,
    (consoleWrite LError "Spotify auth error:" ;;;
     ret {| SpotifyAuth.statusCode := 500;
            SpotifyAuth.headers := SpotifyAuth.corsHeaders;
            SpotifyAuth.body :=
              ServerProxy.Json
                (JObj [("error", JStr "Internal server error");
                       ("message", JStr (exnMessage env e));
                       ("details",
                        JStr "Please check that REACT_APP_SPOTIFY_CLIENT_ID and REACT_APP_SPOTIFY_CLIENT_SECRET are configured correctly.")]) |})
      s2 = (Ok resp, s1) ->
    exists msg data,
      SpotifyAuth.body resp = ServerProxy.Json data /\
      optProp data "message" = JStr msg /\
      (msg <> "" ->
       authError env
         {| ae_message := m;
            ae_response := Some (SpotifyAuth.statusCode resp, data) |}
       = Error ("Spotify configuration error: " ++ msg))).
  { intros e s2. unfold bind, consoleWrite, ret. intros [= <- _].
    do 2 eexists. split; [reflexivity|]. split; [reflexivity|].
    intros Hne. unfold authError. simpl.
    apply String.eqb_neq in Hne. now rewrite Hne. }
  unfold SpotifyAuth.handler.
  destruct (String.eqb (ServerProxy.httpMethod event) "OPTIONS");
    [intros [= <- _]; discriminate|].
  destruct (negb (String.eqb (ServerProxy.httpMethod event) "POST"));
    [intros [= <- _]; discriminate|].
  unfold tryCatch. cbv zeta.
  match goal with |- context [if ?c then _ else _] => destruct c end.
  { unfold bind at 1. unfold consoleWrite at 1. unfold throw at 1.
    intros H _. eapply Hcatch, H. }
  unfold bind at 1. unfold SpotifyAuth.fetch.
  destruct (SpotifyAuth.fetchPost setup (requests s) _)
    as [e|status statusText json]; [intros H _; eapply Hcatch, H|].
  destruct (negb (SpotifyAuth.ok status)).
  { unfold bind at 1. unfold consoleWrite at 1. unfold throw at 1.
    intros H _. eapply Hcatch, H. }
  unfold bind at 1. unfold lift at 1.
  destruct json as [data|e]; [|intros H _; eapply Hcatch, H].
  unfold bind at 1. unfold lift at 1.
  destruct (getProp data "access_token") as [a|e];
    [|intros H _; eapply Hcatch, H].
  unfold bind at 1. unfold lift at 1.
  destruct (getProp data "expires_in") as [x|e];
    [|intros H _; eapply Hcatch, H].
  unfold ret. intros [= <- _]. discriminate.
Qed.

Lemma function_errors_reach_the_client_witness :
  exists msg data,
    SpotifyAuth.body
      (mkResponseOf
         (SpotifyAuth.handler exampleHost bareSetup postEvent initialState))
    = ServerProxy.Json data /\
    optProp data "message" = JStr msg /\
    (msg <> "" ->
     authError exampleHost
       {| ae_message := "Request failed with status code 500";
          ae_response :=
            Some (SpotifyAuth.statusCode
                    (mkResponseOf
                       (SpotifyAuth.handler exampleHost bareSetup postEvent
                          initialState)), data) |}
     = Error ("Spotify configuration error: " ++ msg)).
Proof.
  apply (function_errors_reach_the_client exampleHost bareSetup postEvent
           initialState
           (mkResponseOf
              (SpotifyAuth.handler exampleHost bareSetup postEvent
                 initialState))
           (snd (SpotifyAuth.handler exampleHost bareSetup postEvent
                   initialState))
           "Request failed with status code 500").
  - vm_compute. reflexivity.
  - reflexivity.
Defined.
